(** * cameraCapture1camA: a triggered capture pipeline

    Shallow embedding of [cameraCapture1camA.py].  The script has three
    kinds of Python threads per trial: the main (controller) thread, one
    [camCapture] thread and one [saveImage] thread.  They share two
    [queue.Queue] objects per trial, the camera, and the global flag
    [tEnd].  The embedding is an interleaving machine: a state holds the
    shared store and one program counter per thread, and a schedule (a
    list of events) says which thread performs its next atomic statement.

    What lies outside the script is modelled as environment:
    - the camera is a script of device events consumed by [GetNextImage];
    - the video writer is a sink that records the calls made on it;
    - the file system is a tree of directories and regular files, with
      a limit on the length of a name; it has no links and no access
      rights, nothing but the script changes it, and names are compared
      as written;
    - wall-clock values are dropped, only whether [tStart] is bound is kept;
    - the calls the main thread makes on camera, window and writer
      return normally, and a camera is attached.

    A step of a thread is one statement, or a few statements that touch
    nothing another thread can see in between.  Every read of [tEnd] or
    of a queue by the main thread is a step of its own.  Ctrl-C reaches
    the main thread only; it can arrive between any two of its steps and
    inside [Queue.put], between the two updates that call makes.  A
    thread that waits in [Queue.get] takes its next step only when the
    queue holds an item; that the scheduler ever runs it is not
    assumed. *)

From stdpp Require Import base list strings pretty.
From Stdlib Require Import Ascii ZArith Lia.

Set Warnings "-abstract-large-number".
Open Scope string_scope.

(** ** Constants of the script *)

Definition SAVE_FOLDER_ROOT : string := "D:/video/bottom".
Definition FILENAME_ROOT : string := "mj_".
(** The 20 of line 233. *)
Definition WINDOW_UPDATE_EVERY : nat := 20.

(** The three constants that shape the control flow.  [source_config]
    holds the values written in the script. *)
Record Config := {
  FRAMES_TO_RECORD : nat;
  TRIALS_TO_RECORD : nat;
  CAM_TIMEOUT : nat
}.

Definition source_config : Config :=
  {| FRAMES_TO_RECORD := 10000; TRIALS_TO_RECORD := 1000; CAM_TIMEOUT := 100 |}.

(** ** Exceptions *)

Inductive SpinCode := SPIN_TIMEOUT | SPIN_OTHER.

Inductive Exn :=
  | FileNotFoundError
  | FileExistsError
  | NotADirectoryError
  | OSError
  | NameError
  | ValueError
  | KeyboardInterrupt
  | SpinnakerException (code : SpinCode).

Inductive result (A : Type) :=
  | Ok (a : A)
  | Raised (e : Exn).
Arguments Ok {A} a.
Arguments Raised {A} e.

(** ** Session set-up: date strings, folders, file names *)

Record datetime := {
  year : nat; month : nat; day : nat;
  hour : nat; minute : nat; second : nat
}.

(** [str(n)] of a non-negative Python integer. *)
Definition str (n : nat) : string := pretty n.

Definition pad2 (n : nat) : string :=
  if (n <? 10)%nat then "0" +:+ str n else str n.

Definition pad4 (n : nat) : string :=
  if (n <? 10)%nat then "000" +:+ str n
  else if (n <? 100)%nat then "00" +:+ str n
  else if (n <? 1000)%nat then "0" +:+ str n
  else str n.

(** [now.strftime("%Y_%m_%d")] *)
Definition strftime_Ymd (now : datetime) : string :=
  pad4 (year now) +:+ "_" +:+ pad2 (month now) +:+ "_" +:+ pad2 (day now).

(** [now.strftime("%H_%M_%S")] *)
Definition strftime_HMS (now : datetime) : string :=
  pad2 (hour now) +:+ "_" +:+ pad2 (minute now) +:+ "_" +:+ pad2 (second now).

(** The file system as the script sees it: a tree of directories and
    regular files, the working directory, and the longest name an entry
    may have.  An entry is named by the components of its path, counted
    from the top, which is itself a directory; every path the script
    passes starts with the drive letter.  Names are compared as
    written: [.] and [..], letter case and trailing dots have no
    special meaning here.  There are no links and no access rights, and
    nothing but the script changes the tree.  A failed call raises the
    exception CPython has for the POSIX error: [FileNotFoundError] for
    [ENOENT], [NotADirectoryError] for [ENOTDIR], [FileExistsError] for
    [EEXIST], a plain [OSError] for [ENAMETOOLONG]. *)
Inductive Kind := Directory | RegularFile.

Record FileSystem := {
  entries : list (list string * Kind);
  cwd : string;
  name_max : nat
}.

(** Slash and backslash (character 92) both separate path components. *)
Definition is_sep (c : ascii) : bool :=
  bool_decide (c = "/"%char) || bool_decide (c = ascii_of_nat 92).

Fixpoint has_sep (p : string) : bool :=
  match p with
  | EmptyString => false
  | String c rest => is_sep c || has_sep rest
  end.

(** Does [p] end with a separator? *)
Fixpoint ends_sep (p : string) : bool :=
  match p with
  | EmptyString => false
  | String c EmptyString => is_sep c
  | String _ rest => ends_sep rest
  end.

(** The text between the separators of [p]. *)
Fixpoint split_path (p : string) : list string :=
  match p with
  | EmptyString => [EmptyString]
  | String c rest =>
      if is_sep c then EmptyString :: split_path rest
      else match split_path rest with
           | [] => [String c EmptyString]
           | x :: xs => String c x :: xs
           end
  end.

(** The components of [p]: doubled and trailing separators count for
    nothing. *)
Definition components (p : string) : list string :=
  filter (λ c, c ≠ EmptyString) (split_path p).

Fixpoint find_entry (path : list string) (l : list (list string * Kind))
  : option Kind :=
  match l with
  | [] => None
  | (k, v) :: l' => if decide (k = path) then Some v else find_entry path l'
  end.

(** What looking a path up can give: the entry, nothing ([ENOENT]), a
    regular file in the way ([ENOTDIR]), a name that is too long
    ([ENAMETOOLONG]). *)
Inductive Stat :=
  | Found (k : Kind)
  | Absent
  | Blocked
  | TooLong.

(** Look up the components [rest] below the directory [pre]. *)
Fixpoint walk (fs : FileSystem) (pre rest : list string) : Stat :=
  match rest with
  | [] => Found Directory
  | c :: rest' =>
      if (name_max fs <? String.length c)%nat then TooLong
      else match find_entry (pre ++ [c]) (entries fs) with
           | None => Absent
           | Some RegularFile =>
               match rest' with
               | [] => Found RegularFile
               | _ :: _ => Blocked
               end
           | Some Directory => walk fs (pre ++ [c]) rest'
           end
  end.

Definition stat (fs : FileSystem) (p : string) : Stat :=
  if decide (p = EmptyString) then Absent else walk fs [] (components p).

(** [os.path.exists]: false whenever the look-up fails, and for a
    regular file named with a trailing separator. *)
Definition os_path_exists (fs : FileSystem) (p : string) : bool :=
  match stat fs p with
  | Found Directory => true
  | Found RegularFile => negb (ends_sep p)
  | _ => false
  end.

(** Where [os.mkdir] would make its directory: it looks up every
    component but the last and makes one level only. *)
Fixpoint mkdir_walk (fs : FileSystem) (pre rest : list string)
  : result (list string) :=
  match rest with
  | [] => Raised FileExistsError
  | c :: rest' =>
      if (name_max fs <? String.length c)%nat then Raised OSError
      else match find_entry (pre ++ [c]) (entries fs), rest' with
           | None, [] => Ok (pre ++ [c])%list
           | None, _ :: _ => Raised FileNotFoundError
           | Some _, [] => Raised FileExistsError
           | Some Directory, _ :: _ => mkdir_walk fs (pre ++ [c]) rest'
           | Some RegularFile, _ :: _ => Raised NotADirectoryError
           end
  end.

Definition os_mkdir (fs : FileSystem) (p : string) : result FileSystem :=
  if decide (p = EmptyString) then Raised FileNotFoundError
  else match mkdir_walk fs [] (components p) with
       | Raised e => Raised e
       | Ok path =>
           Ok {| entries := (path, Directory) :: entries fs;
                 cwd := cwd fs; name_max := name_max fs |}
       end.

Definition os_chdir (fs : FileSystem) (p : string) : result FileSystem :=
  match stat fs p with
  | Found Directory =>
      Ok {| entries := entries fs; cwd := p; name_max := name_max fs |}
  | Found RegularFile | Blocked => Raised NotADirectoryError
  | Absent => Raised FileNotFoundError
  | TooLong => Raised OSError
  end.

(** One file system holds everything another does. *)
Definition extends (fs fs' : FileSystem) : Prop :=
  name_max fs' = name_max fs
  ∧ ∀ path k, find_entry path (entries fs) = Some k →
              find_entry path (entries fs') = Some k.

(** The components of [SAVE_FOLDER_ROOT]. *)
Definition root_path : list string := components SAVE_FOLDER_ROOT.

(** A mouse ID that is a plain name: not empty, and made of letters,
    digits, [_] and [-] only. *)
Definition plain_char (c : ascii) : bool :=
  let n := nat_of_ascii c in
  ((48 <=? n)%nat && (n <=? 57)%nat) || ((65 <=? n)%nat && (n <=? 90)%nat)
  || ((97 <=? n)%nat && (n <=? 122)%nat) || (n =? 95)%nat || (n =? 45)%nat.

Fixpoint all_plain (s : string) : bool :=
  match s with
  | EmptyString => true
  | String c rest => plain_char c && all_plain rest
  end.

Definition plain_name (s : string) : bool :=
  match s with
  | EmptyString => false
  | String _ _ => all_plain s
  end.

(** Module-level variables bound by lines 67-84. *)
Record Session := {
  mouseStr : string;
  dateStr : string;
  timeStr : string;
  saveFolder : string
}.

(** [if not os.path.exists(p): os.mkdir(p)] *)
Definition ensure_dir (fs : FileSystem) (p : string) : result FileSystem :=
  if os_path_exists fs p then Ok fs else os_mkdir fs p.

(** Lines 67-84: folders are made and entered before anything else.
    [mouse] is the text typed at the [input] prompt.  The result comes
    with the file system as it is when the block ends or raises. *)
Definition setup_folders (fs : FileSystem) (now : datetime) (mouse : string)
  : FileSystem * result Session :=
  let saveFolder0 := SAVE_FOLDER_ROOT +:+ "/" +:+ mouse in
  match ensure_dir fs saveFolder0 with
  | Raised e => (fs, Raised e)
  | Ok fs1 =>
      let dateS := strftime_Ymd now in
      let timeS := strftime_HMS now in
      let saveFolder1 :=
        SAVE_FOLDER_ROOT +:+ "/" +:+ mouse +:+ "/" +:+ dateS in
      match ensure_dir fs1 saveFolder1 with
      | Raised e => (fs1, Raised e)
      | Ok fs2 =>
          match os_chdir fs2 saveFolder1 with
          | Raised e => (fs2, Raised e)
          | Ok fs3 =>
              (fs3, Ok {| mouseStr := mouse; dateStr := dateS;
                          timeStr := timeS; saveFolder := saveFolder1 |})
          end
      end
  end.

(** Line 198: the name of trial [j]'s movie, relative to the working
    directory. *)
Definition movieName1 (ses : Session) (j : nat) : string :=
  mouseStr ses +:+ "_" +:+ dateStr ses +:+ "_bottom_" +:+ str j +:+ ".mp4".

(** ** The pipeline: data *)

(** A frame after [np.array(image.GetData(), dtype="uint8").reshape(..)]:
    the pixel bytes.  The pipeline never looks inside. *)
Definition NpImage : Type := list Z.

(** What the camera does while a [GetNextImage] call is waiting: a
    trigger arrives and a frame is delivered, nothing arrives for longer
    than the bounded timeout, or the device fails. *)
Inductive DeviceEvent :=
  | Trigger (img : NpImage)
  | Quiet
  | Fault.

Inductive Policy :=
  | Infinite
  | Bounded (ms : nat).

(** One completed [GetNextImage] call of a capture thread: the value of
    [k] at the call, the timeout it was given, what came back. *)
Record Call := {
  c_index : nat;
  c_policy : Policy;
  c_result : result NpImage
}.

(** The writer is a sink that records what is called on it. *)
Inductive SinkCall :=
  | writeFrame (img : NpImage)
  | close.

(** Program points of [camCapture]. *)
Inductive CapPC :=
  | C_NotStarted
  | C_Loop (k : nat)                      (* top of [while True] *)
  | C_Got (k : nat) (img : NpImage)       (* line 159, before [camQueue.put] *)
  | C_Done                                (* after [break] *)
  | C_Crashed (e : Exn).                  (* uncaught exception *)

(** Program points of [saveImage]. *)
Inductive SavePC :=
  | S_NotStarted
  | S_Get                                 (* [imageWriteQueue.get()] *)
  | S_Write (img : NpImage)               (* [writer.writeFrame(..)] *)
  | S_TaskDone                            (* [imageWriteQueue.task_done()] *)
  | S_Stopped                             (* after [break] *)
  | S_Crashed (e : Exn).

(** How the inner [for i] loop of a trial was left: by running out of
    [range(FRAMES_TO_RECORD)], or by the [break] of the [tEnd] branch. *)
Inductive Outcome := Completed | TimedOut.

(** The objects created by one iteration of [for j]: both queues, the
    writer, both threads.  [calls], [relayed] and [outcome] are history
    variables: they record what happened and are never read by a step. *)
Record Trial := mkTrial {
  t_name : string;
  cam1Queue : list NpImage;
  imageWriteQueue1 : list (option NpImage);
  unfinished_tasks : nat;
  writer1 : list SinkCall;
  cam1Thread : CapPC;
  save1Thread : SavePC;
  calls : list Call;
  relayed : list NpImage;
  outcome : option Outcome
}.

Definition new_trial (name : string) : Trial :=
  mkTrial name [] [] 0 [] C_NotStarted S_NotStarted [] [] None.

Definition set_cam1Queue (q : list NpImage) (t : Trial) : Trial :=
  mkTrial (t_name t) q (imageWriteQueue1 t) (unfinished_tasks t) (writer1 t)
          (cam1Thread t) (save1Thread t) (calls t) (relayed t) (outcome t).
Definition set_imageWriteQueue1 (q : list (option NpImage)) (t : Trial) : Trial :=
  mkTrial (t_name t) (cam1Queue t) q (unfinished_tasks t) (writer1 t)
          (cam1Thread t) (save1Thread t) (calls t) (relayed t) (outcome t).
Definition set_unfinished_tasks (n : nat) (t : Trial) : Trial :=
  mkTrial (t_name t) (cam1Queue t) (imageWriteQueue1 t) n (writer1 t)
          (cam1Thread t) (save1Thread t) (calls t) (relayed t) (outcome t).
Definition set_writer1 (w : list SinkCall) (t : Trial) : Trial :=
  mkTrial (t_name t) (cam1Queue t) (imageWriteQueue1 t) (unfinished_tasks t) w
          (cam1Thread t) (save1Thread t) (calls t) (relayed t) (outcome t).
Definition set_cam1Thread (c : CapPC) (t : Trial) : Trial :=
  mkTrial (t_name t) (cam1Queue t) (imageWriteQueue1 t) (unfinished_tasks t)
          (writer1 t) c (save1Thread t) (calls t) (relayed t) (outcome t).
Definition set_save1Thread (c : SavePC) (t : Trial) : Trial :=
  mkTrial (t_name t) (cam1Queue t) (imageWriteQueue1 t) (unfinished_tasks t)
          (writer1 t) (cam1Thread t) c (calls t) (relayed t) (outcome t).
Definition set_calls (l : list Call) (t : Trial) : Trial :=
  mkTrial (t_name t) (cam1Queue t) (imageWriteQueue1 t) (unfinished_tasks t)
          (writer1 t) (cam1Thread t) (save1Thread t) l (relayed t) (outcome t).
Definition set_relayed (l : list NpImage) (t : Trial) : Trial :=
  mkTrial (t_name t) (cam1Queue t) (imageWriteQueue1 t) (unfinished_tasks t)
          (writer1 t) (cam1Thread t) (save1Thread t) (calls t) l (outcome t).
Definition set_outcome (o : option Outcome) (t : Trial) : Trial :=
  mkTrial (t_name t) (cam1Queue t) (imageWriteQueue1 t) (unfinished_tasks t)
          (writer1 t) (cam1Thread t) (save1Thread t) (calls t) (relayed t) o.

(** [queue.Queue]: [put] appends (and counts an unfinished task), [get]
    takes the head. *)
Definition queue_put {A} (x : A) (q : list A) : list A := q ++ [x].

(** Program points of the main thread inside one iteration of [for j]. *)
Inductive TrialPC :=
  | P_StartSave                           (* line 206 *)
  | P_BeginAcq                            (* line 207 *)
  | P_StartCam                            (* line 208 *)
  | P_ResetEnd                            (* line 209 *)
  | P_ForI (i : nat)                      (* line 211, loop header *)
  | P_WhileEmpty (i : nat)                (* line 213 *)
  | P_Sleep (i : nat)                     (* lines 214-216 *)
  | P_IfEnd (i : nat)                     (* line 218 *)
  | P_EndAcq (i : nat)                    (* line 219 *)
  | P_Join (i : nat)                      (* line 220 *)
  | P_Close (i : nat)                     (* lines 221-222 *)
  | P_First (i : nat)                     (* lines 224-226 *)
  | P_Get (i : nat)                       (* line 228 *)
  | P_Put (i : nat) (img : NpImage)       (* line 231 *)
  | P_Display (i : nat) (img : NpImage).  (* lines 233-244 *)

(** Program points after the [try] statement. *)
Inductive ShutdownPC :=
  | D_EndAcq                              (* line 252 *)
  | D_Print                               (* lines 253-254 *)
  | D_Destroy                             (* line 255 *)
  | D_DeInit                              (* lines 258-261 *)
  | D_Release.                            (* lines 262-264 *)

Inductive MainPC :=
  | M_ForJ (j : nat)                      (* line 196, loop header *)
  | M_InTrial (j : nat) (p : TrialPC)
  | M_Except                              (* lines 248-250 *)
  | M_Shutdown (p : ShutdownPC)
  | M_Exited
  | M_Crashed (e : Exn).

(** Calls on the outside world made by the main thread, and what is
    printed, in order. *)
Inductive Effect :=
  | E_InitCam
  | E_Window
  | E_FFmpegWriter (name : string)
  | E_BeginAcquisition
  | E_EndAcquisition
  | E_WindowUpdate (n : nat)
  | E_WindowDestroy
  | E_DeInit
  | E_ReleaseInstance
  | E_Print (msg : string).

(** The shared store and the main thread.  [trials] holds, at position
    [j], the objects made by iteration [j] of [for j]; a thread keeps
    working on the objects it was started with. *)
Record State := mkState {
  fs : FileSystem;
  session : Session;
  device : list DeviceEvent;              (* what the camera will do next *)
  tEnd : option nat;                      (* the global; [None]: not bound *)
  tStart : bool;                          (* is [tStart] bound? *)
  main : MainPC;
  trials : list Trial;
  trace : list Effect
}.

Definition set_device (d : list DeviceEvent) (s : State) : State :=
  mkState (fs s) (session s) d (tEnd s) (tStart s) (main s) (trials s) (trace s).
Definition set_tEnd (v : option nat) (s : State) : State :=
  mkState (fs s) (session s) (device s) v (tStart s) (main s) (trials s) (trace s).
Definition set_tStart (b : bool) (s : State) : State :=
  mkState (fs s) (session s) (device s) (tEnd s) b (main s) (trials s) (trace s).
Definition set_main (m : MainPC) (s : State) : State :=
  mkState (fs s) (session s) (device s) (tEnd s) (tStart s) m (trials s) (trace s).
Definition set_trials (l : list Trial) (s : State) : State :=
  mkState (fs s) (session s) (device s) (tEnd s) (tStart s) (main s) l (trace s).
Definition emit (e : list Effect) (s : State) : State :=
  mkState (fs s) (session s) (device s) (tEnd s) (tStart s) (main s) (trials s)
          (trace s ++ e).

(** Replace the objects of trial [j]. *)
Definition put_trial (j : nat) (t : Trial) (s : State) : State :=
  set_trials (<[j := t]> (trials s)) s.

(** ** The pipeline: steps *)

(** [cam.GetNextImage(timeout)] against the next device event.  [None]:
    the call is still waiting (an infinite wait sits out a quiet
    period).  A timeout and a device failure are both raised as
    [PySpin.SpinnakerException]. *)
Definition GetNextImage (pol : Policy) (ev : DeviceEvent)
  : option (result NpImage) :=
  match ev, pol with
  | Trigger img, _ => Some (Ok img)
  | Quiet, Infinite => None
  | Quiet, Bounded _ => Some (Raised (SpinnakerException SPIN_TIMEOUT))
  | Fault, _ => Some (Raised (SpinnakerException SPIN_OTHER))
  end.

Section Machine.

Variable cfg : Config.

Definition log_call (k : nat) (pol : Policy) (r : result NpImage)
  (t : Trial) : Trial :=
  set_calls (calls t ++ [{| c_index := k; c_policy := pol; c_result := r |}])
            t.

(** Line 159-162, after a successful call: the frame is converted and
    held in [npImage]. *)
Definition got_image (j k : nat) (pol : Policy) (img : NpImage)
  (dev : list DeviceEvent) (t : Trial) (s : State) : State :=
  put_trial j (set_cam1Thread (C_Got k img) (log_call k pol (Ok img) t))
            (set_device dev s).

(** One atomic step of the [camCapture] thread of trial [j]. *)
Definition camCapture_step (j : nat) (s : State) : option State :=
  match trials s !! j with
  | None => None
  | Some t =>
      match cam1Thread t with
      | C_Loop k =>
          match device s with
          | [] => None
          | ev :: dev =>
              if (k =? 0)%nat then
                (* line 150: [cam.GetNextImage()], outside any [try] *)
                match GetNextImage Infinite ev with
                | None => Some (set_device dev s)
                | Some (Ok img) => Some (got_image j k Infinite img dev t s)
                | Some (Raised e) =>
                    Some (put_trial j
                            (set_cam1Thread (C_Crashed e)
                               (log_call k Infinite (Raised e) t))
                            (set_device dev s))
                end
              else
                (* lines 152-158: [cam.GetNextImage(CAM_TIMEOUT)] inside
                   [try], bare [except:] print, [tEnd = 1], [break] *)
                let pol := Bounded (CAM_TIMEOUT cfg) in
                match GetNextImage pol ev with
                | None => Some (set_device dev s)
                | Some (Ok img) => Some (got_image j k pol img dev t s)
                | Some (Raised e) =>
                    Some (put_trial j
                            (set_cam1Thread C_Done
                               (log_call k pol (Raised e) t))
                            (emit [E_Print (str k +:+ " frames captured")]
                               (set_tEnd (Some 1) (set_device dev s))))
                end
          end
      | C_Got k img =>
          (* [camQueue.put(npImage)], [image.Release()], [k = k + 1] *)
          Some (put_trial j
                  (set_cam1Thread (C_Loop (S k))
                     (set_cam1Queue (queue_put img (cam1Queue t)) t))
                  s)
      | _ => None
      end
  end.

(** One atomic step of [saveImage] on the queue and writer it was given:
    the thread touches nothing else. *)
Definition saveImage_trial (t : Trial) : option Trial :=
  match save1Thread t with
  | S_Get =>
      match imageWriteQueue1 t with
      | [] => None
      | None :: q => Some (set_save1Thread S_Stopped (set_imageWriteQueue1 q t))
      | Some img :: q =>
          Some (set_save1Thread (S_Write img) (set_imageWriteQueue1 q t))
      end
  | S_Write img =>
      Some (set_save1Thread S_TaskDone
              (set_writer1 (writer1 t ++ [writeFrame img]) t))
  | S_TaskDone =>
      match unfinished_tasks t with
      | O => Some (set_save1Thread (S_Crashed ValueError) t)
      | S n => Some (set_save1Thread S_Get (set_unfinished_tasks n t))
      end
  | _ => None
  end.

(** One atomic step of the [saveImage] thread of trial [j]. *)
Definition saveImage_step (j : nat) (s : State) : option State :=
  match trials s !! j with
  | None => None
  | Some t =>
      match saveImage_trial t with
      | None => None
      | Some t' => Some (put_trial j t' s)
      end
  end.

(** What lines 233-244 show and print after frame [i] was relayed. *)
Definition display_effects (i : nat) : list Effect :=
  (if (S i mod WINDOW_UPDATE_EVERY =? 0)%nat then [E_WindowUpdate (S i)] else [])
  ++ (if (S i =? FRAMES_TO_RECORD cfg)%nat
      then [E_Print ("Complete " +:+ str (S i) +:+ " frames captured")]
      else []).

(** One atomic step of the main thread inside the body of [for j]. *)
Definition trial_step (j : nat) (p : TrialPC) (t : Trial) (s : State)
  : option State :=
  let goto p' s' := Some (set_main (M_InTrial j p') s') in
  match p with
  | P_StartSave => goto P_BeginAcq (put_trial j (set_save1Thread S_Get t) s)
  | P_BeginAcq => goto P_StartCam (emit [E_BeginAcquisition] s)
  | P_StartCam => goto P_ResetEnd (put_trial j (set_cam1Thread (C_Loop 0) t) s)
  | P_ResetEnd => goto (P_ForI 0) (set_tEnd (Some 0) s)
  | P_ForI i =>
      if (i <? FRAMES_TO_RECORD cfg)%nat then goto (P_WhileEmpty i) s
      else Some (set_main (M_ForJ (S j))
                   (put_trial j (set_outcome (Some Completed) t) s))
  | P_WhileEmpty i =>
      match cam1Queue t with
      | [] => goto (P_Sleep i) s
      | _ :: _ => goto (P_IfEnd i) s
      end
  | P_Sleep i =>
      match tEnd s with
      | None => Some (set_main (M_Crashed NameError) s)
      | Some v => if (v =? 1)%nat then goto (P_IfEnd i) s
                  else goto (P_WhileEmpty i) s
      end
  | P_IfEnd i =>
      match tEnd s with
      | None => Some (set_main (M_Crashed NameError) s)
      | Some v => if (v =? 1)%nat then goto (P_EndAcq i) s
                  else goto (P_First i) s
      end
  | P_EndAcq i => goto (P_Join i) (emit [E_EndAcquisition] s)
  | P_Join i =>
      match unfinished_tasks t with
      | O => goto (P_Close i) s
      | S _ => None
      end
  | P_Close i =>
      Some (set_main (M_ForJ (S j))
              (put_trial j
                 (set_outcome (Some TimedOut)
                    (set_writer1 (writer1 t ++ [close]) t)) s))
  | P_First i =>
      if (i =? 0)%nat
      then goto (P_Get i) (emit [E_Print "Capture begins"] (set_tStart true s))
      else goto (P_Get i) s
  | P_Get i =>
      match cam1Queue t with
      | [] => None
      | img :: q => goto (P_Put i img) (put_trial j (set_cam1Queue q t) s)
      end
  | P_Put i img =>
      goto (P_Display i img)
           (put_trial j
              (set_relayed (relayed t ++ [img])
                 (set_unfinished_tasks (S (unfinished_tasks t))
                    (set_imageWriteQueue1
                       (queue_put (Some img) (imageWriteQueue1 t)) t))) s)
  | P_Display i img => goto (P_ForI (S i)) (emit (display_effects i) s)
  end.

(** One atomic step of the main thread after the [try] statement. *)
Definition shutdown_step (p : ShutdownPC) (s : State) : State :=
  match p with
  | D_EndAcq => set_main (M_Shutdown D_Print) (emit [E_EndAcquisition] s)
  | D_Print =>
      if tStart s
      then set_main (M_Shutdown D_Destroy) (emit [E_Print "File written"] s)
      else set_main (M_Crashed NameError) s
  | D_Destroy => set_main (M_Shutdown D_DeInit) (emit [E_WindowDestroy] s)
  | D_DeInit => set_main (M_Shutdown D_Release) (emit [E_DeInit] s)
  | D_Release =>
      set_main M_Exited (emit [E_ReleaseInstance; E_Print "Done!"] s)
  end.

(** One atomic step of the main thread. *)
Definition main_step (s : State) : option State :=
  match main s with
  | M_ForJ j =>
      if (j <? TRIALS_TO_RECORD cfg)%nat then
        let name := movieName1 (session s) j in
        Some (set_main (M_InTrial j P_StartSave)
                (emit [E_FFmpegWriter name]
                   (set_trials (trials s ++ [new_trial name]) s)))
      else Some (set_main (M_Shutdown D_EndAcq) s)
  | M_InTrial j p =>
      match trials s !! j with
      | None => None
      | Some t => trial_step j p t s
      end
  | M_Except => Some (set_main (M_Shutdown D_EndAcq) s)
  | M_Shutdown p => Some (shutdown_step p s)
  | M_Exited | M_Crashed _ => None
  end.

(** Ctrl-C raises [KeyboardInterrupt] in the main thread: caught inside
    the [try], uncaught after it. *)
Definition interrupt_step (s : State) : option State :=
  match main s with
  | M_ForJ _ | M_InTrial _ _ => Some (set_main M_Except s)
  | M_Except | M_Shutdown _ => Some (set_main (M_Crashed KeyboardInterrupt) s)
  | M_Exited | M_Crashed _ => None
  end.

(** Ctrl-C that arrives while the main thread is inside
    [imageWriteQueue1.put] (line 231).  [Queue.put] appends the item
    and then counts it ([self._put(item)], [self.unfinished_tasks += 1])
    under the lock of the queue; the lock keeps the other threads out,
    but [KeyboardInterrupt] can be raised between the two statements
    and then leaves the frame queued and not counted.  (An interrupt
    before the first or after the second is the interrupt before or
    after the whole call.)  The interrupted call also skips its
    [notify]: a save thread that sleeps in [get] then sleeps on in the
    script, while here it may still take the frame.  The model has every
    run of the script, and these besides. *)
Definition interrupt_in_put_step (s : State) : option State :=
  match main s with
  | M_InTrial j (P_Put _ img) =>
      match trials s !! j with
      | None => None
      | Some t =>
          Some (set_main M_Except
                  (put_trial j
                     (set_relayed (relayed t ++ [img])
                        (set_imageWriteQueue1
                           (queue_put (Some img) (imageWriteQueue1 t)) t))
                     s))
      end
  | _ => None
  end.

(** A schedule names, step by step, who moves. *)
Inductive Event :=
  | Main
  | Cam (j : nat)
  | Save (j : nat)
  | CtrlC
  | CtrlCInPut.

Definition step (e : Event) (s : State) : option State :=
  match e with
  | Main => main_step s
  | Cam j => camCapture_step j s
  | Save j => saveImage_step j s
  | CtrlC => interrupt_step s
  | CtrlCInPut => interrupt_in_put_step s
  end.

Fixpoint exec (evs : list Event) (s : State) : option State :=
  match evs with
  | [] => Some s
  | e :: evs' =>
      match step e s with
      | Some s' => exec evs' s'
      | None => None
      end
  end.

End Machine.

(** ** The whole script *)

(** State at line 193, once folders, camera and window are set up. *)
Definition init_state (fs : FileSystem) (ses : Session)
  (dev : list DeviceEvent) : State :=
  mkState fs ses dev None false (M_ForJ 0) [] [E_InitCam; E_Window].

(** The script up to line 193 either dies with an unhandled exception,
    leaving a file system and the effects so far, or hands over to the
    main loop. *)
Inductive Boot :=
  | Aborted (e : Exn) (fs : FileSystem) (tr : list Effect)
  | Running (s : State).

Definition boot (fs : FileSystem) (now : datetime) (mouse : string)
  (dev : list DeviceEvent) : Boot :=
  match setup_folders fs now mouse with
  | (fs', Raised e) => Aborted e fs' []
  | (fs', Ok ses) => Running (init_state fs' ses dev)
  end.

(** States the script can be in: some schedule leads there from a
    successful start. *)
Definition Reachable (cfg : Config) (s : State) : Prop :=
  ∃ fs now mouse dev s0 evs,
    boot fs now mouse dev = Running s0 ∧ exec cfg evs s0 = Some s.

(** ** Observations *)

(** Frames handed to the writer, in order. *)
Definition written_frame (c : SinkCall) : option NpImage :=
  match c with
  | writeFrame img => Some img
  | close => None
  end.
Definition written (t : Trial) : list NpImage := omap written_frame (writer1 t).

(** Frames the capture thread got, each with the value of [k] it was
    retrieved at. *)
Definition captured_frame (c : Call) : option (nat * NpImage) :=
  match c_result c with
  | Ok img => Some (c_index c, img)
  | Raised _ => None
  end.
Definition captured (t : Trial) : list (nat * NpImage) :=
  omap captured_frame (calls t).
Definition retrieved (t : Trial) : list NpImage := (captured t).*2.

(** Frames in flight: in a local variable of a thread, or queued. *)
Definition cap_held (c : CapPC) : list NpImage :=
  match c with C_Got _ img => [img] | _ => [] end.
Definition save_held (c : SavePC) : list NpImage :=
  match c with S_Write img => [img] | _ => [] end.
Definition save_busy (c : SavePC) : nat :=
  match c with S_Write _ | S_TaskDone => 1 | _ => 0 end.
Definition pending (t : Trial) : list NpImage := omap id (imageWriteQueue1 t).

(** Where the main thread is in trial [idx], if it is in that trial. *)
Definition view (m : MainPC) (idx : nat) : option TrialPC :=
  match m with
  | M_InTrial j p => if decide (j = idx) then Some p else None
  | _ => None
  end.
Definition main_held (v : option TrialPC) : list NpImage :=
  match v with Some (P_Put _ img) => [img] | _ => [] end.

Close Scope string_scope.

(** ** Invariants of the reachable states *)

Section Invariants.

Variable cfg : Config.

(** What the main thread's position in a trial says about the trial. *)
Definition main_pc_inv (p : TrialPC) (t : Trial) : Prop :=
  outcome t = None ∧
  (save1Thread t = S_NotStarted → p = P_StartSave) ∧
  match p with
  | P_StartSave =>
      relayed t = [] ∧ save1Thread t = S_NotStarted
      ∧ cam1Thread t = C_NotStarted
  | P_BeginAcq | P_StartCam => relayed t = [] ∧ cam1Thread t = C_NotStarted
  | P_ResetEnd => relayed t = []
  | P_ForI i => length (relayed t) = i ∧ i ≤ FRAMES_TO_RECORD cfg
  | P_WhileEmpty i | P_Sleep i | P_IfEnd i | P_EndAcq i | P_Join i
  | P_First i | P_Get i | P_Put i _ =>
      length (relayed t) = i ∧ i < FRAMES_TO_RECORD cfg
  | P_Close i =>
      length (relayed t) = i ∧ i < FRAMES_TO_RECORD cfg
      ∧ unfinished_tasks t = 0
  | P_Display i _ => length (relayed t) = S i ∧ i < FRAMES_TO_RECORD cfg
  end.

(** The timeout that line 150 or line 153 gives to the call at index
    [n]. *)
Definition policy_at (n : nat) : Policy :=
  match n with
  | 0 => Infinite
  | S _ => Bounded (CAM_TIMEOUT cfg)
  end.

(** What the capture thread's position says about its call log. *)
Definition cap_pc_inv (t : Trial) : Prop :=
  match cam1Thread t with
  | C_NotStarted => calls t = [] ∧ cam1Queue t = []
  | C_Loop k => length (calls t) = k ∧ length (captured t) = k
  | C_Got k _ => length (calls t) = S k ∧ length (captured t) = S k
  | C_Done | C_Crashed _ => True
  end.

(** The main thread is still working on the trial, or has ended it
    itself: no Ctrl-C has cut the trial short. *)
Definition intact (v : option TrialPC) (t : Trial) : Prop :=
  is_Some v ∨ outcome t ≠ None.

(** The [saveImage] thread never leaves its loop by the [break]; it can
    only die, of the [ValueError] of [task_done], and only in a trial
    that Ctrl-C has cut short, after it has emptied the queue.  The
    count of unfinished tasks is never more than one short. *)
Definition save_pc_inv (v : option TrialPC) (t : Trial) : Prop :=
  match save1Thread t with
  | S_Stopped => False
  | S_Crashed e =>
      e = ValueError ∧ ¬ intact v t
      ∧ imageWriteQueue1 t = [] ∧ unfinished_tasks t = 0
  | c =>
      unfinished_tasks t ≤ length (imageWriteQueue1 t) + save_busy c
      ∧ length (imageWriteQueue1 t) + save_busy c ≤ S (unfinished_tasks t)
  end.

(** What the recorded outcome says about the writer. *)
Definition outcome_inv (v : option TrialPC) (t : Trial) : Prop :=
  match outcome t with
  | None => writer1 t = writeFrame <$> written t
  | Some Completed =>
      writer1 t = writeFrame <$> written t
      ∧ length (relayed t) = FRAMES_TO_RECORD cfg ∧ v = None
  | Some TimedOut =>
      writer1 t = (writeFrame <$> relayed t) ++ [close]
      ∧ imageWriteQueue1 t = [] ∧ save_busy (save1Thread t) = 0 ∧ v = None
  end.

Record trial_inv (v : option TrialPC) (t : Trial) : Prop := {
  inv_frames_only : Forall is_Some (imageWriteQueue1 t);
  inv_write_side :
    relayed t = written t ++ save_held (save1Thread t) ++ pending t;
  inv_unfinished :
    intact v t →
    unfinished_tasks t
    = length (imageWriteQueue1 t) + save_busy (save1Thread t);
  inv_cam_side :
    ∃ lost, retrieved t
            = relayed t ++ main_held v ++ lost ++ cam1Queue t
              ++ cap_held (cam1Thread t)
            ∧ (is_Some v → lost = []);
  inv_calls_index :
    ∀ n c, calls t !! n = Some c →
           c_index c = n ∧ c_policy c = policy_at n;
  inv_captured_index : (captured t).*1 = seq 0 (length (captured t));
  inv_cap_pc : cap_pc_inv t;
  inv_main_pc : match v with Some p => main_pc_inv p t | None => True end;
  inv_outcome : outcome_inv v t;
  inv_save_pc : save_pc_inv v t;
  inv_started : save1Thread t = S_NotStarted → relayed t = []
}.

Definition len_ok (m : MainPC) (n : nat) : Prop :=
  match m with
  | M_ForJ j => n = j
  | M_InTrial j _ => n = S j
  | _ => True
  end.

Record inv_core (m : MainPC) (trs : list Trial) : Prop := {
  inv_len : len_ok m (length trs);
  inv_trials : ∀ idx t, trs !! idx = Some t → trial_inv (view m idx) t
}.

Definition inv (s : State) : Prop := inv_core (main s) (trials s).

End Invariants.

(** ** Running one thread, and looking at one trial *)

(** [n] consecutive steps of a [saveImage] thread on its own objects. *)
Fixpoint save_run (n : nat) (t : Trial) : option Trial :=
  match n with
  | O => Some t
  | S n' =>
      match saveImage_trial t with
      | None => None
      | Some t' => save_run n' t'
      end
  end.


(** What a save thread leaves alone: everything on the capture side. *)
Definition same_capture_side (t t' : Trial) : Prop :=
  calls t' = calls t ∧ relayed t' = relayed t ∧ outcome t' = outcome t
  ∧ cam1Queue t' = cam1Queue t ∧ cam1Thread t' = cam1Thread t.

(** The first trial between two frames when every thread has kept up:
    [i] frames retrieved, relayed and written, both queues empty, the
    main thread at the head of [for i], the camera still to play [dev]. *)
Definition synced (i : nat) (dev : list DeviceEvent) (s : State) : Prop :=
  ∃ fs ses b name w cs rel tr,
    s = mkState fs ses dev (Some 0) b (M_InTrial 0 (P_ForI i))
          [mkTrial name [] [] 0 w (C_Loop i) S_Get cs rel None] tr
    ∧ length (omap captured_frame cs) = i
    ∧ length (omap written_frame w) = i
    ∧ close ∉ w.

(** ** Concrete sessions and schedules *)

Definition lab_fs : FileSystem :=
  {| entries := [(["D:"%string], Directory);
                 (["D:"%string; "video"%string], Directory);
                 (["D:"%string; "video"%string; "bottom"%string], Directory)];
     cwd := "C:/"%string; name_max := 255 |}.



Definition morning : datetime :=
  {| year := 2020; month := 1; day := 1;
     hour := 9; minute := 30; second := 59 |}.

Definition same_day_later : datetime :=
  {| year := 2020; month := 1; day := 1;
     hour := 10; minute := 0; second := 0 |}.

Definition frame (n : nat) : NpImage := [Z.of_nat n].

(** [n] triggers, each delivering its own frame. *)
Definition triggers (n : nat) : list DeviceEvent :=
  (λ i, Trigger (frame i)) <$> seq 0 n.

(** Lines 196-209 of trial [j]: writer, queues, threads, [tEnd = 0]. *)
Definition start_trial : list Event := [Main; Main; Main; Main; Main].

(** The capture thread retrieves a frame and queues it. *)
Definition capture_one (j : nat) : list Event := [Cam j; Cam j].

(** Lines 211-244 for one frame that is already queued. *)
Definition relay_one : list Event := [Main; Main; Main; Main; Main; Main; Main].

(** The save thread takes, writes and acknowledges one frame. *)
Definition save_one (j : nat) : list Event := [Save j; Save j; Save j].

(** Lines 211-222 when the queue is empty and [tEnd] is 1. *)
Definition finish_on_tEnd : list Event := [Main; Main; Main; Main; Main; Main; Main].

(** One frame goes all the way from the camera to the writer. *)
Definition frame_round (j : nat) : list Event :=
  capture_one j ++ relay_one ++ save_one j.

(** One frame, then the trigger source goes quiet, every thread keeping
    up: the frame is written before the trial is closed. *)
Definition orderly_timeout : list Event :=
  start_trial ++ frame_round 0 ++ [Cam 0] ++ finish_on_tEnd.

(** One frame, then quiet, but the main thread does not run between
    line 209 and the moment the capture thread gives up. *)
Definition late_controller : list Event :=
  start_trial ++ capture_one 0 ++ [Cam 0]
  ++ [Main; Main; Main; Main; Main; Main].

(** Ctrl-C while the first trial still waits for its first trigger,
    then the main thread runs on. *)
Definition ctrl_c_while_waiting : list Event :=
  start_trial ++ [Main; Main; Main] ++ [CtrlC] ++ [Main; Main; Main].

(** Ctrl-C after the first frame of the first trial has been written,
    then the main thread runs to the end of the script. *)
Definition ctrl_c_after_first_frame : list Event :=
  start_trial ++ frame_round 0 ++ [CtrlC]
  ++ [Main; Main; Main; Main; Main; Main].

(** Two frames; Ctrl-C lands inside the [put] of the second while the
    save thread is still writing the first, and the save thread then
    runs on: it writes the first frame, acknowledges it, takes and
    writes the second and acknowledges that one too. *)
Definition ctrl_c_inside_put : list Event :=
  start_trial ++ capture_one 0 ++ relay_one ++ [Save 0]
  ++ capture_one 0 ++ [Main; Main; Main; Main; Main] ++ [CtrlCInPut]
  ++ [Save 0; Save 0; Save 0; Save 0; Save 0].

(** The first retrieval of the first trial fails; the main thread then
    polls three times. *)
Definition first_retrieval_fails : list Event :=
  start_trial ++ [Cam 0] ++ [Main; Main; Main].

(** A full trial of [n] frames with every thread keeping up, after which
    the capture thread retrieves one more frame. *)
Definition full_trial_and_one_more (n : nat) : list Event :=
  start_trial ++ mjoin (replicate n (frame_round 0)) ++ [Main]
  ++ capture_one 0.

Definition small_config : Config :=
  {| FRAMES_TO_RECORD := 2; TRIALS_TO_RECORD := 2; CAM_TIMEOUT := 100 |}.

(** ** Further invariants, and runs with any number of frames *)

(** Line 76: the folder the session works in. *)
Definition session_folder (now : datetime) (mouse : string) : string :=
  (SAVE_FOLDER_ROOT +:+ "/" +:+ mouse +:+ "/" +:+ strftime_Ymd now)%string.

(** The capture queue of trial [j] holds a frame. *)
Definition queue_ready (j : nat) (trs : list Trial) : Prop :=
  ∃ t, trs !! j = Some t ∧ cam1Queue t ≠ [].

(** What the main thread's position says about the two globals it
    reads, [tEnd] and [tStart], and about the queue it takes from. *)
Definition main_ctl (s : State) : Prop :=
  match main s with
  | M_ForJ _ | M_Except | M_Shutdown D_EndAcq | M_Shutdown D_Print => True
  | M_InTrial j p =>
      match p with
      | P_StartSave | P_BeginAcq | P_StartCam | P_ResetEnd => True
      | P_ForI _ | P_WhileEmpty _ | P_Sleep _ | P_EndAcq _ | P_Join _
      | P_Close _ => tEnd s ≠ None
      | P_IfEnd _ =>
          tEnd s ≠ None ∧ (tEnd s = Some 1 ∨ queue_ready j (trials s))
      | P_First _ => tEnd s ≠ None ∧ queue_ready j (trials s)
      | P_Get _ =>
          tEnd s ≠ None ∧ queue_ready j (trials s) ∧ tStart s = true
      | P_Put _ _ | P_Display _ _ => tEnd s ≠ None ∧ tStart s = true
      end
  | M_Shutdown D_Destroy | M_Shutdown D_DeInit | M_Shutdown D_Release
  | M_Exited => tStart s = true
  | M_Crashed e =>
      (e = NameError ∧ tStart s = false) ∨ e = KeyboardInterrupt
  end.

(** [tEnd] holds nothing but what lines 156 and 209 assign, and as long
    as [tStart] is not bound no frame has been relayed. *)
Record ctl_ok (s : State) : Prop := {
  ctl_tEnd : tEnd s = None ∨ tEnd s = Some 0 ∨ tEnd s = Some 1;
  ctl_main : main_ctl s;
  ctl_tStart : tStart s = false → Forall (λ t, relayed t = []) (trials s)
}.

(** The names given to [skvideo.io.FFmpegWriter], in the order of the
    calls. *)
Definition opened_file (e : Effect) : option string :=
  match e with
  | E_FFmpegWriter name => Some name
  | _ => None
  end.
Definition opened (tr : list Effect) : list string := omap opened_file tr.

(** Every trial so far opened its writer on the name of line 198. *)
Record names_ok (cfg : Config) (s : State) : Prop := {
  names_count : length (trials s) ≤ TRIALS_TO_RECORD cfg;
  names_trials :
    ∀ j t, trials s !! j = Some t → t_name t = movieName1 (session s) j;
  names_opened :
    opened (trace s) = movieName1 (session s) <$> seq 0 (length (trials s))
}.

(** What the window is asked to show. *)
Definition shown_ok (cfg : Config) (e : Effect) : Prop :=
  match e with
  | E_WindowUpdate n =>
      0 < n ≤ FRAMES_TO_RECORD cfg ∧ n mod WINDOW_UPDATE_EVERY = 0
  | _ => True
  end.

(** The call that ends a capture thread: the one at [k], which raised. *)
Definition failed_call (cfg : Config) (k : nat) (e : Exn) : Call :=
  {| c_index := k; c_policy := policy_at cfg k; c_result := Raised e |}.

(** How a capture thread can have ended. *)
Definition cap_end_ok (cfg : Config) (t : Trial) : Prop :=
  match cam1Thread t with
  | C_Crashed e => calls t = [failed_call cfg 0 e]
  | C_Done =>
      ∃ cs e, calls t = cs ++ [failed_call cfg (length cs) e]
              ∧ cs ≠ [] ∧ length (omap captured_frame cs) = length cs
  | _ => True
  end.

(** What stays true of a trial for the rest of the session. *)
Record closed_ok (cfg : Config) (t : Trial) : Prop := {
  closed_count : length (relayed t) ≤ FRAMES_TO_RECORD cfg;
  closed_timeout :
    outcome t = Some TimedOut → length (relayed t) < FRAMES_TO_RECORD cfg;
  closed_cam_side :
    outcome t ≠ None →
    retrieved t = relayed t ++ cam1Queue t ++ cap_held (cam1Thread t);
  closed_cap_end : cap_end_ok cfg t
}.

(** A capture thread that has left [camCapture]. *)
Definition cap_over (c : CapPC) : Prop :=
  match c with
  | C_Done | C_Crashed _ => True
  | _ => False
  end.

(** The main thread is in the polling loop of lines 213-216 for frame
    [i] of trial [j], [tEnd] is 0, the queue it polls is empty and no
    capture thread is left to fill it or to set [tEnd]. *)
Record polling (j i : nat) (s : State) : Prop := {
  poll_main :
    main s = M_InTrial j (P_WhileEmpty i) ∨ main s = M_InTrial j (P_Sleep i);
  poll_tEnd : tEnd s = Some 0;
  poll_queue : ∃ t, trials s !! j = Some t ∧ cam1Queue t = [];
  poll_threads : Forall (λ t, cap_over (cam1Thread t)) (trials s)
}.

(** The first trial between two frames when every thread has kept up,
    with the frames themselves: [imgs] were retrieved, relayed and
    written, in this order. *)
Definition kept_up (imgs : list NpImage) (dev : list DeviceEvent)
  (s : State) : Prop :=
  ∃ fs ses b name w cs rel tr i,
    s = mkState fs ses dev (Some 0) b (M_InTrial 0 (P_ForI i))
          [mkTrial name [] [] 0 w (C_Loop i) S_Get cs rel None] tr
    ∧ i = length imgs ∧ w = writeFrame <$> imgs ∧ rel = imgs
    ∧ (omap captured_frame cs).*2 = imgs.

(** A trial of [n] frames with every thread keeping up, ended by the
    timeout of the capture thread. *)
Definition orderly_trial (n : nat) : list Event :=
  start_trial ++ mjoin (replicate n (frame_round 0)) ++ [Cam 0]
  ++ finish_on_tEnd.

(** A trial that runs to the target count, after which the next trial
    is set up, the capture thread of the finished trial times out, and
    the main thread runs on. *)
Definition full_trial_then_quiet (n : nat) : list Event :=
  start_trial ++ mjoin (replicate n (frame_round 0)) ++ [Main]
  ++ start_trial ++ [Cam 0] ++ finish_on_tEnd.

(** Is the camera acquiring after the calls in [tr]?  Only the main
    thread starts and stops acquisition. *)
Definition acquiring_after (b : bool) (e : Effect) : bool :=
  match e with
  | E_BeginAcquisition => true
  | E_EndAcquisition => false
  | _ => b
  end.
Definition acquiring (tr : list Effect) : bool := foldl acquiring_after false tr.

(** Did the trial before trial [j] run to the target count? *)
Definition completed_before (j : nat) (trs : list Trial) : bool :=
  match j with
  | 0 => false
  | S j' =>
      match trs !! j' with
      | Some t => match outcome t with Some Completed => true | _ => false end
      | None => false
      end
  end.

(** Where the main thread is says whether the camera is acquiring. *)
Definition acq_ok (s : State) : Prop :=
  match main s with
  | M_ForJ j => acquiring (trace s) = completed_before j (trials s)
  | M_InTrial j p =>
      match p with
      | P_StartSave | P_BeginAcq =>
          acquiring (trace s) = completed_before j (trials s)
      | P_Join _ | P_Close _ => acquiring (trace s) = false
      | _ => acquiring (trace s) = true
      end
  | _ => True
  end.

(** The calls that give back the window and the camera, in the order
    they were made. *)
Definition is_cleanup (e : Effect) : bool :=
  match e with
  | E_WindowDestroy | E_DeInit | E_ReleaseInstance => true
  | _ => false
  end.
Definition cleanup (tr : list Effect) : list Effect := filter is_cleanup tr.

(** Where the main thread is says which of them were made. *)
Definition cleanup_ok (s : State) : Prop :=
  match main s with
  | M_Shutdown D_DeInit => cleanup (trace s) = [E_WindowDestroy]
  | M_Shutdown D_Release => cleanup (trace s) = [E_WindowDestroy; E_DeInit]
  | M_Exited =>
      cleanup (trace s) = [E_WindowDestroy; E_DeInit; E_ReleaseInstance]
  | M_Crashed NameError => cleanup (trace s) = []
  | M_Crashed _ => cleanup (trace s) `prefix_of` [E_WindowDestroy; E_DeInit]
  | _ => cleanup (trace s) = []
  end.

(** The capture thread of the first trial retrieves a frame, queues it
    and times out while the main thread is held up between line 208 and
    line 209; the main thread then runs on, the save thread writes the
    frame, and the main thread polls for the second frame. *)
Definition reset_after_timeout : list Event :=
  [Main; Main; Main; Main] ++ capture_one 0 ++ [Cam 0] ++ [Main]
  ++ relay_one ++ save_one 0 ++ [Main; Main].

(** * Proofs *)

(** ** Every step preserves the invariants *)

Section Preservation.
Variable cfg : Config.

Lemma trial_inv_drop_view v t : trial_inv cfg v t → trial_inv cfg None t.
Proof.
  intros [H1 H2 H3 [lost [H4 H4']] H5 H6 H7 H8 H9 H10 H11].
  assert (intact None t → intact v t) as Hin.
  { intros [[? ?]|?]; [discriminate|by right]. }
  split; auto.
  - exists (main_held v ++ lost). split.
    + rewrite H4. simpl. by rewrite <- !app_assoc.
    + intros [? ?]; discriminate.
  - unfold outcome_inv in *. destruct (outcome t) as [[]|]; intuition.
  - unfold save_pc_inv in *. destruct (save1Thread t); intuition.
Qed.

Lemma intact_view p t : intact (Some p) t.
Proof. left. by eexists. Qed.

Lemma view_none m idx :
  match m with M_InTrial _ _ => False | _ => True end → view m idx = None.
Proof. by destruct m. Qed.

Lemma view_other j p idx : idx ≠ j → view (M_InTrial j p) idx = None.
Proof. intros. simpl. case_decide; congruence. Qed.

Lemma view_same j p : view (M_InTrial j p) j = Some p.
Proof. simpl. case_decide; congruence. Qed.

#[local] Arguments view : simpl never.

Lemma inv_core_update m m' trs j t' :
  inv_core cfg m trs → j < length trs →
  len_ok m' (length trs) →
  (∀ idx, idx ≠ j → view m' idx = view m idx ∨ view m' idx = None) →
  trial_inv cfg (view m' j) t' →
  inv_core cfg m' (<[j:=t']> trs).
Proof.
  intros [Hl Ht] Hj Hl' Hv Ht'. split.
  - by rewrite length_insert.
  - intros idx t Hidx. destruct (decide (idx = j)) as [->|Hne].
    + rewrite list_lookup_insert_eq in Hidx by done. by simplify_eq.
    + rewrite list_lookup_insert_ne in Hidx by done.
      destruct (Hv idx Hne) as [-> | ->]; [by apply Ht|].
      eapply trial_inv_drop_view, Ht, Hidx.
Qed.

Lemma inv_core_pc m m' trs :
  inv_core cfg m trs → len_ok m' (length trs) →
  (∀ idx, view m' idx = None) →
  inv_core cfg m' trs.
Proof.
  intros [Hl Ht] Hl' Hv. split; [done|].
  intros idx t Hidx. rewrite Hv. eapply trial_inv_drop_view, Ht, Hidx.
Qed.


Lemma inv_core_thread m trs j t t' :
  inv_core cfg m trs → trs !! j = Some t →
  (trial_inv cfg (view m j) t → trial_inv cfg (view m j) t') →
  inv_core cfg m (<[j:=t']> trs).
Proof.
  intros Hinv Hj Ht. apply (inv_core_update m).
  - done.
  - by eapply lookup_lt_Some.
  - by destruct Hinv.
  - auto.
  - apply Ht. by destruct Hinv as [_ H]; apply H.
Qed.

Ltac inv_open H :=
  destruct H as [Hq Hw Hu [lost [Hc Hlost]] Hci Hcap Hcp Hmp Ho Hsp Hst];
  unfold retrieved in *.

Lemma captured_log_ok c k pol img t :
  captured (set_cam1Thread c (log_call k pol (Ok img) t))
  = captured t ++ [(k, img)].
Proof. unfold captured. simpl. by rewrite omap_app. Qed.

Lemma captured_log_raised c k pol e t :
  captured (set_cam1Thread c (log_call k pol (Raised e) t)) = captured t.
Proof. unfold captured. simpl. rewrite omap_app. simpl. by rewrite app_nil_r. Qed.

Lemma calls_index_snoc (l : list Call) k pol r :
  length l = k → pol = policy_at cfg k →
  (∀ n c, l !! n = Some c → c_index c = n ∧ c_policy c = policy_at cfg n) →
  ∀ n c, (l ++ [{| c_index := k; c_policy := pol; c_result := r |}]) !! n
         = Some c →
         c_index c = n ∧ c_policy c = policy_at cfg n.
Proof.
  intros Hk Hpol Hl n c [Hn | [Hle Hn]]%lookup_app_Some; [by apply Hl|].
  apply list_lookup_singleton_Some in Hn as [Hn <-]. simpl.
  assert (n = k) as -> by lia. done.
Qed.

Lemma index_snoc (l : list (nat * NpImage)) k img :
  length l = k → l.*1 = seq 0 (length l) →
  (l ++ [(k, img)]).*1 = seq 0 (length (l ++ [(k, img)])).
Proof.
  intros Hk Hl. rewrite fmap_app, length_app, seq_app, Hl, Hk. done.
Qed.

Ltac main_pc_tac v :=
  destruct v as [[]|]; unfold main_pc_inv in *; simpl in *;
  intuition (congruence || lia).

Lemma cam_retrieved_inv v t k pol img :
  cam1Thread t = C_Loop k → pol = policy_at cfg k →
  trial_inv cfg v t →
  trial_inv cfg v (set_cam1Thread (C_Got k img) (log_call k pol (Ok img) t)).
Proof.
  intros Hpc Hpol H. inv_open H.
  unfold cap_pc_inv in Hcp. rewrite Hpc in Hcp. destruct Hcp as [Hk1 Hk2].
  split; [done|done|done| | | | | |done|done|done].
  - exists lost. split; [|done]. unfold retrieved.
    rewrite captured_log_ok, fmap_app, Hc, Hpc.
    simpl. by rewrite !app_nil_r, <- !app_assoc.
  - by apply calls_index_snoc.
  - rewrite captured_log_ok. by apply index_snoc.
  - unfold cap_pc_inv. rewrite captured_log_ok. simpl.
    rewrite !length_app. simpl. lia.
  - main_pc_tac v.
Qed.

Lemma cam_raised_inv v t k pol e c :
  cam1Thread t = C_Loop k → pol = policy_at cfg k →
  c = C_Done ∨ c = C_Crashed e →
  trial_inv cfg v t →
  trial_inv cfg v (set_cam1Thread c (log_call k pol (Raised e) t)).
Proof.
  intros Hpc Hpol Hcase H. inv_open H.
  unfold cap_pc_inv in Hcp. rewrite Hpc in Hcp. destruct Hcp as [Hk1 Hk2].
  split; [done|done|done| | | | | |done|done|done].
  - exists lost. split; [|done]. unfold retrieved.
    rewrite captured_log_raised, Hc, Hpc.
    by destruct Hcase as [-> | ->].
  - by apply calls_index_snoc.
  - by rewrite captured_log_raised.
  - unfold cap_pc_inv. by destruct Hcase as [-> | ->].
  - main_pc_tac v.
Qed.

Lemma cam_put_inv v t k img :
  cam1Thread t = C_Got k img →
  trial_inv cfg v t →
  trial_inv cfg v (set_cam1Thread (C_Loop (S k))
                     (set_cam1Queue (queue_put img (cam1Queue t)) t)).
Proof.
  intros Hpc H. inv_open H.
  unfold cap_pc_inv in Hcp. rewrite Hpc in Hcp. destruct Hcp as [Hk1 Hk2].
  split; [done|done|done| |done|done|done| |done|done|done].
  - exists lost. split; [|done]. unfold retrieved.
    change (captured (set_cam1Thread _ _)) with (captured t).
    rewrite Hc, Hpc. simpl. unfold queue_put. by rewrite app_nil_r.
  - main_pc_tac v.
Qed.

Lemma camCapture_step_inv j s s' :
  inv cfg s → camCapture_step cfg j s = Some s' → inv cfg s'.
Proof.
  unfold inv, camCapture_step. intros Hinv Hstep.
  destruct (trials s !! j) as [t|] eqn:Hj; [|done].
  destruct (cam1Thread t) as [|k|k img| |e] eqn:Hc; try done.
  - destruct (device s) as [|ev dev]; [done|].
    destruct (Nat.eqb_spec k 0) as [->|Hk].
    + destruct (GetNextImage Infinite ev) as [[img|e]|]; simplify_eq; simpl;
        [| |done]; (eapply inv_core_thread; [done..|]).
      * by apply cam_retrieved_inv.
      * apply cam_raised_inv; auto.
    + assert (Bounded (CAM_TIMEOUT cfg) = policy_at cfg k) as Hpol
        by (by destruct k).
      destruct (GetNextImage (Bounded (CAM_TIMEOUT cfg)) ev) as [[img|e]|];
        simplify_eq; simpl; [| |done]; (eapply inv_core_thread; [done..|]).
      * by apply cam_retrieved_inv.
      * apply cam_raised_inv; auto.
  - simplify_eq. simpl. eapply inv_core_thread; eauto using cam_put_inv.
Qed.

Ltac outcome_tac Ho :=
  unfold outcome_inv in *; simpl in *;
  destruct (outcome _) as [[]|]; simpl in *;
  intuition (congruence || lia).

Lemma save_get_inv v t img q :
  save1Thread t = S_Get → imageWriteQueue1 t = Some img :: q →
  trial_inv cfg v t →
  trial_inv cfg v (set_save1Thread (S_Write img) (set_imageWriteQueue1 q t)).
Proof.
  intros Hpc Hqueue H. inv_open H. rewrite Hqueue in Hq, Hu.
  unfold pending in Hw. rewrite Hpc, Hqueue in Hw. rewrite Hpc in Hu.
  simpl in *.
  unfold save_pc_inv in Hsp. rewrite Hpc, Hqueue in Hsp. simpl in Hsp.
  split; [by inversion Hq|done| |by exists lost|done|done|done| | | |done].
  - intros Hin. specialize (Hu Hin). simpl. lia.
  - main_pc_tac v.
  - outcome_tac Ho.
  - unfold save_pc_inv. simpl. lia.
Qed.

Lemma save_write_inv v t img :
  save1Thread t = S_Write img →
  trial_inv cfg v t →
  trial_inv cfg v (set_save1Thread S_TaskDone
                     (set_writer1 (writer1 t ++ [writeFrame img]) t)).
Proof.
  intros Hpc H. inv_open H. rewrite Hpc in Hw, Hu. simpl in *.
  assert (written (set_save1Thread S_TaskDone
                     (set_writer1 (writer1 t ++ [writeFrame img]) t))
          = written t ++ [img]) as Hwr.
  { unfold written. simpl. by rewrite omap_app. }
  unfold save_pc_inv in Hsp. rewrite Hpc in Hsp.
  split; [done| |done|by exists lost|done|done|done| | | |done].
  - rewrite Hwr. simpl. by rewrite <- app_assoc.
  - main_pc_tac v.
  - unfold outcome_inv in *. rewrite Hwr. simpl in *.
    destruct (outcome t) as [[]|]; rewrite ?fmap_app, ?Hpc in *; simpl in *;
      intuition (congruence || lia).
  - unfold save_pc_inv. simpl in *. lia.
Qed.

Lemma save_task_done_inv v t n :
  save1Thread t = S_TaskDone → unfinished_tasks t = S n →
  trial_inv cfg v t →
  trial_inv cfg v (set_save1Thread S_Get (set_unfinished_tasks n t)).
Proof.
  intros Hpc Hn H. inv_open H. rewrite Hpc in Hw, Hu.
  unfold save_pc_inv in Hsp. rewrite Hpc in Hsp. simpl in *.
  split; [done|done| |by exists lost|done|done|done| | | |done].
  - intros Hin. specialize (Hu Hin). simpl. lia.
  - main_pc_tac v.
  - outcome_tac Ho.
  - unfold save_pc_inv. simpl. lia.
Qed.

Lemma save_crash_inv v t :
  save1Thread t = S_TaskDone → unfinished_tasks t = 0 →
  trial_inv cfg v t →
  trial_inv cfg v (set_save1Thread (S_Crashed ValueError) t).
Proof.
  intros Hpc Hn H. inv_open H. rewrite Hpc in Hw, Hu.
  unfold save_pc_inv in Hsp. rewrite Hpc in Hsp. simpl in *.
  assert (¬ intact v t) as Hcut.
  { intros Hin. specialize (Hu Hin). lia. }
  split; [done|done|done|by exists lost|done|done|done| | | |done].
  - destruct v as [p|]; [|done]. destruct Hcut. apply intact_view.
  - unfold outcome_inv in *. simpl.
    destruct (outcome t) as [[]|] eqn:Hout; [| |done];
      destruct Hcut; right; by rewrite Hout.
  - unfold save_pc_inv. simpl.
    split; [done|]. split; [done|]. split; [|done].
    destruct (imageWriteQueue1 t); [done|simpl in Hsp; lia].
Qed.

Lemma saveImage_trial_inv v t t' :
  saveImage_trial t = Some t' → trial_inv cfg v t → trial_inv cfg v t'.
Proof.
  unfold saveImage_trial. intros Hstep Ht.
  destruct (save1Thread t) as [| |img| | |e] eqn:Hc; try done.
  - destruct (imageWriteQueue1 t) as [|[img|] q] eqn:Hqueue; [done| |].
    + simplify_eq. by apply save_get_inv.
    + destruct Ht as [Hq _ _ _ _ _ _ _ _ _ _]. rewrite Hqueue in Hq.
      inversion Hq as [|? ? [? ?]]; discriminate.
  - simplify_eq. by apply save_write_inv.
  - destruct (unfinished_tasks t) as [|n] eqn:Hn.
    + simplify_eq. by apply save_crash_inv.
    + simplify_eq. by apply save_task_done_inv.
Qed.

Lemma saveImage_step_inv j s s' :
  inv cfg s → saveImage_step j s = Some s' → inv cfg s'.
Proof.
  unfold inv, saveImage_step. intros Hinv Hstep.
  destruct (trials s !! j) as [t|] eqn:Hj; [|done].
  destruct (saveImage_trial t) as [t'|] eqn:Ht; [|done].
  simplify_eq. simpl. eapply inv_core_thread; eauto using saveImage_trial_inv.
Qed.

(** The main thread, inside a trial. *)

Lemma save_pc_inv_intact v v' t t' :
  intact v t → save_pc_inv v t → save1Thread t' = save1Thread t →
  unfinished_tasks t' ≤ length (imageWriteQueue1 t') + save_busy (save1Thread t) →
  length (imageWriteQueue1 t') + save_busy (save1Thread t) ≤ S (unfinished_tasks t') →
  save_pc_inv v' t'.
Proof.
  unfold save_pc_inv. intros Hin Hsp -> H1 H2.
  destruct (save1Thread t); intuition.
Qed.

(** An invariant of a trial the main thread is in, with what follows
    from that. *)
Ltac inv_open_main H :=
  inv_open H;
  match goal with
  | Hcount : intact (Some ?p) ?t → _, Hsave : save_pc_inv (Some ?p) ?t |- _ =>
      specialize (Hcount (intact_view p t));
      pose proof (λ v' t', save_pc_inv_intact (Some p) v' t t'
                             (intact_view p t) Hsave) as Hsp'
  end.

Lemma trial_inv_goto p p' t :
  main_held (Some p) = [] → main_held (Some p') = [] →
  (main_pc_inv cfg p t → main_pc_inv cfg p' t) →
  trial_inv cfg (Some p) t → trial_inv cfg (Some p') t.
Proof.
  intros Hp Hp' Hpc H. inv_open_main H. rewrite Hlost in Hc by done.
  split; [done|done|done| |done|done|done| | |apply Hsp'; [done|simpl; lia..]|done].
  - exists []. rewrite Hp in Hc. rewrite Hp'. auto.
  - auto.
  - unfold outcome_inv in *. destruct (outcome t) as [[]|]; intuition congruence.
Qed.

Lemma main_start_save_inv t :
  trial_inv cfg (Some P_StartSave) t →
  trial_inv cfg (Some P_BeginAcq) (set_save1Thread S_Get t).
Proof.
  intros H. inv_open_main H. destruct Hmp as (Hout & Hns & Hrel & Hs & Hcam).
  rewrite Hs in Hw, Hu. rewrite Hlost in Hc by done.
  split; [done|done|done|by exists []|done|done|done|done| | |done].
  - unfold outcome_inv in *. simpl. by rewrite Hout in *.
  - unfold save_pc_inv. simpl in *. lia.
Qed.

Lemma main_start_cam_inv t :
  trial_inv cfg (Some P_StartCam) t →
  trial_inv cfg (Some P_ResetEnd) (set_cam1Thread (C_Loop 0) t).
Proof.
  intros H. inv_open_main H. destruct Hmp as (Hout & Hns & Hrel & Hcam).
  unfold cap_pc_inv in Hcp. rewrite Hcam in Hcp, Hc.
  destruct Hcp as [Hcalls Hqueue].
  rewrite Hlost in Hc by done.
  split; [done|done|done|by exists []|done|done| | | |apply Hsp'; [done|simpl; lia..]|done].
  - unfold cap_pc_inv, captured. simpl. by rewrite Hcalls.
  - unfold main_pc_inv. simpl. intuition congruence.
  - unfold outcome_inv in *. simpl. by rewrite Hout in *.
Qed.

Lemma main_completed_inv i t :
  ¬ i < FRAMES_TO_RECORD cfg →
  trial_inv cfg (Some (P_ForI i)) t →
  trial_inv cfg None (set_outcome (Some Completed) t).
Proof.
  intros Hi H. inv_open_main H. destruct Hmp as (Hout & Hns & Hrel & Hle).
  split; [done|done|done| |done|done|done|done| |apply Hsp'; [done|simpl; lia..]|done].
  - exists lost. auto.
  - unfold outcome_inv in *. rewrite Hout in Ho. simpl.
    repeat split; [done|lia].
Qed.

Lemma main_close_inv i t :
  trial_inv cfg (Some (P_Close i)) t →
  trial_inv cfg None
    (set_outcome (Some TimedOut) (set_writer1 (writer1 t ++ [close]) t)).
Proof.
  intros H. inv_open_main H. destruct Hmp as (Hout & Hns & Hrel & Hlt & Hz).
  unfold outcome_inv in Ho. rewrite Hout in Ho.
  assert (imageWriteQueue1 t = [] ∧ save_busy (save1Thread t) = 0) as [Hnil Hidle].
  { rewrite Hz in Hu. destruct (imageWriteQueue1 t); simpl in Hu; [|lia].
    split; [done|lia]. }
  assert (save_held (save1Thread t) = []) as Hheld.
  { destruct (save1Thread t); simpl in *; done. }
  assert (written (set_outcome (Some TimedOut)
                     (set_writer1 (writer1 t ++ [close]) t)) = written t) as Hwr.
  { unfold written. simpl. rewrite omap_app. simpl. by rewrite app_nil_r. }
  unfold pending in Hw. rewrite Hnil, Hheld in Hw. simpl in Hw.
  rewrite app_nil_r in Hw.
  split; [done| |done| |done|done|done|done| |apply Hsp'; [done|simpl; lia..]|done].
  - rewrite Hwr. unfold pending. simpl. rewrite Hnil, Hheld. simpl.
    by rewrite app_nil_r.
  - exists lost. auto.
  - unfold outcome_inv. simpl. rewrite Ho, Hw. done.
Qed.

Lemma main_get_inv i img q t :
  cam1Queue t = img :: q →
  trial_inv cfg (Some (P_Get i)) t →
  trial_inv cfg (Some (P_Put i img)) (set_cam1Queue q t).
Proof.
  intros Hqueue H. inv_open_main H. rewrite Hlost in Hc by done.
  rewrite Hqueue in Hc. simpl in Hc.
  split; [done|done|done| |done|done| | | |apply Hsp'; [done|simpl; lia..]|done].
  - exists []. split; [|done]. unfold retrieved.
    change (captured (set_cam1Queue q t)) with (captured t). by rewrite Hc.
  - unfold cap_pc_inv in *. simpl.
    destruct (cam1Thread t); try done.
    destruct Hcp as [_ Hcp]. by rewrite Hqueue in Hcp.
  - unfold main_pc_inv in *. simpl. intuition congruence.
  - unfold outcome_inv in *. simpl.
    destruct (outcome t) as [[]|]; intuition congruence.
Qed.

Lemma main_put_inv i img t :
  trial_inv cfg (Some (P_Put i img)) t →
  trial_inv cfg (Some (P_Display i img))
    (set_relayed (relayed t ++ [img])
       (set_unfinished_tasks (S (unfinished_tasks t))
          (set_imageWriteQueue1 (queue_put (Some img) (imageWriteQueue1 t)) t))).
Proof.
  intros H. inv_open_main H. destruct Hmp as (Hout & Hns & Hrel & Hlt).
  rewrite Hlost in Hc by done. simpl in Hc.
  split.
  - simpl. unfold queue_put. apply Forall_app. split; [done|].
    by repeat constructor.
  - simpl. unfold pending, queue_put. simpl. rewrite omap_app. simpl.
    change (written (set_relayed _ _)) with (written t).
    rewrite Hw. unfold pending. by rewrite <- !app_assoc.
  - simpl. unfold queue_put. rewrite length_app. simpl. lia.
  - exists []. split; [|done]. unfold retrieved.
    change (captured (set_relayed _ _)) with (captured t).
    rewrite Hc. simpl. by rewrite <- !app_assoc.
  - done.
  - done.
  - done.
  - split; [done|]. split; [intuition congruence|].
    simpl. rewrite length_app. simpl. lia.
  - unfold outcome_inv in *. simpl. rewrite Hout in *. done.
  - apply Hsp'; [done|simpl; unfold queue_put; rewrite length_app; simpl; lia..].
  - simpl. intros Hn. by apply Hns in Hn.
Qed.

Lemma inv_core_main j p m' trs t t' :
  inv_core cfg (M_InTrial j p) trs → trs !! j = Some t →
  len_ok m' (S j) → (∀ idx, idx ≠ j → view m' idx = None) →
  (trial_inv cfg (Some p) t → trial_inv cfg (view m' j) t') →
  inv_core cfg m' (<[j:=t']> trs).
Proof.
  intros Hinv Hj Hlen Hv Ht. pose proof Hinv as [Hl Htr]. simpl in Hl.
  apply (inv_core_update (M_InTrial j p)); auto.
  - by eapply lookup_lt_Some.
  - by rewrite Hl.
  - apply Ht. rewrite <- (view_same j p). by apply Htr.
Qed.

Lemma inv_core_main_pc j p m' trs t :
  inv_core cfg (M_InTrial j p) trs → trs !! j = Some t →
  len_ok m' (S j) → (∀ idx, idx ≠ j → view m' idx = None) →
  (trial_inv cfg (Some p) t → trial_inv cfg (view m' j) t) →
  inv_core cfg m' trs.
Proof.
  intros Hinv Hj Hlen Hv Ht.
  rewrite <- (list_insert_id trs j t) by done. by eapply inv_core_main.
Qed.

Lemma new_trial_inv name : trial_inv cfg (Some P_StartSave) (new_trial name).
Proof.
  split; simpl; try done; [by exists []|].
  unfold save_pc_inv. simpl. lia.
Qed.

Lemma inv_core_new_trial j trs name :
  inv_core cfg (M_ForJ j) trs →
  inv_core cfg (M_InTrial j P_StartSave) (trs ++ [new_trial name]).
Proof.
  intros [Hl Htr]. simpl in Hl. split.
  - simpl. rewrite length_app. simpl. lia.
  - intros idx t [Hold | [Hle Hnew]]%lookup_app_Some.
    + pose proof (lookup_lt_Some _ _ _ Hold).
      rewrite view_other by lia. by apply (Htr idx).
    + apply list_lookup_singleton_Some in Hnew as [Hidx <-].
      assert (idx = j) as -> by lia. rewrite view_same. apply new_trial_inv.
Qed.

Ltac goto_tac :=
  apply trial_inv_goto; [done|done|];
  unfold main_pc_inv; simpl; intuition (congruence || lia).

Ltac main_tac :=
  (eapply inv_core_main || eapply inv_core_main_pc);
  [ eassumption | eassumption | done
  | by (intros; (apply view_other || apply view_none))
  | rewrite ?view_same, ?view_none by done ].

Lemma trial_step_inv j p t s s' :
  inv cfg s → main s = M_InTrial j p → trials s !! j = Some t →
  trial_step cfg j p t s = Some s' → inv cfg s'.
Proof.
  unfold inv. intros Hinv Hm Hj Hstep. rewrite Hm in Hinv.
  destruct p; simpl in Hstep.
  - (* P_StartSave *)
    simplify_eq. simpl. main_tac. apply main_start_save_inv.
  - (* P_BeginAcq *)
    simplify_eq. simpl. main_tac. goto_tac.
  - (* P_StartCam *)
    simplify_eq. simpl. main_tac. apply main_start_cam_inv.
  - (* P_ResetEnd *)
    simplify_eq. simpl. main_tac. apply trial_inv_goto; [done|done|].
    unfold main_pc_inv. intros (? & ? & Hrel). rewrite Hrel. simpl.
    split; [done|]. split; [intuition congruence|]. split; [done|lia].
  - (* P_ForI *)
    destruct (i <? FRAMES_TO_RECORD cfg) eqn:Hi; simplify_eq; simpl.
    + apply Nat.ltb_lt in Hi. main_tac. goto_tac.
    + apply Nat.ltb_ge in Hi. main_tac. apply main_completed_inv. lia.
  - (* P_WhileEmpty *)
    destruct (cam1Queue t); simplify_eq; simpl; main_tac; goto_tac.
  - (* P_Sleep *)
    destruct (tEnd s) as [v|]; [destruct (v =? 1)|]; simplify_eq; simpl;
      main_tac; first [goto_tac | apply trial_inv_drop_view].
  - (* P_IfEnd *)
    destruct (tEnd s) as [v|]; [destruct (v =? 1)|]; simplify_eq; simpl;
      main_tac; first [goto_tac | apply trial_inv_drop_view].
  - (* P_EndAcq *)
    simplify_eq. simpl. main_tac. goto_tac.
  - (* P_Join *)
    destruct (unfinished_tasks t) eqn:Hz; simplify_eq. simpl.
    main_tac. goto_tac.
  - (* P_Close *)
    simplify_eq. simpl. main_tac. apply main_close_inv.
  - (* P_First *)
    destruct (i =? 0); simplify_eq; simpl; main_tac; goto_tac.
  - (* P_Get *)
    destruct (cam1Queue t) as [|img' q] eqn:Hqueue; simplify_eq. simpl.
    main_tac. by apply main_get_inv.
  - (* P_Put *)
    simplify_eq. simpl. main_tac. apply main_put_inv.
  - (* P_Display *)
    simplify_eq. simpl. main_tac. goto_tac.
Qed.

Lemma main_step_inv s s' :
  inv cfg s → main_step cfg s = Some s' → inv cfg s'.
Proof.
  intros Hinv Hstep. unfold main_step in Hstep.
  destruct (main s) as [j|j p| |p| |e] eqn:Hm.
  - destruct (j <? TRIALS_TO_RECORD cfg); simplify_eq; unfold inv in *; simpl.
    + apply inv_core_new_trial. by rewrite <- Hm.
    + eapply inv_core_pc; eauto. done.
  - destruct (trials s !! j) as [t|] eqn:Hj; [|done].
    by eapply trial_step_inv.
  - simplify_eq. unfold inv in *. simpl. eapply inv_core_pc; eauto. done.
  - simplify_eq. unfold inv in *.
    destruct p; simpl; [| destruct (tStart s) | | |]; simpl;
      (eapply inv_core_pc; eauto; done).
  - done.
  - done.
Qed.

Lemma interrupt_step_inv s s' :
  inv cfg s → interrupt_step s = Some s' → inv cfg s'.
Proof.
  intros Hinv Hstep. unfold interrupt_step, inv in *.
  destruct (main s); simplify_eq; simpl; (eapply inv_core_pc; eauto; done).
Qed.

(** Ctrl-C inside [put]: the frame is in the queue, the count of
    unfinished tasks has not moved. *)
Lemma main_cut_put_inv i img t :
  trial_inv cfg (Some (P_Put i img)) t →
  trial_inv cfg None
    (set_relayed (relayed t ++ [img])
       (set_imageWriteQueue1 (queue_put (Some img) (imageWriteQueue1 t)) t)).
Proof.
  intros H. inv_open_main H. destruct Hmp as (Hout & Hns & Hrel & Hlt).
  rewrite Hlost in Hc by done. simpl in Hc.
  split.
  - simpl. unfold queue_put. apply Forall_app. split; [done|].
    by repeat constructor.
  - simpl. unfold pending, queue_put. simpl. rewrite omap_app. simpl.
    change (written (set_relayed _ _)) with (written t).
    rewrite Hw. unfold pending. by rewrite <- !app_assoc.
  - intros [[? [=]]|Hne]. simpl in Hne. congruence.
  - exists []. split; [|done]. unfold retrieved.
    change (captured (set_relayed _ _)) with (captured t).
    rewrite Hc. simpl. by rewrite <- !app_assoc.
  - done.
  - done.
  - done.
  - done.
  - unfold outcome_inv in *. simpl. rewrite Hout in *. done.
  - apply Hsp'; [done|simpl; unfold queue_put; rewrite length_app; simpl; lia..].
  - simpl. intros Hn. by apply Hns in Hn.
Qed.

Lemma interrupt_in_put_step_eq s s' :
  interrupt_in_put_step s = Some s' →
  ∃ j i img t,
    main s = M_InTrial j (P_Put i img) ∧ trials s !! j = Some t
    ∧ s' = set_main M_Except
             (put_trial j
                (set_relayed (relayed t ++ [img])
                   (set_imageWriteQueue1
                      (queue_put (Some img) (imageWriteQueue1 t)) t))
                s).
Proof.
  unfold interrupt_in_put_step. intros Hstep.
  destruct (main s) as [j|j p| |p| |e] eqn:Hm; try done.
  destruct p; try done.
  destruct (trials s !! j) as [t|] eqn:Hj; [|done].
  simplify_eq. by eexists _, _, _, _.
Qed.

Lemma interrupt_in_put_step_inv s s' :
  inv cfg s → interrupt_in_put_step s = Some s' → inv cfg s'.
Proof.
  unfold inv, interrupt_in_put_step. intros Hinv Hstep.
  destruct (main s) as [j|j p| |p| |e] eqn:Hm; try done.
  destruct p; try done.
  destruct (trials s !! j) as [t|] eqn:Hj; [|done].
  simplify_eq. simpl. main_tac. apply main_cut_put_inv.
Qed.

Lemma step_inv e s s' : inv cfg s → step cfg e s = Some s' → inv cfg s'.
Proof.
  destruct e; simpl;
    eauto using main_step_inv, camCapture_step_inv, saveImage_step_inv,
                interrupt_step_inv, interrupt_in_put_step_inv.
Qed.

Lemma exec_inv evs s s' : inv cfg s → exec cfg evs s = Some s' → inv cfg s'.
Proof.
  revert s. induction evs as [|e evs IH]; intros s Hinv Hexec; simpl in Hexec.
  - by simplify_eq.
  - destruct (step cfg e s) as [s1|] eqn:Hstep; [|done].
    eauto using step_inv.
Qed.

Lemma init_inv fs ses dev : inv cfg (init_state fs ses dev).
Proof. split; [done|]. intros idx t Hidx. simpl in Hidx. by destruct idx. Qed.

Lemma reachable_inv s : Reachable cfg s → inv cfg s.
Proof.
  intros (fs & now & mouse & dev & s0 & evs & Hboot & Hexec).
  unfold boot in Hboot. destruct (setup_folders fs now mouse) as [fs' [ses|e]];
    simplify_eq.
  eapply exec_inv; [apply init_inv | done].
Qed.
End Preservation.

(** ** Schedules: composing runs, running the save thread to the end *)

Section Runs.

Variable cfg : Config.

Lemma exec_app evs1 evs2 s :
  exec cfg (evs1 ++ evs2) s
  = match exec cfg evs1 s with
    | Some s1 => exec cfg evs2 s1
    | None => None
    end.
Proof.
  revert s. induction evs1 as [|e evs1 IH]; intros s; simpl; [done|].
  by destruct (step cfg e s).
Qed.

Lemma reachable_exec evs s s' :
  Reachable cfg s → exec cfg evs s = Some s' → Reachable cfg s'.
Proof.
  intros (fs & now & mouse & dev & s0 & evs0 & Hboot & Hexec) Hevs.
  exists fs, now, mouse, dev, s0, (evs0 ++ evs).
  split; [done|]. by rewrite exec_app, Hexec.
Qed.

Lemma put_trial_same j t s : trials s !! j = Some t → put_trial j t s = s.
Proof.
  intros Hj. destruct s. unfold put_trial, set_trials. simpl in *.
  by rewrite list_insert_id.
Qed.

Lemma put_trial_twice j t1 t2 s :
  put_trial j t2 (put_trial j t1 s) = put_trial j t2 s.
Proof.
  unfold put_trial, set_trials. simpl. by rewrite list_insert_insert_eq.
Qed.

Lemma lookup_put_trial j t t' s :
  trials s !! j = Some t → trials (put_trial j t' s) !! j = Some t'.
Proof.
  intros Hj. simpl. apply list_lookup_insert_eq. by eapply lookup_lt_Some.
Qed.

(** Scheduling the save thread [n] times in a row is [save_run n]. *)
Lemma exec_save_run n j s t t' :
  trials s !! j = Some t → save_run n t = Some t' →
  exec cfg (replicate n (Save j)) s = Some (put_trial j t' s).
Proof.
  revert s t. induction n as [|n IH]; intros s t Hj Hrun; simpl in *.
  - simplify_eq. by rewrite put_trial_same.
  - unfold saveImage_step. rewrite Hj.
    destruct (saveImage_trial t) as [t1|]; [|done].
    rewrite (IH _ t1); [|by eapply lookup_put_trial|done].
    by rewrite put_trial_twice.
Qed.

Lemma save_run_app n m t :
  save_run (n + m) t
  = match save_run n t with Some t1 => save_run m t1 | None => None end.
Proof.
  revert t. induction n as [|n IH]; intros t; simpl; [done|].
  by destruct (saveImage_trial t).
Qed.

Lemma drain_from_get q :
  ∀ t, imageWriteQueue1 t = q → Forall is_Some q → save1Thread t = S_Get →
       length q ≤ unfinished_tasks t →
       ∃ n t', save_run n t = Some t'
               ∧ written t' = written t ++ omap id q
               ∧ imageWriteQueue1 t' = [] ∧ save1Thread t' = S_Get
               ∧ same_capture_side t t'.
Proof.
  induction q as [|[img|] q IH]; intros t Hq Hall Hpc Hn.
  - exists 0, t. simpl. rewrite app_nil_r. by repeat split.
  - inversion Hall as [|? ? _ Hall']; subst.
    destruct (unfinished_tasks t) as [|u] eqn:Hu; [simpl in Hn; lia|].
    set (t3 := set_save1Thread S_Get
                 (set_unfinished_tasks u
                    (set_save1Thread S_TaskDone
                       (set_writer1 (writer1 t ++ [writeFrame img])
                          (set_save1Thread (S_Write img)
                             (set_imageWriteQueue1 q t)))))).
    destruct (IH t3) as (n & t' & Hrun & Hw & Hnil & Hget & Hsame);
      [done|done|done|simpl in *; lia|].
    exists (3 + n), t'. split; [|split; [|done]].
    + rewrite save_run_app. simpl. unfold saveImage_trial at 1.
      rewrite Hpc, Hq. unfold saveImage_trial at 1. simpl.
      unfold saveImage_trial at 1. simpl. rewrite Hu. exact Hrun.
    + rewrite Hw. unfold written. simpl. rewrite omap_app. simpl.
      by rewrite <- app_assoc.
  - inversion Hall as [|? ? [? ?] _]. discriminate.
Qed.

Lemma save_drain v t :
  trial_inv cfg v t → intact v t →
  ∃ n t', save_run n t = Some t'
          ∧ written t' = relayed t ∧ pending t' = []
          ∧ save_held (save1Thread t') = [] ∧ same_capture_side t t'.
Proof.
  intros [Hq Hw Hu _ _ _ _ _ _ Hsp Hst] Hin. specialize (Hu Hin).
  unfold save_pc_inv in Hsp.
  destruct (save1Thread t) as [| |img| | |e] eqn:Hpc;
    [| | | |done|by destruct Hsp as (_ & ? & _)].
  - (* not started: nothing was ever relayed *)
    exists 0, t. simpl. rewrite Hst in Hw |- * by done.
    symmetry in Hw. apply app_eq_nil in Hw as [Hw1 Hw2]. simpl in Hw2.
    rewrite Hpc. repeat split; done.
  - (* waiting on the queue *)
    destruct (drain_from_get (imageWriteQueue1 t) t)
      as (n & t' & Hrun & Hw' & Hnil & Hget & Hsame); [done..|simpl in Hu; lia|].
    exists n, t'. unfold pending. rewrite Hnil, Hget, Hw', Hw. simpl.
    repeat (split; [done|]). exact Hsame.
  - (* holding a frame *)
    simpl in Hu, Hw.
    destruct (unfinished_tasks t) as [|u] eqn:Hu'; [lia|].
    set (t3 := set_save1Thread S_Get
                 (set_unfinished_tasks u
                    (set_save1Thread S_TaskDone
                       (set_writer1 (writer1 t ++ [writeFrame img]) t)))).
    destruct (drain_from_get (imageWriteQueue1 t) t3)
      as (n & t' & Hrun & Hw' & Hnil & Hget & Hsame);
      [done|done|done|simpl; lia|].
    exists (2 + n), t'. split; [|split; [|split; [|split; [|done]]]].
    + rewrite save_run_app. simpl. unfold saveImage_trial at 1. rewrite Hpc.
      unfold saveImage_trial at 1. simpl. by rewrite Hu'.
    + rewrite Hw', Hw. unfold written, pending. simpl. rewrite omap_app.
      simpl. by rewrite <- app_assoc.
    + unfold pending. by rewrite Hnil.
    + by rewrite Hget.
  - (* frame written, not yet acknowledged *)
    simpl in Hu, Hw.
    destruct (unfinished_tasks t) as [|u] eqn:Hu'; [lia|].
    set (t3 := set_save1Thread S_Get (set_unfinished_tasks u t)).
    destruct (drain_from_get (imageWriteQueue1 t) t3)
      as (n & t' & Hrun & Hw' & Hnil & Hget & Hsame);
      [done|done|done|simpl; lia|].
    exists (1 + n), t'. split; [|split; [|split; [|split; [|done]]]].
    + rewrite save_run_app. simpl. unfold saveImage_trial at 1.
      by rewrite Hpc, Hu'.
    + by rewrite Hw', Hw.
    + unfold pending. by rewrite Hnil.
    + by rewrite Hget.
Qed.
End Runs.

(** ** A full trial, run symbolically *)

Section FullTrial.

Variable cfg : Config.

Lemma exec_step_eq e evs s s1 :
  step cfg e s = Some s1 → exec cfg (e :: evs) s = exec cfg evs s1.
Proof. intros H. simpl. by rewrite H. Qed.

Ltac sym_step H1 H2 :=
  erewrite exec_step_eq;
  [| cbv -[Nat.ltb Nat.eqb Nat.modulo str display_effects String.append
           app movieName1 FRAMES_TO_RECORD TRIALS_TO_RECORD CAM_TIMEOUT];
     rewrite ?H1, ?H2, ?Nat.ltb_irrefl; cbn [app]; reflexivity ].

Lemma start_synced fs ses dev :
  0 < TRIALS_TO_RECORD cfg →
  ∃ s, exec cfg start_trial (init_state fs ses dev) = Some s ∧ synced 0 dev s.
Proof.
  intros Ht%Nat.ltb_lt. unfold start_trial, init_state.
  do 5 sym_step Ht Ht.
  eexists. split; [reflexivity|].
  unfold synced. do 8 eexists. split; [reflexivity|].
  split; [done|]. split; [done|]. apply not_elem_of_nil.
Qed.

Lemma round_synced i img dev s :
  synced i (Trigger img :: dev) s → i < FRAMES_TO_RECORD cfg →
  ∃ s', exec cfg (frame_round 0) s = Some s' ∧ synced (S i) dev s'.
Proof.
  intros (fs & ses & b & name & w & cs & rel & tr & -> & Hc & Hw & Hcl)
    Hi%Nat.ltb_lt.
  unfold frame_round, capture_one, relay_one, save_one. cbn [app].
  destruct (i =? 0) eqn:Hz.
  all: do 12 sym_step Hi Hz.
  all: eexists; (split; [reflexivity|]).
  all: unfold synced; do 8 eexists; (split; [reflexivity|]).
  all: rewrite !omap_app, !length_app; simpl.
  all: (split; [lia|]); (split; [lia|]).
  all: rewrite elem_of_app, list_elem_of_singleton; intros [?|?]; done.
Qed.

Lemma rounds_synced imgs :
  ∀ i dev s,
    synced i ((Trigger <$> imgs) ++ dev) s →
    i + length imgs ≤ FRAMES_TO_RECORD cfg →
    ∃ s', exec cfg (mjoin (replicate (length imgs) (frame_round 0))) s
          = Some s'
          ∧ synced (i + length imgs) dev s'.
Proof.
  induction imgs as [|img imgs IH]; intros i dev s Hs Hle;
    cbn [length fmap list_fmap app] in *.
  - exists s. rewrite Nat.add_0_r. done.
  - destruct (round_synced i img _ s Hs) as (s1 & He1 & Hs1); [lia|].
    destruct (IH (S i) dev s1 Hs1) as (s2 & He2 & Hs2); [lia|].
    exists s2.
    change (mjoin (replicate (S (length imgs)) (frame_round 0)))
      with (frame_round 0 ++ mjoin (replicate (length imgs) (frame_round 0))).
    rewrite exec_app, He1, He2.
    split; [done|]. by replace (i + S (length imgs)) with (S i + length imgs) by lia.
Qed.

Lemma completed_synced img s :
  synced (FRAMES_TO_RECORD cfg) [Trigger img] s →
  ∃ s' t,
    exec cfg ([Main] ++ capture_one 0) s = Some s'
    ∧ trials s' !! 0 = Some t
    ∧ outcome t = Some Completed
    ∧ cam1Thread t = C_Loop (S (FRAMES_TO_RECORD cfg))
    ∧ length (retrieved t) = S (FRAMES_TO_RECORD cfg)
    ∧ length (written t) = FRAMES_TO_RECORD cfg
    ∧ cam1Queue t = [img]
    ∧ close ∉ writer1 t.
Proof.
  intros (fs & ses & b & name & w & cs & rel & tr & -> & Hc & Hw & Hcl).
  unfold capture_one. cbn [app].
  destruct (FRAMES_TO_RECORD cfg =? 0) eqn:Hz.
  all: do 3 sym_step Hz Hz.
  all: eexists _, _; (split; [reflexivity|]); (split; [reflexivity|]).
  all: (split; [reflexivity|]); (split; [reflexivity|]).
  all: split; [|split; [exact Hw|split; [reflexivity|exact Hcl]]].
  all: unfold retrieved, captured; cbn [calls].
  all: rewrite length_fmap, omap_app, length_app; simpl; lia.
Qed.

Lemma triggers_S n :
  triggers (S n) = (Trigger <$> (frame <$> seq 0 n)) ++ [Trigger (frame n)].
Proof.
  unfold triggers. rewrite seq_S, fmap_app. simpl.
  by rewrite <- list_fmap_compose.
Qed.

Lemma boot_lab dev :
  ∃ fs ses, boot lab_fs morning "m1" dev = Running (init_state fs ses dev).
Proof.
  unfold boot. set (r := setup_folders lab_fs morning "m1").
  vm_compute in r. subst r. by eexists _, _.
Qed.

(** However the constants are set, a trigger source that sends one
    trigger more than [FRAMES_TO_RECORD] leaves the first trial
    completed with the capture thread one frame ahead and still in its
    loop. *)
Lemma capture_outlives_completed_trial :
  0 < TRIALS_TO_RECORD cfg →
  ∃ s0 s t,
    boot lab_fs morning "m1" (triggers (S (FRAMES_TO_RECORD cfg)))
    = Running s0
    ∧ exec cfg (full_trial_and_one_more (FRAMES_TO_RECORD cfg)) s0 = Some s
    ∧ trials s !! 0 = Some t
    ∧ outcome t = Some Completed
    ∧ cam1Thread t = C_Loop (S (FRAMES_TO_RECORD cfg))
    ∧ length (retrieved t) = S (FRAMES_TO_RECORD cfg)
    ∧ length (written t) = FRAMES_TO_RECORD cfg
    ∧ cam1Queue t = [frame (FRAMES_TO_RECORD cfg)]
    ∧ close ∉ writer1 t.
Proof.
  intros Ht. set (n := FRAMES_TO_RECORD cfg).
  destruct (boot_lab (triggers (S n))) as (fs & ses & Hboot).
  destruct (start_synced fs ses (triggers (S n)) Ht) as (s1 & He1 & Hs1).
  rewrite triggers_S in Hs1.
  destruct (rounds_synced (frame <$> seq 0 n) 0 _ s1 Hs1)
    as (s2 & He2 & Hs2).
  { rewrite length_fmap, length_seq. done. }
  rewrite length_fmap, length_seq in He2, Hs2. simpl in Hs2.
  destruct (completed_synced (frame n) s2 Hs2) as (s3 & t & He3 & Hrest).
  exists (init_state fs ses (triggers (S n))), s3, t.
  split; [done|]. split; [|done].
  unfold full_trial_and_one_more.
  rewrite exec_app, He1, exec_app, He2. exact He3.
Qed.
End FullTrial.

Lemma reachable_intro cfg fs now mouse dev s0 evs s :
  boot fs now mouse dev = Running s0 → exec cfg evs s0 = Some s →
  Reachable cfg s.
Proof. intros. by exists fs, now, mouse, dev, s0, evs. Qed.

Lemma written_only_no_close (l : list NpImage) : close ∉ (writeFrame <$> l).
Proof. intros (img & Heq & _)%list_elem_of_fmap. discriminate. Qed.

(** No [None] is ever put on a write queue, so no [saveImage] thread
    ever leaves its loop by the [break]. *)
Lemma encode_worker_never_stops cfg s j t :
  Reachable cfg s → trials s !! j = Some t →
  save1Thread t ≠ S_Stopped ∧ None ∉ imageWriteQueue1 t.
Proof.
  intros Hs%reachable_inv Hj. destruct Hs as [_ Ht]. specialize (Ht j t Hj).
  destruct Ht as [Hq _ _ _ _ _ _ _ _ Hsp _]. split.
  - unfold save_pc_inv in Hsp. by destruct (save1Thread t).
  - intros Hin. rewrite Forall_forall in Hq.
    by destruct (Hq _ Hin).
Qed.

(** ** Paths *)

Open Scope string_scope.

Lemma has_sep_app a b : has_sep (a +:+ b) = has_sep a || has_sep b.
Proof. induction a as [|c a IH]; simpl; [done|]. by rewrite IH, orb_assoc. Qed.

Lemma split_path_cons p : ∃ x xs, split_path p = x :: xs.
Proof.
  induction p as [|c p (x & xs & IH)]; simpl; [by eexists _, _|].
  destruct (is_sep c); [by eexists _, _|]. rewrite IH. by eexists _, _.
Qed.

Lemma split_path_sep a c b :
  is_sep c = true →
  split_path (a +:+ String c b) = (split_path a ++ split_path b)%list.
Proof.
  intros Hc. induction a as [|x a IH]; simpl.
  - by rewrite Hc.
  - rewrite IH. destruct (is_sep x); [done|].
    by destruct (split_path_cons a) as (y & ys & ->).
Qed.

Lemma split_path_plain s : has_sep s = false → split_path s = [s].
Proof.
  induction s as [|c s IH]; simpl; [done|].
  intros [Hc Hs]%orb_false_iff. by rewrite Hc, IH.
Qed.

Lemma components_sep a b :
  components (a +:+ "/" +:+ b) = (components a ++ components b)%list.
Proof.
  unfold components.
  change (a +:+ "/" +:+ b) with (a +:+ String "/" b).
  by rewrite split_path_sep, filter_app.
Qed.

Lemma components_plain s : has_sep s = false → s ≠ "" → components s = [s].
Proof.
  intros Hs Hne. unfold components. rewrite split_path_plain by done.
  rewrite filter_cons_True by done. done.
Qed.



Lemma plain_char_not_sep c : plain_char c = true → is_sep c = false.
Proof. destruct c as [[] [] [] [] [] [] [] []]; by vm_compute. Qed.

Lemma all_plain_no_sep s : all_plain s = true → has_sep s = false.
Proof.
  induction s as [|c s IH]; simpl; [done|].
  intros [Hc Hs]%andb_true_iff. by rewrite (plain_char_not_sep c), IH.
Qed.

Lemma plain_name_no_sep s : plain_name s = true → has_sep s = false ∧ s ≠ "".
Proof.
  destruct s as [|c s]; [done|]. intros H. split; [|done].
  by apply all_plain_no_sep.
Qed.

(** Decimal digits hold no path separator. *)
Lemma has_sep_pretty_N_go x s : has_sep (pretty_N_go x s) = has_sep s.
Proof.
  revert s. induction (N.lt_wf_0 x) as [x _ IH]; intros s.
  assert (x = 0 ∨ 0 < x)%N as [->|Hx] by lia; [done|].
  rewrite pretty_N_go_step by done.
  rewrite IH by (by apply N.div_lt). simpl.
  assert (is_sep (pretty_N_char (x `mod` 10)) = false) as ->; [|done].
  unfold pretty_N_char. by repeat case_match.
Qed.

Lemma has_sep_str n : has_sep (str n) = false.
Proof.
  unfold str, pretty, pretty_nat, pretty, pretty_N.
  case_decide; [done|]. apply has_sep_pretty_N_go.
Qed.

Lemma has_sep_pad2 n : has_sep (pad2 n) = false.
Proof.
  unfold pad2. destruct (n <? 10)%nat;
    rewrite ?has_sep_app, ?has_sep_str; done.
Qed.

Lemma has_sep_pad4 n : has_sep (pad4 n) = false.
Proof.
  unfold pad4. repeat case_match;
    rewrite ?has_sep_app, ?has_sep_str; done.
Qed.

Lemma has_sep_strftime_Ymd now : has_sep (strftime_Ymd now) = false.
Proof.
  unfold strftime_Ymd.
  by rewrite !has_sep_app, has_sep_pad4, !has_sep_pad2.
Qed.

Lemma strftime_Ymd_not_empty now : strftime_Ymd now ≠ "".
Proof. unfold strftime_Ymd. by destruct (pad4 (year now)). Qed.

(** The components of the two folders of lines 69 and 76. *)
Lemma components_mouse_folder mouse :
  components (SAVE_FOLDER_ROOT +:+ "/" +:+ mouse)
  = (root_path ++ components mouse)%list.
Proof. apply components_sep. Qed.

Lemma components_session_folder now mouse :
  components (session_folder now mouse)
  = (components (SAVE_FOLDER_ROOT +:+ "/" +:+ mouse) ++ [strftime_Ymd now])%list.
Proof.
  unfold session_folder. rewrite !components_sep, app_assoc.
  by rewrite (components_plain (strftime_Ymd now))
    by auto using has_sep_strftime_Ymd, strftime_Ymd_not_empty.
Qed.

Close Scope string_scope.

(** ** Looking paths up *)

Lemma walk_app fs pre a b :
  walk fs pre (a ++ b)
  = match walk fs pre a with
    | Found Directory => walk fs (pre ++ a) b
    | Found RegularFile =>
        match b with [] => Found RegularFile | _ :: _ => Blocked end
    | r => r
    end.
Proof.
  revert pre. induction a as [|c a IH]; intros pre; simpl.
  - by rewrite app_nil_r.
  - destruct (name_max fs <? String.length c); [done|].
    destruct (find_entry (pre ++ [c]) (entries fs)) as [[]|]; [| |done].
    + by rewrite IH, <- app_assoc.
    + by destruct a.
Qed.

Lemma mkdir_walk_app fs pre a b :
  b ≠ [] →
  mkdir_walk fs pre (a ++ b)
  = match walk fs pre a with
    | Found Directory => mkdir_walk fs (pre ++ a) b
    | Found RegularFile | Blocked => Raised NotADirectoryError
    | Absent => Raised FileNotFoundError
    | TooLong => Raised OSError
    end.
Proof.
  intros Hb. revert pre. induction a as [|c a IH]; intros pre; simpl.
  - by rewrite app_nil_r.
  - destruct (name_max fs <? String.length c); [done|].
    destruct (find_entry (pre ++ [c]) (entries fs)) as [[]|].
    + replace (pre ++ c :: a) with ((pre ++ [c]) ++ a)
        by (by rewrite <- app_assoc).
      rewrite <- IH.
      destruct (a ++ b) eqn:Hab; [|done].
      by apply app_eq_nil in Hab as [_ ?].
    + destruct a; simpl; [by destruct b|done].
    + destruct (a ++ b) eqn:Hab; [|done].
      by apply app_eq_nil in Hab as [_ ?].
Qed.

Lemma extends_refl fs : extends fs fs.
Proof. by split. Qed.

Lemma extends_trans fs1 fs2 fs3 :
  extends fs1 fs2 → extends fs2 fs3 → extends fs1 fs3.
Proof. intros [H1 H2] [H3 H4]. split; [congruence|auto]. Qed.

Lemma walk_extends fs fs' pre rest k :
  extends fs fs' → walk fs pre rest = Found k → walk fs' pre rest = Found k.
Proof.
  intros [Hn He]. revert pre. induction rest as [|c rest IH]; intros pre; simpl.
  - done.
  - rewrite Hn. destruct (name_max fs <? String.length c); [done|].
    destruct (find_entry (pre ++ [c]) (entries fs)) as [[]|] eqn:Hf; [| |done].
    + rewrite (He _ _ Hf). apply IH.
    + rewrite (He _ _ Hf). done.
Qed.

Lemma stat_extends fs fs' p k :
  extends fs fs' → stat fs p = Found k → stat fs' p = Found k.
Proof.
  unfold stat. intros He. case_decide; [done|]. by apply walk_extends.
Qed.

Lemma extends_mkdir fs path :
  find_entry path (entries fs) = None →
  extends fs {| entries := (path, Directory) :: entries fs;
                cwd := cwd fs; name_max := name_max fs |}.
Proof.
  intros Hnone. split; [done|]. intros q k Hq. simpl.
  case_decide; [congruence|done].
Qed.

(** What a successful [os.mkdir] has found and leaves. *)
Lemma mkdir_walk_ok fs pre rest path :
  mkdir_walk fs pre rest = Ok path →
  path = pre ++ rest
  ∧ find_entry path (entries fs) = None
  ∧ ∀ fs', extends fs fs' → find_entry path (entries fs') = Some Directory →
           walk fs' pre rest = Found Directory.
Proof.
  revert pre. induction rest as [|c rest IH]; intros pre; simpl; [done|].
  destruct (name_max fs <? String.length c) eqn:Hlen; [done|].
  destruct (find_entry (pre ++ [c]) (entries fs)) as [[]|] eqn:Hf.
  - destruct rest as [|c' rest]; [done|]. intros H.
    apply IH in H as (-> & Hnone & Hw). rewrite <- app_assoc.
    split; [done|]. split; [by rewrite <- app_assoc in Hnone|].
    intros fs' He Hdir. pose proof He as [Hn Hent].
    rewrite Hn, Hlen, (Hent _ _ Hf). apply Hw; [done|].
    by rewrite <- app_assoc.
  - by destruct rest.
  - destruct rest as [|c' rest]; [|done]. intros [= <-].
    split; [done|]. split; [done|]. intros fs' [Hn _] Hdir.
    by rewrite Hn, Hlen, Hdir.
Qed.

(** [os.mkdir] raises [FileExistsError] only for a path that a look-up
    finds. *)
Lemma mkdir_walk_exists fs pre rest :
  mkdir_walk fs pre rest = Raised FileExistsError →
  ∃ k, walk fs pre rest = Found k.
Proof.
  revert pre. induction rest as [|c rest IH]; intros pre; simpl.
  - by eexists.
  - destruct (name_max fs <? String.length c); [done|].
    destruct (find_entry (pre ++ [c]) (entries fs)) as [[]|];
      destruct rest as [|c' rest]; try done; eauto.
Qed.

Lemma walk_cwd fs fs' pre rest :
  entries fs' = entries fs → name_max fs' = name_max fs →
  walk fs' pre rest = walk fs pre rest.
Proof.
  intros He Hn. revert pre. induction rest as [|c rest IH]; intros pre; simpl;
    [done|].
  rewrite He, Hn, IH. done.
Qed.

(** ** Folder set-up *)

Open Scope string_scope.

Lemma mouse_folder_not_empty mouse : SAVE_FOLDER_ROOT +:+ "/" +:+ mouse ≠ "".
Proof. done. Qed.

Lemma session_folder_not_empty now mouse : session_folder now mouse ≠ "".
Proof. done. Qed.

Lemma stat_walk fs p : p ≠ "" → stat fs p = walk fs [] (components p).
Proof. intros Hp. unfold stat. by case_decide. Qed.

Lemma exists_found fs p :
  os_path_exists fs p = true → ∃ k, stat fs p = Found k.
Proof. unfold os_path_exists. destruct (stat fs p) as [k| | |]; eauto; done. Qed.

Lemma found_exists fs p k :
  stat fs p = Found k → ends_sep p = false → os_path_exists fs p = true.
Proof. unfold os_path_exists. intros -> ->. by destruct k. Qed.

(** A path that is found lies below a directory. *)
Lemma walk_found_below fs pre a b k :
  b ≠ [] → walk fs pre (a ++ b) = Found k → walk fs pre a = Found Directory.
Proof.
  intros Hb. rewrite walk_app.
  destruct (walk fs pre a) as [[]| | |]; try done. by destruct b.
Qed.

Lemma ensure_dir_ok fs fs' p :
  ensure_dir fs p = Ok fs' →
  cwd fs' = cwd fs ∧ extends fs fs'
  ∧ ((fs' = fs ∧ os_path_exists fs p = true)
     ∨ (fs' = {| entries := (components p, Directory) :: entries fs;
                 cwd := cwd fs; name_max := name_max fs |}
        ∧ os_path_exists fs p = false
        ∧ walk fs [] (components p) ≠ Found Directory
        ∧ (∀ a c, components p = (a ++ [c])%list →
                  walk fs [] a = Found Directory)
        ∧ stat fs' p = Found Directory)).
Proof.
  unfold ensure_dir, os_mkdir.
  destruct (os_path_exists fs p) eqn:Hex.
  - intros [= <-]. split; [done|]. split; [apply extends_refl|]. by left.
  - case_decide as Hp; [done|].
    destruct (mkdir_walk fs [] (components p)) as [path|e] eqn:Hmk; [|done].
    intros [= <-]. simpl. split; [done|].
    pose proof Hmk as (-> & Hnone & Hw)%mkdir_walk_ok. simpl in *.
    split; [by apply extends_mkdir|]. right.
    split; [done|]. split; [done|]. split; [|split].
    + intros Hd. unfold os_path_exists in Hex. rewrite stat_walk, Hd in Hex; done.
    + intros a c Hc. rewrite Hc in Hmk. rewrite mkdir_walk_app in Hmk by done.
      by destruct (walk fs [] a) as [[]| | |].
    + rewrite stat_walk by done. apply Hw; [by apply extends_mkdir|].
      simpl. by case_decide.
Qed.




Lemma chdir_same fs p :
  cwd fs = p →
  {| entries := entries fs; cwd := p; name_max := name_max fs |} = fs.
Proof. intros <-. by destruct fs. Qed.

Lemma stat_cwd fs p q :
  stat {| entries := entries fs; cwd := p; name_max := name_max fs |} q
  = stat fs q.
Proof. unfold stat. case_decide; [done|]. by apply walk_cwd. Qed.

Lemma os_chdir_ok fs fs' p :
  os_chdir fs p = Ok fs' →
  stat fs p = Found Directory
  ∧ fs' = {| entries := entries fs; cwd := p; name_max := name_max fs |}.
Proof.
  unfold os_chdir. destruct (stat fs p) as [[]| | |]; try done.
  by intros [= <-].
Qed.

Close Scope string_scope.

(** * The claims *)

(** C1 (code defect).  A trial ended by a trigger timeout is claimed to
    write every frame retrieved before the timeout, those still queued
    between capture and controller included.  The branch at lines
    218-222 waits for the write queue only: when the main thread sees
    [tEnd == 1] while [cam1Queue] still holds a frame, that frame is
    never relayed.  Here the camera delivers one frame and goes quiet,
    and the main thread next runs after the capture thread has given
    up: the trial is closed with the frame retrieved, still queued, and
    not written. *)
Theorem timeout_drops_queued_frame :
  ∃ s0 s t,
    boot lab_fs morning "m1" [Trigger (frame 0); Quiet] = Running s0
    ∧ exec source_config late_controller s0 = Some s
    ∧ trials s !! 0 = Some t
    ∧ outcome t = Some TimedOut
    ∧ retrieved t = [frame 0]
    ∧ writer1 t = [close]
    ∧ written t = []
    ∧ cam1Queue t = [frame 0].
Proof.
  eexists _, _, _.
  split; [vm_compute; reflexivity|].
  split; [vm_compute; reflexivity|].
  split; [vm_compute; reflexivity|].
  repeat split; vm_compute; reflexivity.
Qed.

(** C2 (code defect).  The capture worker is claimed to push an
    end-of-stream sentinel on every way out, the sentinel being the only
    thing that stops the encode worker.  [saveImage] does stop on [None]
    only, but nothing in the script ever enqueues [None]: [camCapture]
    sets [tEnd] and returns.  After an orderly trigger timeout the
    capture thread is done, the writer is closed, both queues are empty,
    and the save thread sits in [get()]; whatever runs afterwards, it
    never leaves its loop. *)
Theorem no_sentinel_ever_reaches_encoder :
  ∃ s0 s t,
    boot lab_fs morning "m1" [Trigger (frame 0); Quiet] = Running s0
    ∧ exec source_config orderly_timeout s0 = Some s
    ∧ trials s !! 0 = Some t
    ∧ cam1Thread t = C_Done
    ∧ outcome t = Some TimedOut
    ∧ writer1 t = [writeFrame (frame 0); close]
    ∧ cam1Queue t = []
    ∧ imageWriteQueue1 t = []
    ∧ save1Thread t = S_Get
    ∧ saveImage_step 0 s = None
    ∧ ∀ evs s' t',
        exec source_config evs s = Some s' → trials s' !! 0 = Some t' →
        save1Thread t' ≠ S_Stopped ∧ None ∉ imageWriteQueue1 t'.
Proof.
  eexists _, _, _.
  split; [vm_compute; reflexivity|].
  split; [vm_compute; reflexivity|].
  split; [vm_compute; reflexivity|].
  repeat (split; [vm_compute; reflexivity|]).
  intros evs s' t' Hexec Hj.
  eapply encode_worker_never_stops; [|exact Hj].
  eapply reachable_exec; [|exact Hexec].
  eapply (reachable_intro source_config lab_fs morning "m1"
            [Trigger (frame 0); Quiet] _ orderly_timeout);
    vm_compute; reflexivity.
Qed.

(** C3, as the claim states it, fails.  With the constants of the
    script and a trigger source that sends one trigger more than
    [FRAMES_TO_RECORD], the first trial is left as completed with
    [FRAMES_TO_RECORD] frames written, while the capture thread has
    retrieved one frame more, has queued it, and is back at the top of
    its loop; the writer has seen no [close]. *)
Lemma completed_capture_keeps_retrieving :
  ∃ s0 s t,
    boot lab_fs morning "m1" (triggers (S (FRAMES_TO_RECORD source_config)))
    = Running s0
    ∧ exec source_config
        (full_trial_and_one_more (FRAMES_TO_RECORD source_config)) s0
      = Some s
    ∧ trials s !! 0 = Some t
    ∧ outcome t = Some Completed
    ∧ cam1Thread t = C_Loop (S (FRAMES_TO_RECORD source_config))
    ∧ length (retrieved t) = S (FRAMES_TO_RECORD source_config)
    ∧ length (written t) = FRAMES_TO_RECORD source_config
    ∧ cam1Queue t = [frame (FRAMES_TO_RECORD source_config)]
    ∧ close ∉ writer1 t.
Proof.
  apply capture_outlives_completed_trial.
  apply Nat.ltb_lt. reflexivity.
Qed.

(** C3 (amended).  In every trial left as completed, exactly
    [FRAMES_TO_RECORD] frames were handed to the encode worker; they are
    the frames retrieved at indices 0 .. [FRAMES_TO_RECORD]-1, in
    capture order; they are all the retrieved frames when the camera
    delivered no more than that; the frames written so far are a prefix
    of them; and running the save thread on leads to a state where
    exactly those frames are written.  Nothing stops the capture loop
    at the target. *)
Theorem completed_trial_relays_target cfg s j t :
  Reachable cfg s → trials s !! j = Some t → outcome t = Some Completed →
  length (relayed t) = FRAMES_TO_RECORD cfg
  ∧ relayed t = take (FRAMES_TO_RECORD cfg) (retrieved t)
  ∧ (take (FRAMES_TO_RECORD cfg) (captured t)).*1
    = seq 0 (FRAMES_TO_RECORD cfg)
  ∧ (length (retrieved t) = FRAMES_TO_RECORD cfg → relayed t = retrieved t)
  ∧ written t `prefix_of` relayed t
  ∧ ∃ n s' t',
      exec cfg (replicate n (Save j)) s = Some s'
      ∧ trials s' !! j = Some t'
      ∧ retrieved t' = retrieved t
      ∧ written t' = take (FRAMES_TO_RECORD cfg) (retrieved t).
Proof.
  intros Hs%reachable_inv Hj Hout. destruct Hs as [_ Ht].
  specialize (Ht j t Hj). pose proof Ht as Hinv.
  destruct Ht as [_ Hw _ (lost & Hc & _) _ Hcap _ _ Ho _ _].
  unfold outcome_inv in Ho. rewrite Hout in Ho. destruct Ho as (_ & Hlen & _).
  assert (relayed t = take (FRAMES_TO_RECORD cfg) (retrieved t)) as Hrel.
  { rewrite Hc, <- Hlen. by rewrite take_app_length. }
  split; [done|]. split; [done|]. split; [|split; [|split]].
  - assert (FRAMES_TO_RECORD cfg ≤ length (captured t)) as Hle.
    { rewrite <- Hlen. unfold retrieved in Hc.
      rewrite <- (length_fmap snd (captured t)), Hc, length_app. lia. }
    rewrite fmap_take, Hcap.
    rewrite take_seq. f_equal. lia.
  - intros Hall. rewrite Hrel. apply take_ge. lia.
  - rewrite Hw. by eexists.
  - destruct (save_drain cfg _ _ Hinv)
      as (n & t' & Hrun & Hwr & _ & _ & Hcalls & _);
      [right; by rewrite Hout|].
    exists n, (put_trial j t' s), t'.
    split; [by eapply exec_save_run|]. split; [by eapply lookup_put_trial|].
    split; [unfold retrieved, captured; by rewrite Hcalls|].
    by rewrite Hwr.
Qed.

(** The amended C3 at a completed trial of two frames, the camera having
    sent three triggers. *)
Lemma completed_trial_relays_target_witness :
  ∃ s0 s t,
    boot lab_fs morning "m1" (triggers 3) = Running s0
    ∧ exec small_config (full_trial_and_one_more 2) s0 = Some s
    ∧ trials s !! 0 = Some t
    ∧ outcome t = Some Completed
    ∧ length (retrieved t) = 3
    ∧ (length (relayed t) = 2
       ∧ relayed t = take 2 (retrieved t)
       ∧ (take 2 (captured t)).*1 = seq 0 2
       ∧ (length (retrieved t) = 2 → relayed t = retrieved t)
       ∧ written t `prefix_of` relayed t
       ∧ ∃ n s' t',
           exec small_config (replicate n (Save 0)) s = Some s'
           ∧ trials s' !! 0 = Some t'
           ∧ retrieved t' = retrieved t
           ∧ written t' = take 2 (retrieved t)).
Proof.
  assert (∃ s0 s t,
            boot lab_fs morning "m1" (triggers 3) = Running s0
            ∧ exec small_config (full_trial_and_one_more 2) s0 = Some s
            ∧ trials s !! 0 = Some t
            ∧ outcome t = Some Completed
            ∧ length (retrieved t) = 3)
    as (s0 & s & t & Hb & He & Hj & Ho & Hl).
  { eexists _, _, _.
    split; [vm_compute; reflexivity|]. split; [vm_compute; reflexivity|].
    split; [vm_compute; reflexivity|]. split; vm_compute; reflexivity. }
  exists s0, s, t. repeat (split; [assumption|]).
  apply (completed_trial_relays_target small_config s 0 t);
    [by eapply reachable_intro | assumption | assumption].
Defined.

(** C4 (code defect).  Cancellation is claimed to close every device
    handle and every sink and to leave no thread behind, also when it
    arrives before any frame.  First run: Ctrl-C while the first trial
    waits for its first trigger.  [tStart] was never bound, so the
    [print] of line 254 raises [NameError]; the script dies after
    [EndAcquisition], before [DeInit] and [ReleaseInstance]; the writer
    was never closed, the capture thread is inside its first
    [GetNextImage] and the save thread inside [get()].  Second run:
    Ctrl-C after a frame was written.  The script reaches its last line
    and the camera is released, but the writer is still not closed and
    both threads still run. *)
Theorem ctrl_c_before_first_trigger_crashes :
  (∃ s0 s t,
     boot lab_fs morning "m1" [] = Running s0
     ∧ exec source_config ctrl_c_while_waiting s0 = Some s
     ∧ trials s !! 0 = Some t
     ∧ main s = M_Crashed NameError
     ∧ trace s = [E_InitCam; E_Window;
                  E_FFmpegWriter "m1_2020_01_01_bottom_0.mp4";
                  E_BeginAcquisition; E_EndAcquisition]
     ∧ writer1 t = []
     ∧ calls t = []
     ∧ cam1Thread t = C_Loop 0
     ∧ save1Thread t = S_Get
     ∧ step source_config Main s = None)
  ∧ (∃ s0 s t,
       boot lab_fs morning "m1" [Trigger (frame 0)] = Running s0
       ∧ exec source_config ctrl_c_after_first_frame s0 = Some s
       ∧ trials s !! 0 = Some t
       ∧ main s = M_Exited
       ∧ trace s = [E_InitCam; E_Window;
                    E_FFmpegWriter "m1_2020_01_01_bottom_0.mp4";
                    E_BeginAcquisition; E_Print "Capture begins";
                    E_EndAcquisition; E_Print "File written";
                    E_WindowDestroy; E_DeInit; E_ReleaseInstance;
                    E_Print "Done!"]
       ∧ writer1 t = [writeFrame (frame 0)]
       ∧ cam1Thread t = C_Loop 1
       ∧ save1Thread t = S_Get).
Proof.
  split; eexists _, _, _.
  - split; [vm_compute; reflexivity|].
    split; [vm_compute; reflexivity|].
    split; [vm_compute; reflexivity|].
    repeat split; vm_compute; reflexivity.
  - split; [vm_compute; reflexivity|].
    split; [vm_compute; reflexivity|].
    split; [vm_compute; reflexivity|].
    repeat split; vm_compute; reflexivity.
Qed.

(** C5.  Closing the writer is a barrier.  Whenever the main thread is
    about to call [writer1.close()], every frame put on the write queue
    has already been passed to [writeFrame]: the queue is empty and the
    save thread holds nothing.  And in every reachable state, a writer
    that has seen [close] has seen, before it and in order, one
    [writeFrame] for each frame ever put on its queue, and nothing
    after. *)
Theorem close_is_barrier cfg s j t :
  Reachable cfg s → trials s !! j = Some t →
  (∀ i, main s = M_InTrial j (P_Close i) →
        written t = relayed t ∧ imageWriteQueue1 t = []
        ∧ save_held (save1Thread t) = [])
  ∧ (close ∈ writer1 t → writer1 t = (writeFrame <$> relayed t) ++ [close]).
Proof.
  intros Hs%reachable_inv Hj. destruct Hs as [_ Ht]. specialize (Ht j t Hj).
  destruct Ht as [Hq Hw Hu _ _ _ _ Hmp Ho _ _]. split.
  - intros i Hm. rewrite Hm, view_same in Hmp, Hu.
    specialize (Hu (intact_view _ _)).
    destruct Hmp as (_ & _ & _ & _ & Hz). rewrite Hz in Hu.
    assert (imageWriteQueue1 t = []) as Hnil.
    { destruct (imageWriteQueue1 t); simpl in Hu; [done|lia]. }
    assert (save_held (save1Thread t) = []) as Hheld.
    { rewrite Hnil in Hu. destruct (save1Thread t); simpl in *; done || lia. }
    unfold pending in Hw. rewrite Hnil, Hheld in Hw. simpl in Hw.
    by rewrite app_nil_r in Hw.
  - intros Hclose. unfold outcome_inv in Ho.
    destruct (outcome t) as [[]|].
    + destruct Ho as [Hwr _]. rewrite Hwr in Hclose.
      by apply written_only_no_close in Hclose.
    + by destruct Ho.
    + rewrite Ho in Hclose. by apply written_only_no_close in Hclose.
Qed.

(** C5 at an orderly trigger timeout: just before, and after, the call
    of [close]. *)
Lemma close_is_barrier_witness :
  ∃ s0 s1 t1 s2 t2,
    boot lab_fs morning "m1" [Trigger (frame 0); Quiet] = Running s0
    ∧ exec source_config (removelast orderly_timeout) s0 = Some s1
    ∧ trials s1 !! 0 = Some t1
    ∧ main s1 = M_InTrial 0 (P_Close 1)
    ∧ exec source_config orderly_timeout s0 = Some s2
    ∧ trials s2 !! 0 = Some t2
    ∧ close ∈ writer1 t2
    ∧ (written t1 = relayed t1 ∧ imageWriteQueue1 t1 = []
       ∧ save_held (save1Thread t1) = [])
    ∧ writer1 t2 = (writeFrame <$> relayed t2) ++ [close].
Proof.
  assert (∃ s0 s1 t1 s2 t2,
    boot lab_fs morning "m1" [Trigger (frame 0); Quiet] = Running s0
    ∧ exec source_config (removelast orderly_timeout) s0 = Some s1
    ∧ trials s1 !! 0 = Some t1
    ∧ main s1 = M_InTrial 0 (P_Close 1)
    ∧ exec source_config orderly_timeout s0 = Some s2
    ∧ trials s2 !! 0 = Some t2
    ∧ writer1 t2 = [writeFrame (frame 0); close])
    as (s0 & s1 & t1 & s2 & t2 & Hb & He1 & Hj1 & Hm & He2 & Hj2 & Hw).
  { eexists _, _, _, _, _.
    split; [vm_compute; reflexivity|]. split; [vm_compute; reflexivity|].
    split; [vm_compute; reflexivity|]. split; [vm_compute; reflexivity|].
    split; [vm_compute; reflexivity|]. split; vm_compute; reflexivity. }
  assert (close ∈ writer1 t2) as Hc by (rewrite Hw; repeat constructor).
  exists s0, s1, t1, s2, t2. repeat (split; [assumption|]).
  split.
  - apply (close_is_barrier source_config s1 0 t1) with (i := 1);
      [by eapply reachable_intro | assumption | assumption].
  - apply (close_is_barrier source_config s2 0 t2);
      [by eapply reachable_intro | assumption | assumption].
Defined.





(** C7.  In every trial the call at index 0 is given the infinite
    timeout and every later call the bounded one; the [n]-th call of a
    capture thread has index [n], so each trial starts again at 0; and
    a thread at the top of its loop is at the index that comes next. *)
Theorem first_call_infinite_rest_bounded cfg s j t :
  Reachable cfg s → trials s !! j = Some t →
  (∀ n c, calls t !! n = Some c →
          c_index c = n
          ∧ c_policy c = match n with
                         | 0 => Infinite
                         | S _ => Bounded (CAM_TIMEOUT cfg)
                         end)
  ∧ (∀ k, cam1Thread t = C_Loop k → k = length (calls t)).
Proof.
  intros Hs%reachable_inv Hj. destruct Hs as [_ Ht]. specialize (Ht j t Hj).
  destruct Ht as [_ _ _ _ Hci _ Hcp _ _ _ _]. split.
  - intros n c Hn. by destruct (Hci n c Hn) as [Hi Hp].
  - intros k Hk. unfold cap_pc_inv in Hcp. rewrite Hk in Hcp. by destruct Hcp.
Qed.

(** C7 after three frames of a trial. *)
Lemma first_call_infinite_rest_bounded_witness :
  ∃ s0 s t,
    boot lab_fs morning "m1" (triggers 3) = Running s0
    ∧ exec source_config (start_trial ++ mjoin (replicate 3 (frame_round 0))) s0
      = Some s
    ∧ trials s !! 0 = Some t
    ∧ c_policy <$> calls t = [Infinite; Bounded 100; Bounded 100]
    ∧ (∀ n c, calls t !! n = Some c →
              c_index c = n
              ∧ c_policy c = match n with
                             | 0 => Infinite
                             | S _ => Bounded (CAM_TIMEOUT source_config)
                             end)
    ∧ (∀ k, cam1Thread t = C_Loop k → k = length (calls t)).
Proof.
  assert (∃ s0 s t,
    boot lab_fs morning "m1" (triggers 3) = Running s0
    ∧ exec source_config (start_trial ++ mjoin (replicate 3 (frame_round 0))) s0
      = Some s
    ∧ trials s !! 0 = Some t
    ∧ c_policy <$> calls t = [Infinite; Bounded 100; Bounded 100])
    as (s0 & s & t & Hb & He & Hj & Hp).
  { eexists _, _, _.
    split; [vm_compute; reflexivity|]. split; [vm_compute; reflexivity|].
    split; vm_compute; reflexivity. }
  exists s0, s, t. repeat (split; [assumption|]).
  apply (first_call_infinite_rest_bounded source_config s 0 t);
    [by eapply reachable_intro | assumption].
Defined.

(** C8.  Whatever the interleaving, the frames of a trial keep their
    capture order through every stage: the retrieved frames carry the
    indices 0, 1, 2, ... and are, in this order, the frames written,
    the frame the save thread holds, the write queue, the frame the
    main thread holds, the capture queue, the frame the capture thread
    holds.  So the frames written are always the first retrieved ones,
    in the order of capture. *)
Theorem frames_written_in_capture_order cfg s j t :
  Reachable cfg s → trials s !! j = Some t →
  (captured t).*1 = seq 0 (length (captured t))
  ∧ (∃ lost, retrieved t
             = written t ++ save_held (save1Thread t) ++ pending t
               ++ main_held (view (main s) j) ++ lost ++ cam1Queue t
               ++ cap_held (cam1Thread t))
  ∧ written t = take (length (written t)) (retrieved t).
Proof.
  intros Hs%reachable_inv Hj. destruct Hs as [_ Ht]. specialize (Ht j t Hj).
  destruct Ht as [_ Hw _ (lost & Hc & _) _ Hcap _ _ _ _ _].
  rewrite Hw in Hc. rewrite <- !app_assoc in Hc.
  split; [done|]. split; [by exists lost|].
  rewrite Hc. by rewrite take_app_length.
Qed.

(** C8 with one frame written, one held by the main thread and one in
    the capture queue. *)
Lemma frames_written_in_capture_order_witness :
  ∃ s0 s t,
    boot lab_fs morning "m1" (triggers 3) = Running s0
    ∧ exec source_config
        (start_trial ++ frame_round 0 ++ capture_one 0 ++ capture_one 0
         ++ removelast relay_one) s0 = Some s
    ∧ trials s !! 0 = Some t
    ∧ retrieved t = [frame 0; frame 1; frame 2]
    ∧ written t = [frame 0]
    ∧ ((captured t).*1 = seq 0 (length (captured t))
       ∧ (∃ lost, retrieved t
                  = written t ++ save_held (save1Thread t) ++ pending t
                    ++ main_held (view (main s) 0) ++ lost ++ cam1Queue t
                    ++ cap_held (cam1Thread t))
       ∧ written t = take (length (written t)) (retrieved t)).
Proof.
  assert (∃ s0 s t,
    boot lab_fs morning "m1" (triggers 3) = Running s0
    ∧ exec source_config
        (start_trial ++ frame_round 0 ++ capture_one 0 ++ capture_one 0
         ++ removelast relay_one) s0 = Some s
    ∧ trials s !! 0 = Some t
    ∧ retrieved t = [frame 0; frame 1; frame 2]
    ∧ written t = [frame 0])
    as (s0 & s & t & Hb & He & Hj & Hr & Hw).
  { eexists _, _, _.
    split; [vm_compute; reflexivity|]. split; [vm_compute; reflexivity|].
    split; [vm_compute; reflexivity|]. split; vm_compute; reflexivity. }
  exists s0, s, t. repeat (split; [assumption|]).
  apply (frames_written_in_capture_order source_config s 0 t);
    [by eapply reachable_intro | assumption].
Defined.

(** C9 (code defect).  File names are claimed to depend on the time of
    the session, so that two sessions started at different times never
    share a name and nothing is overwritten.  [movieName1] is built from
    the mouse ID, [dateStr] and the trial index; [timeStr] is computed
    at line 75 and never used.  Two sessions for the same mouse on the
    same day, started half an hour apart: the second finds the folder
    of the first, is not refused, uses the same folder and the same
    name for every trial, and opens its first writer on the file the
    first session wrote. *)
Theorem same_day_sessions_share_file_names :
  ∃ s1 s2,
    boot lab_fs morning "m1" [] = Running s1
    ∧ boot (fs s1) same_day_later "m1" [] = Running s2
    ∧ timeStr (session s1) = "09_30_59"%string
    ∧ timeStr (session s2) = "10_00_00"%string
    ∧ saveFolder (session s2) = saveFolder (session s1)
    ∧ (∀ j, movieName1 (session s2) j = movieName1 (session s1) j)
    ∧ movieName1 (session s1) 0 = "m1_2020_01_01_bottom_0.mp4"%string
    ∧ trace <$> exec source_config [Main] s2
      = Some [E_InitCam; E_Window;
              E_FFmpegWriter "m1_2020_01_01_bottom_0.mp4"].
Proof.
  eexists _, _.
  split; [vm_compute; reflexivity|].
  split; [vm_compute; reflexivity|].
  split; [vm_compute; reflexivity|].
  split; [vm_compute; reflexivity|].
  split; [vm_compute; reflexivity|].
  split; [intros j; reflexivity|].
  split; vm_compute; reflexivity.
Qed.




(** * Further properties of the code *)

(** ** The globals read by the main thread *)

Section Control.
Variable cfg : Config.

(** Induction over the reachable states, with the invariant of the
    pipeline at hand. *)
Lemma reachable_induction (P : State → Prop) :
  (∀ fs ses dev, P (init_state fs ses dev)) →
  (∀ e s s', inv cfg s → P s → step cfg e s = Some s' → P s') →
  ∀ s, Reachable cfg s → P s.
Proof.
  intros Hinit Hstep s (fs & now & mouse & dev & s0 & evs & Hboot & Hexec).
  unfold boot in Hboot.
  destruct (setup_folders fs now mouse) as [fs' [ses|e]]; simplify_eq.
  assert (inv cfg (init_state fs' ses dev)) as Hinv by apply init_inv.
  specialize (Hinit fs' ses dev).
  revert Hinv Hinit Hexec. generalize (init_state fs' ses dev).
  induction evs as [|e evs IH]; intros s0 Hinv H0 Hexec; simpl in Hexec.
  - by simplify_eq.
  - destruct (step cfg e s0) as [s1|] eqn:Hs; [|done].
    eapply IH; [by eapply step_inv | by eapply Hstep | done].
Qed.

Lemma queue_ready_insert j j' t t' trs :
  trs !! j' = Some t → (cam1Queue t ≠ [] → cam1Queue t' ≠ []) →
  queue_ready j trs → queue_ready j (<[j':=t']> trs).
Proof.
  intros Hj' Hq (t0 & Hj & Hne). unfold queue_ready.
  destruct (decide (j = j')) as [->|Hneq].
  - exists t'. rewrite list_lookup_insert_eq by (by eapply lookup_lt_Some).
    split; [done|]. apply Hq. by simplify_eq.
  - exists t0. by rewrite list_lookup_insert_ne.
Qed.

Lemma relayed_insert j t t' (trs : list Trial) :
  trs !! j = Some t → relayed t' = relayed t →
  Forall (λ t, relayed t = []) trs →
  Forall (λ t, relayed t = []) (<[j:=t']> trs).
Proof.
  intros Hj Hr Hall. apply Forall_insert; [done|].
  rewrite Hr. by eapply (Forall_lookup_1 _ _ _ _ Hall).
Qed.

Lemma main_ctl_thread s s' :
  main s' = main s → tStart s' = tStart s →
  (tEnd s' = tEnd s ∨ tEnd s' = Some 1) →
  (∀ j, queue_ready j (trials s) → queue_ready j (trials s')) →
  main_ctl s → main_ctl s'.
Proof.
  unfold main_ctl. intros -> -> He Hq H.
  destruct (main s) as [j|j p| |p| |e]; try done.
  destruct p; try done;
    destruct He as [-> | ->]; intuition (auto || congruence).
Qed.

Lemma camCapture_step_ctl j s s' :
  ctl_ok s → camCapture_step cfg j s = Some s' → ctl_ok s'.
Proof.
  unfold camCapture_step. intros [He Hm Hs] Hstep.
  destruct (trials s !! j) as [t|] eqn:Hj; [|done].
  destruct (cam1Thread t) as [|k|k img| |e] eqn:Hc; try done.
  - destruct (device s) as [|ev dev]; [done|].
    destruct (k =? 0);
      [destruct (GetNextImage Infinite ev) as [[img|e]|]
      |destruct (GetNextImage (Bounded (CAM_TIMEOUT cfg)) ev) as [[img|e]|]];
      simplify_eq.
    all: split; simpl;
      [ auto
      | eapply main_ctl_thread; [..|exact Hm]; simpl; auto;
        intros; by (eapply queue_ready_insert)
      | intros Hf; try (eapply relayed_insert; [done|done|]); auto ].
  - simplify_eq. split; simpl; [done| |].
    + eapply main_ctl_thread; [..|exact Hm]; simpl; auto.
      intros. eapply queue_ready_insert; [done| |done].
      simpl. unfold queue_put. by destruct (cam1Queue t).
    + intros Hf. eapply relayed_insert; [done|done|]. auto.
Qed.

Lemma saveImage_trial_capture_side t t' :
  saveImage_trial t = Some t' → same_capture_side t t'.
Proof.
  unfold saveImage_trial. intros H.
  destruct (save1Thread t); try done.
  - destruct (imageWriteQueue1 t) as [|[img|] q]; by simplify_eq.
  - by simplify_eq.
  - destruct (unfinished_tasks t); by simplify_eq.
Qed.

Lemma saveImage_step_ctl j s s' :
  ctl_ok s → saveImage_step j s = Some s' → ctl_ok s'.
Proof.
  unfold saveImage_step. intros [He Hm Hs] Hstep.
  destruct (trials s !! j) as [t|] eqn:Hj; [|done].
  destruct (saveImage_trial t) as [t'|] eqn:Ht; [|done]. simplify_eq.
  apply saveImage_trial_capture_side in Ht as (_ & Hr & _ & Hq & _).
  split; simpl; [done| |].
  - eapply main_ctl_thread; [..|exact Hm]; simpl; auto.
    intros. eapply queue_ready_insert; [done| |done]. by rewrite Hq.
  - intros Hf. eapply relayed_insert; [done|done|]. auto.
Qed.

Lemma interrupt_step_ctl s s' :
  ctl_ok s → interrupt_step s = Some s' → ctl_ok s'.
Proof.
  unfold interrupt_step. intros [He Hm Hs] Hstep.
  destruct (main s) eqn:Hmain; simplify_eq; split; simpl; auto;
    unfold main_ctl; simpl; auto.
Qed.

Lemma main_step_ctl s s' :
  inv cfg s → ctl_ok s → main_step cfg s = Some s' → ctl_ok s'.
Proof.
  intros Hinv [He Hm Hs] Hstep. unfold main_step in Hstep.
  unfold main_ctl in Hm.
  destruct (main s) as [j|j p| |p| |e] eqn:Hmain.
  - destruct (j <? TRIALS_TO_RECORD cfg); simplify_eq;
      (split; simpl; [done|done|]); [|done].
    intros Hf. apply Forall_app. split; [auto|]. by repeat constructor.
  - destruct (trials s !! j) as [t|] eqn:Hj; [|done].
    destruct Hinv as [_ Htr]. specialize (Htr j t Hj).
    rewrite Hmain, view_same in Htr.
    destruct Htr as [_ _ _ _ _ _ _ Hmp _ _ _].
    destruct p; simpl in Hstep.
    + simplify_eq. split; simpl; [done|done|].
      intros Hf. eapply relayed_insert; [done|done|]. auto.
    + simplify_eq. by split.
    + simplify_eq. split; simpl; [done|done|].
      intros Hf. eapply relayed_insert; [done|done|]. auto.
    + simplify_eq. split; simpl; [auto|done|done].
    + destruct (i <? FRAMES_TO_RECORD cfg); simplify_eq;
        (split; simpl; [done|done|]); [done|].
      intros Hf. eapply relayed_insert; [done|done|]. auto.
    + destruct (cam1Queue t) eqn:Hq; simplify_eq;
        (split; simpl; [done| |done]); unfold main_ctl; simpl; [done|].
      split; [done|]. right. exists t. by rewrite Hq.
    + destruct (tEnd s) as [v|] eqn:Hv; [|done].
      destruct (Nat.eqb_spec v 1) as [->|Hne]; simplify_eq;
        (split; simpl; [by rewrite Hv| |done]); unfold main_ctl; simpl;
        rewrite Hv; auto.
    + destruct Hm as [Hne Hm].
      destruct (tEnd s) as [v|] eqn:Hv; [|done].
      destruct (Nat.eqb_spec v 1) as [->|Hne']; simplify_eq;
        (split; simpl; [by rewrite Hv| |done]); unfold main_ctl; simpl;
        rewrite Hv; [done|].
      split; [done|]. destruct Hm as [?|?]; [congruence|done].
    + simplify_eq. by split.
    + destruct (unfinished_tasks t); simplify_eq. by split.
    + simplify_eq. split; simpl; [done|done|].
      intros Hf. eapply relayed_insert; [done|done|]. auto.
    + destruct Hm as [Hne Hm].
      destruct (Nat.eqb_spec i 0) as [->|Hi]; simplify_eq;
        (split; simpl; [done| |]); unfold main_ctl; simpl; auto.
      * done.
      * split; [done|]. split; [done|].
        destruct (tStart s) eqn:Hts; [done|].
        destruct Hmp as (_ & _ & Hlen & _).
        specialize (Hs eq_refl).
        rewrite (Forall_lookup_1 _ _ _ _ Hs Hj) in Hlen. simpl in Hlen. lia.
    + destruct Hm as (Hne & Hm & Hts).
      destruct (cam1Queue t) as [|img q]; simplify_eq.
      split; simpl; [done| |].
      * unfold main_ctl. simpl. done.
      * intros Hf. congruence.
    + destruct Hm as (Hne & Hts). simplify_eq. split; simpl; [done| |].
      * unfold main_ctl. simpl. done.
      * intros Hf. congruence.
    + destruct Hm as (Hne & Hts). simplify_eq. split; simpl; [done| |done].
      unfold main_ctl. simpl. done.
  - simplify_eq. by split.
  - simplify_eq. destruct p; simpl.
    + by split.
    + destruct (tStart s) eqn:Hts; split; simpl; rewrite ?Hts; try done;
        unfold main_ctl; simpl; auto.
    + by split.
    + by split.
    + by split.
  - done.
  - done.
Qed.

Lemma interrupt_in_put_step_ctl s s' :
  ctl_ok s → interrupt_in_put_step s = Some s' → ctl_ok s'.
Proof.
  intros [He Hm Hs] (j & i & img & t & Hmain & Hj & ->)%interrupt_in_put_step_eq.
  unfold main_ctl in Hm. rewrite Hmain in Hm. destruct Hm as [_ Hts].
  split; simpl; [done|by unfold main_ctl|]. intros Hf. congruence.
Qed.

Lemma step_ctl e s s' :
  inv cfg s → ctl_ok s → step cfg e s = Some s' → ctl_ok s'.
Proof.
  destruct e; simpl;
    eauto using main_step_ctl, camCapture_step_ctl, saveImage_step_ctl,
                interrupt_step_ctl, interrupt_in_put_step_ctl.
Qed.

Lemma reachable_ctl s : Reachable cfg s → ctl_ok s.
Proof.
  apply reachable_induction; [|apply step_ctl].
  intros fs ses dev. split; simpl; auto. by unfold main_ctl.
Qed.

End Control.

(** ** File names and the window *)

Section Names.
Variable cfg : Config.

Lemma opened_app tr1 tr2 : opened (tr1 ++ tr2) = opened tr1 ++ opened tr2.
Proof. apply omap_app. Qed.

Lemma names_insert ses j t t' (trs : list Trial) :
  trs !! j = Some t → t_name t' = t_name t →
  (∀ j t, trs !! j = Some t → t_name t = movieName1 ses j) →
  ∀ i t0, <[j:=t']> trs !! i = Some t0 → t_name t0 = movieName1 ses i.
Proof.
  intros Hj Hn H i t0 Hi. destruct (decide (i = j)) as [->|Hne].
  - rewrite list_lookup_insert_eq in Hi by (by eapply lookup_lt_Some).
    simplify_eq. rewrite Hn. by apply H.
  - rewrite list_lookup_insert_ne in Hi by done. by apply H.
Qed.

Ltac names_thread Hj :=
  split; simpl;
  [ by rewrite length_insert
  | eapply names_insert; [exact Hj|done|done]
  | rewrite ?opened_app, ?length_insert; simpl; by rewrite ?app_nil_r ].

Lemma display_opens_nothing i : opened (display_effects cfg i) = [].
Proof.
  unfold display_effects.
  by destruct (S i mod WINDOW_UPDATE_EVERY =? 0),
              (S i =? FRAMES_TO_RECORD cfg).
Qed.

Lemma step_names e s s' :
  inv cfg s → names_ok cfg s → step cfg e s = Some s' → names_ok cfg s'.
Proof.
  intros Hinv [Hn Ht Ho] Hstep. destruct e as [|j|j| |]; simpl in Hstep.
  - unfold main_step in Hstep.
    destruct (main s) as [j|j p| |p| |e] eqn:Hmain.
    + destruct Hinv as [Hlen _]. rewrite Hmain in Hlen. simpl in Hlen.
      destruct (Nat.ltb_spec j (TRIALS_TO_RECORD cfg)); simplify_eq;
        [|by split].
      split; simpl.
      * rewrite length_app. simpl. lia.
      * intros i t [Hold | [Hle Hnew]]%lookup_app_Some; [by apply Ht|].
        apply list_lookup_singleton_Some in Hnew as [Hi <-]. simpl.
        f_equal. lia.
      * rewrite opened_app, Ho, length_app. simpl.
        by rewrite Nat.add_1_r, seq_S, fmap_app.
    + destruct (trials s !! j) as [t|] eqn:Hj; [|done].
      destruct p; simpl in Hstep;
        repeat case_match; simplify_eq; try (by split);
        try names_thread Hj.
      all: split; simpl; [done|done|].
      all: rewrite opened_app, ?display_opens_nothing; simpl.
      all: by rewrite app_nil_r.
    + simplify_eq. by split.
    + simplify_eq. destruct p; simpl; [|destruct (tStart s)|..];
        (split; simpl; [done|done|]);
        rewrite ?opened_app; simpl; by rewrite ?app_nil_r.
    + done.
    + done.
  - unfold camCapture_step, got_image in Hstep.
    repeat case_match; simplify_eq; try (by split);
      match goal with H : trials s !! j = Some _ |- _ => names_thread H end.
  - unfold saveImage_step, saveImage_trial in Hstep.
    repeat case_match; simplify_eq;
      match goal with H : trials s !! j = Some _ |- _ => names_thread H end.
  - unfold interrupt_step in Hstep.
    destruct (main s); try done; simplify_eq; by split.
  - apply interrupt_in_put_step_eq in Hstep
      as (j & i & img & t & Hmain & Hj & ->).
    names_thread Hj.
Qed.

Lemma reachable_names s : Reachable cfg s → names_ok cfg s.
Proof.
  apply reachable_induction; [|apply step_names].
  intros fs ses dev. split; simpl; [lia| |done].
  intros j t Hj. by destruct j.
Qed.

Lemma step_shown e s s' :
  inv cfg s → Forall (shown_ok cfg) (trace s) → step cfg e s = Some s' →
  Forall (shown_ok cfg) (trace s').
Proof.
  intros Hinv Hall Hstep. destruct e as [|j|j| |]; simpl in Hstep.
  - unfold main_step in Hstep.
    destruct (main s) as [j|j p| |p| |e] eqn:Hmain.
    + destruct (j <? TRIALS_TO_RECORD cfg); simplify_eq; simpl; [|done].
      apply Forall_app. split; [done|]. by repeat constructor.
    + destruct (trials s !! j) as [t|] eqn:Hj; [|done].
      destruct Hinv as [_ Htr]. specialize (Htr j t Hj).
      rewrite Hmain, view_same in Htr.
      destruct Htr as [_ _ _ _ _ _ _ Hmp _ _ _].
      destruct p; cbn [trial_step] in Hstep;
        repeat case_match; simplify_eq; cbn [trace set_main emit put_trial
          set_trials set_tEnd set_tStart]; try done;
        try (apply Forall_app; split; [done|]; by repeat constructor).
      destruct Hmp as (_ & _ & _ & Hi).
      apply Forall_app. split; [done|]. unfold display_effects.
      apply Forall_app. split.
      * destruct (Nat.eqb_spec (S i mod WINDOW_UPDATE_EVERY) 0);
          [|by constructor].
        constructor; [|by constructor]. simpl. split; [lia|done].
      * destruct (S i =? FRAMES_TO_RECORD cfg); by repeat constructor.
    + by simplify_eq.
    + simplify_eq. destruct p; simpl; [|destruct (tStart s)|..]; simpl;
        try done; (apply Forall_app; split; [done|]; by repeat constructor).
    + done.
    + done.
  - unfold camCapture_step, got_image in Hstep.
    repeat case_match; simplify_eq; simpl; try done.
    apply Forall_app; split; [done|]; by repeat constructor.
  - unfold saveImage_step in Hstep. repeat case_match; by simplify_eq.
  - unfold interrupt_step in Hstep. destruct (main s); by simplify_eq.
  - by apply interrupt_in_put_step_eq in Hstep as (? & ? & ? & ? & _ & _ & ->).
Qed.

End Names.

(** ** Names of different trials *)

Open Scope string_scope.

Lemma length_append (a b : string) :
  String.length (a +:+ b) = (String.length a + String.length b)%nat.
Proof.
  induction a as [|c a IH]; [done|].
  change (S (String.length (a +:+ b))
          = S (String.length a + String.length b)). by rewrite IH.
Qed.

Lemma string_app_inj_r (a b c : string) : a +:+ c = b +:+ c → a = b.
Proof.
  revert b. induction a as [|x a IH]; intros [|y b] H.
  - done.
  - change (c = String y (b +:+ c)) in H.
    apply (f_equal String.length) in H.
    simpl in H. rewrite length_append in H. lia.
  - change (String x (a +:+ c) = c) in H.
    apply (f_equal String.length) in H.
    simpl in H. rewrite length_append in H. lia.
  - change (String x (a +:+ c) = String y (b +:+ c)) in H.
    injection H as -> H. f_equal. by apply IH.
Qed.

Lemma movieName1_inj ses : Inj (=) (=) (movieName1 ses).
Proof.
  intros j j' H. unfold movieName1 in H.
  do 4 apply (inj (String.app _)) in H.
  apply string_app_inj_r in H. by apply (inj pretty) in H.
Qed.

Close Scope string_scope.

(** ** Trials that are over *)

Section Closed.
Variable cfg : Config.

Lemma closed_ok_same t t' :
  same_capture_side t t' → closed_ok cfg t → closed_ok cfg t'.
Proof.
  intros (Hc & Hr & Ho & Hq & Hp) [H1 H2 H3 H4].
  split; unfold retrieved, captured, cap_end_ok in *;
    rewrite ?Hc, ?Hr, ?Ho, ?Hq, ?Hp; done.
Qed.

Lemma closed_insert j t' (trs : list Trial) :
  (∀ i t, trs !! i = Some t → closed_ok cfg t) →
  closed_ok cfg t' →
  ∀ i t, <[j:=t']> trs !! i = Some t → closed_ok cfg t.
Proof.
  intros H Ht' i t Hi. destruct (decide (i = j)) as [->|Hne].
  - apply list_lookup_insert_Some in Hi as [(_ & <- & _)|[? _]]; done.
  - rewrite list_lookup_insert_ne in Hi by done. eauto.
Qed.

Lemma camCapture_step_closed j s s' :
  inv cfg s → (∀ i t, trials s !! i = Some t → closed_ok cfg t) →
  camCapture_step cfg j s = Some s' →
  ∀ i t, trials s' !! i = Some t → closed_ok cfg t.
Proof.
  unfold camCapture_step. intros [_ Hinv] Hall Hstep.
  destruct (trials s !! j) as [t|] eqn:Hj; [|done].
  destruct (Hall j t Hj) as [H1 H2 H3 H4].
  destruct (Hinv j t Hj) as [_ _ _ _ _ _ Hcp _ _ _ _].
  unfold cap_pc_inv in Hcp. unfold cap_end_ok in H4.
  destruct (cam1Thread t) as [|k|k img| |e] eqn:Hc; try done.
  - destruct Hcp as [Hk1 Hk2].
    destruct (device s) as [|ev dev]; [done|].
    destruct (Nat.eqb_spec k 0) as [->|Hk];
      [destruct (GetNextImage Infinite ev) as [[img|e]|]
      |destruct (GetNextImage (Bounded (CAM_TIMEOUT cfg)) ev) as [[img|e]|]];
      simplify_eq; simpl; try done; apply closed_insert; try done.
    all: split; [done|done| |]; unfold retrieved, cap_end_ok.
    all: rewrite ?captured_log_ok, ?captured_log_raised; simpl.
    all: try done.
    + intros Ho. rewrite fmap_app. unfold retrieved in H3.
      rewrite H3 by done. simpl. by rewrite !app_nil_r, <- app_assoc.
    + apply length_zero_iff_nil in Hk1. by rewrite Hk1.
    + intros Ho. rewrite fmap_app. unfold retrieved in H3.
      rewrite H3 by done. simpl. by rewrite !app_nil_r, <- app_assoc.
    + exists (calls t), e. split; [|split].
      * unfold failed_call, policy_at. by destruct (length (calls t)).
      * intros Hnil. by rewrite Hnil in Hk.
      * unfold captured in Hk2. lia.
  - simplify_eq. simpl. apply closed_insert; [done|].
    split; [done|done| |done].
    intros Ho. change (retrieved (set_cam1Thread _ _)) with (retrieved t).
    rewrite H3 by done. simpl. unfold queue_put. by rewrite app_nil_r.
Qed.

Lemma saveImage_step_closed j s s' :
  (∀ i t, trials s !! i = Some t → closed_ok cfg t) →
  saveImage_step j s = Some s' →
  ∀ i t, trials s' !! i = Some t → closed_ok cfg t.
Proof.
  unfold saveImage_step. intros Hall Hstep.
  destruct (trials s !! j) as [t|] eqn:Hj; [|done].
  destruct (saveImage_trial t) as [t'|] eqn:Ht; [|done]. simplify_eq.
  simpl. apply closed_insert; [done|].
  eapply closed_ok_same; [by apply saveImage_trial_capture_side|eauto].
Qed.

Lemma main_step_closed s s' :
  inv cfg s → (∀ i t, trials s !! i = Some t → closed_ok cfg t) →
  main_step cfg s = Some s' →
  ∀ i t, trials s' !! i = Some t → closed_ok cfg t.
Proof.
  intros Hinv Hall Hstep. unfold main_step in Hstep.
  destruct (main s) as [j|j p| |p| |e] eqn:Hmain.
  - destruct (j <? TRIALS_TO_RECORD cfg); simplify_eq; simpl; [|done].
    intros i t [Hold | [Hle Hnew]]%lookup_app_Some; [eauto|].
    apply list_lookup_singleton_Some in Hnew as [_ <-].
    split; simpl; [lia|done|done|done].
  - destruct (trials s !! j) as [t|] eqn:Hj; [|done].
    destruct Hinv as [_ Htr]. specialize (Htr j t Hj).
    rewrite Hmain, view_same in Htr.
    destruct Htr as [_ _ _ (lost & Hc & Hlost) _ _ _ Hmp _ _ _].
    rewrite Hlost in Hc by done.
    destruct (Hall j t Hj) as [H1 H2 H3 H4].
    destruct Hmp as (Hout & _ & Hmp).
    destruct p; cbn [trial_step] in Hstep; repeat case_match; simplify_eq;
      cbn [trials set_main emit put_trial set_trials set_tEnd set_tStart];
      try done; apply closed_insert; try done.
    + destruct Hmp as (Hlen & Hlt & _).
      split; simpl; [done|lia| |done]. intros _.
      change (retrieved (set_outcome _ _)) with (retrieved t). by rewrite Hc.
    + destruct Hmp as (Hlen & Hlt).
      split; simpl; [|by rewrite Hout|by rewrite Hout|done].
      rewrite length_app. simpl. lia.
  - by simplify_eq.
  - simplify_eq. destruct p; simpl; [|destruct (tStart s)|..]; done.
  - done.
  - done.
Qed.

Lemma step_closed e s s' :
  inv cfg s → (∀ i t, trials s !! i = Some t → closed_ok cfg t) →
  step cfg e s = Some s' →
  ∀ i t, trials s' !! i = Some t → closed_ok cfg t.
Proof.
  destruct e; simpl;
    eauto using main_step_closed, camCapture_step_closed,
                saveImage_step_closed.
  - unfold interrupt_step. intros _ Hall Hstep.
    destruct (main s); by simplify_eq.
  - intros [_ Htr] Hall
      (j & i & img & t & Hmain & Hj & ->)%interrupt_in_put_step_eq.
    specialize (Htr j t Hj). rewrite Hmain, view_same in Htr.
    destruct Htr as [_ _ _ _ _ _ _ (Hout & _ & Hlen & Hlt) _ _ _].
    destruct (Hall j t Hj) as [H1 H2 H3 H4].
    simpl. apply closed_insert; [done|].
    split; simpl; [|by rewrite Hout|by rewrite Hout|done].
    rewrite length_app. simpl. lia.
Qed.

Lemma reachable_closed s j t :
  Reachable cfg s → trials s !! j = Some t → closed_ok cfg t.
Proof.
  intros Hs. revert j t. revert s Hs.
  apply (reachable_induction cfg
           (λ s, ∀ j t, trials s !! j = Some t → closed_ok cfg t)).
  - intros fs ses dev j t Hj. by destruct j.
  - intros e s s' Hinv Hall Hstep. by eapply step_closed.
Qed.

End Closed.

(** ** Polling without a capture thread *)

Section Polling.
Variable cfg : Config.

Lemma step_polling j i e s s' :
  polling j i s → e ≠ CtrlC → step cfg e s = Some s' →
  polling j i s' ∧ trace s' = trace s ∧ device s' = device s.
Proof.
  intros [Hm He (t & Hj & Hq) Hall] Hne Hstep.
  destruct e as [|j'|j'| |]; simpl in Hstep; [| | |done|].
  - unfold main_step in Hstep.
    destruct Hm as [Hm|Hm]; rewrite Hm, Hj in Hstep; simpl in Hstep.
    + rewrite Hq in Hstep. simplify_eq.
      split; [|done]. split; simpl; eauto.
    + rewrite He in Hstep. simpl in Hstep. simplify_eq.
      split; [|done]. split; simpl; eauto.
  - unfold camCapture_step in Hstep.
    destruct (trials s !! j') as [t'|] eqn:Hj'; [|done].
    pose proof (Forall_lookup_1 _ _ _ _ Hall Hj') as Hover.
    simpl in Hover. by destruct (cam1Thread t').
  - unfold saveImage_step in Hstep.
    destruct (trials s !! j') as [t'|] eqn:Hj'; [|done].
    destruct (saveImage_trial t') as [t''|] eqn:Ht; [|done]. simplify_eq.
    apply saveImage_trial_capture_side in Ht as (_ & _ & _ & Hq' & Hc').
    split; [|done]. split; simpl; [done|done| |].
    + destruct (decide (j = j')) as [->|Hjj].
      * exists t''. rewrite list_lookup_insert_eq by (by eapply lookup_lt_Some).
        split; [done|]. rewrite Hq'. by simplify_eq.
      * exists t. by rewrite list_lookup_insert_ne.
    + apply Forall_insert; [done|]. rewrite Hc'.
      by apply (Forall_lookup_1 _ _ _ _ Hall Hj').
  - unfold interrupt_in_put_step in Hstep.
    destruct Hm as [Hm|Hm]; by rewrite Hm in Hstep.
Qed.

End Polling.

(** ** Orderly runs of any length *)

Section Orderly.
Variable cfg : Config.

Ltac run_step H1 H2 H3 :=
  erewrite exec_step_eq;
  [| cbv -[Nat.ltb Nat.eqb Nat.modulo str display_effects String.append
           app movieName1 FRAMES_TO_RECORD TRIALS_TO_RECORD CAM_TIMEOUT];
     rewrite ?H1, ?H2, ?H3, ?Nat.ltb_irrefl; cbn [app]; reflexivity ].

Lemma start_kept_up fs ses dev :
  0 < TRIALS_TO_RECORD cfg →
  ∃ s, exec cfg start_trial (init_state fs ses dev) = Some s
       ∧ kept_up [] dev s.
Proof.
  intros Ht%Nat.ltb_lt. unfold start_trial, init_state.
  do 5 run_step Ht Ht Ht.
  eexists. split; [reflexivity|].
  unfold kept_up. do 9 eexists. split; [reflexivity|]. done.
Qed.

Lemma round_kept_up imgs img dev s :
  kept_up imgs (Trigger img :: dev) s → length imgs < FRAMES_TO_RECORD cfg →
  ∃ s', exec cfg (frame_round 0) s = Some s' ∧ kept_up (imgs ++ [img]) dev s'.
Proof.
  intros (fs & ses & b & name & w & cs & rel & tr & i & -> & Hi & Hw & Hr & Hc)
    Hlt.
  rewrite <- Hi in Hlt. apply Nat.ltb_lt in Hlt.
  unfold frame_round, capture_one, relay_one, save_one. cbn [app].
  destruct (i =? 0) eqn:Hz.
  all: do 12 run_step Hlt Hz Hz.
  all: eexists; (split; [reflexivity|]).
  all: unfold kept_up; do 9 eexists; (split; [reflexivity|]).
  all: rewrite omap_app, !fmap_app, length_app, Hc, Hw, Hr, Hi; simpl.
  all: repeat split; lia.
Qed.

Lemma rounds_kept_up more :
  ∀ imgs dev s,
    kept_up imgs ((Trigger <$> more) ++ dev) s →
    length imgs + length more ≤ FRAMES_TO_RECORD cfg →
    ∃ s', exec cfg (mjoin (replicate (length more) (frame_round 0))) s
          = Some s'
          ∧ kept_up (imgs ++ more) dev s'.
Proof.
  induction more as [|img more IH]; intros imgs dev s Hs Hle;
    cbn [length fmap list_fmap app] in *.
  - exists s. by rewrite app_nil_r.
  - destruct (round_kept_up imgs img _ s Hs) as (s1 & He1 & Hs1); [lia|].
    destruct (IH (imgs ++ [img]) dev s1 Hs1) as (s2 & He2 & Hs2).
    { rewrite length_app. simpl. lia. }
    exists s2.
    change (mjoin (replicate (S (length more)) (frame_round 0)))
      with (frame_round 0 ++ mjoin (replicate (length more) (frame_round 0))).
    rewrite exec_app, He1, He2.
    split; [done|]. by rewrite <- app_assoc in Hs2.
Qed.

Lemma timeout_kept_up imgs dev s :
  kept_up imgs (Quiet :: dev) s →
  0 < length imgs < FRAMES_TO_RECORD cfg →
  ∃ s' t,
    exec cfg ([Cam 0] ++ finish_on_tEnd) s = Some s'
    ∧ trials s' = [t] ∧ main s' = M_ForJ 1 ∧ device s' = dev
    ∧ outcome t = Some TimedOut
    ∧ writer1 t = (writeFrame <$> imgs) ++ [close]
    ∧ retrieved t = imgs
    ∧ cam1Queue t = [] ∧ cam1Thread t = C_Done.
Proof.
  intros (fs & ses & b & name & w & cs & rel & tr & i & -> & Hi & Hw & Hr & Hc)
    [Hpos Hlt].
  rewrite <- Hi in Hlt, Hpos. apply Nat.ltb_lt in Hlt.
  assert ((i =? 0) = false) as Hz by (apply Nat.eqb_neq; lia).
  unfold finish_on_tEnd. cbn [app].
  do 8 run_step Hlt Hz Hz.
  eexists _, _. split; [reflexivity|]. cbn.
  repeat (split; [done|]). split; [by rewrite Hw|]. split; [|done].
  unfold retrieved, captured. cbn [calls].
  rewrite omap_app. simpl. by rewrite app_nil_r.
Qed.

Lemma stale_kept_up imgs dev s :
  kept_up imgs (Quiet :: dev) s →
  length imgs = FRAMES_TO_RECORD cfg → 0 < FRAMES_TO_RECORD cfg →
  1 < TRIALS_TO_RECORD cfg →
  ∃ s' t0 t1,
    exec cfg ([Main] ++ start_trial ++ [Cam 0] ++ finish_on_tEnd) s = Some s'
    ∧ trials s' = [t0; t1] ∧ main s' = M_ForJ 2 ∧ device s' = dev
    ∧ outcome t0 = Some Completed
    ∧ writer1 t0 = writeFrame <$> imgs
    ∧ retrieved t0 = imgs
    ∧ cam1Thread t0 = C_Done
    ∧ outcome t1 = Some TimedOut
    ∧ calls t1 = [] ∧ writer1 t1 = [close] ∧ cam1Thread t1 = C_Loop 0.
Proof.
  intros (fs & ses & b & name & w & cs & rel & tr & i & -> & Hi & Hw & Hr & Hc)
    Hlen Hpos Htr.
  assert (i = FRAMES_TO_RECORD cfg) as -> by congruence.
  assert ((FRAMES_TO_RECORD cfg =? 0) = false) as Hz
    by (apply Nat.eqb_neq; lia).
  apply Nat.ltb_lt in Hpos, Htr.
  unfold start_trial, finish_on_tEnd. cbn [app].
  do 14 run_step Hpos Hz Htr.
  eexists _, _, _. split; [reflexivity|]. cbn.
  repeat (split; [done|]). split; [|done].
  unfold retrieved, captured. cbn [calls].
  rewrite omap_app. simpl. by rewrite app_nil_r.
Qed.

End Orderly.

(** ** Draining the write queue *)

Section Drain.
Variable cfg : Config.

(** A started save thread that is scheduled long enough ends up idle
    on an empty queue. *)
Lemma save_drain_idle v t :
  trial_inv cfg v t → intact v t → save1Thread t ≠ S_NotStarted →
  ∃ n t', save_run n t = Some t'
          ∧ imageWriteQueue1 t' = [] ∧ save1Thread t' = S_Get
          ∧ same_capture_side t t'.
Proof.
  intros [Hq Hw Hu _ _ _ _ _ _ Hsp Hst] Hin Hns. specialize (Hu Hin).
  unfold save_pc_inv in Hsp.
  destruct (save1Thread t) as [| |img| | |e] eqn:Hpc;
    [done| | | |done|by destruct Hsp as (_ & ? & _)].
  - destruct (drain_from_get (imageWriteQueue1 t) t)
      as (n & t' & Hrun & _ & Hnil & Hget & Hsame); [done..|simpl in Hu; lia|].
    by exists n, t'.
  - simpl in Hu.
    destruct (unfinished_tasks t) as [|u] eqn:Hu'; [lia|].
    set (t3 := set_save1Thread S_Get
                 (set_unfinished_tasks u
                    (set_save1Thread S_TaskDone
                       (set_writer1 (writer1 t ++ [writeFrame img]) t)))).
    destruct (drain_from_get (imageWriteQueue1 t) t3)
      as (n & t' & Hrun & _ & Hnil & Hget & Hsame);
      [done|done|done|simpl; lia|].
    exists (2 + n), t'. split; [|done].
    rewrite save_run_app. simpl. unfold saveImage_trial at 1. rewrite Hpc.
    unfold saveImage_trial at 1. simpl. by rewrite Hu'.
  - simpl in Hu.
    destruct (unfinished_tasks t) as [|u] eqn:Hu'; [lia|].
    set (t3 := set_save1Thread S_Get (set_unfinished_tasks u t)).
    destruct (drain_from_get (imageWriteQueue1 t) t3)
      as (n & t' & Hrun & _ & Hnil & Hget & Hsame);
      [done|done|done|simpl; lia|].
    exists (1 + n), t'. split; [|done].
    rewrite save_run_app. simpl. unfold saveImage_trial at 1.
    by rewrite Hpc, Hu'.
Qed.

End Drain.

Lemma written_of_frames (l : list NpImage) :
  omap written_frame (writeFrame <$> l) = l.
Proof. induction l as [|x l IH]; simpl; [done|]. f_equal. exact IH. Qed.

(** ** Acquisition and clean-up calls *)

Section Acquisition.
Variable cfg : Config.

Lemma acquiring_snoc tr e :
  acquiring (tr ++ [e]) = acquiring_after (acquiring tr) e.
Proof. unfold acquiring. by rewrite foldl_app. Qed.

Lemma acquiring_display tr i :
  acquiring (tr ++ display_effects cfg i) = acquiring tr.
Proof.
  unfold display_effects, acquiring. rewrite !foldl_app.
  by destruct (S i mod WINDOW_UPDATE_EVERY =? 0),
              (S i =? FRAMES_TO_RECORD cfg).
Qed.

Lemma completed_before_insert j j' t t' (trs : list Trial) :
  trs !! j' = Some t → outcome t' = outcome t →
  completed_before j (<[j':=t']> trs) = completed_before j trs.
Proof.
  intros Hj' Ho. destruct j as [|j0]; [done|]. simpl.
  destruct (decide (j0 = j')) as [->|Hne].
  - rewrite list_lookup_insert_eq by (by eapply lookup_lt_Some).
    by rewrite Hj', Ho.
  - by rewrite list_lookup_insert_ne.
Qed.

Lemma completed_before_self j t' (trs : list Trial) :
  completed_before j (<[j:=t']> trs) = completed_before j trs.
Proof.
  destruct j as [|j0]; [done|]. simpl.
  by rewrite list_lookup_insert_ne by lia.
Qed.

Lemma acq_ok_thread s s' :
  main s' = main s → acquiring (trace s') = acquiring (trace s) →
  (∀ j, completed_before j (trials s') = completed_before j (trials s)) →
  acq_ok s → acq_ok s'.
Proof.
  unfold acq_ok. intros -> -> Hc H.
  destruct (main s) as [j|j p| |p| |e]; try done.
  - by rewrite Hc.
  - destruct p; try done; by rewrite Hc.
Qed.

Lemma step_acq e s s' :
  inv cfg s → acq_ok s → step cfg e s = Some s' → acq_ok s'.
Proof.
  intros Hinv Hacq Hstep. destruct e as [|j|j| |]; simpl in Hstep.
  - unfold main_step in Hstep. unfold acq_ok in Hacq.
    destruct (main s) as [j|j p| |p| |e] eqn:Hmain.
    + destruct Hinv as [Hlen _]. rewrite Hmain in Hlen. simpl in Hlen.
      destruct (j <? TRIALS_TO_RECORD cfg); simplify_eq; [|done].
      unfold acq_ok. simpl. rewrite acquiring_snoc. simpl. rewrite Hacq.
      destruct (length (trials s)) as [|j0] eqn:Hl; [done|]. simpl.
      rewrite lookup_app_l by lia. done.
    + destruct (trials s !! j) as [t|] eqn:Hj; [|done].
      destruct p; cbn [trial_step] in Hstep; repeat case_match; simplify_eq;
        unfold acq_ok;
        cbn [main trials trace set_main emit put_trial set_trials set_tEnd
             set_tStart];
        rewrite ?acquiring_snoc, ?acquiring_display, ?completed_before_self;
        try done.
      * simpl. rewrite list_lookup_insert_eq by (by eapply lookup_lt_Some).
        done.
      * simpl. rewrite list_lookup_insert_eq by (by eapply lookup_lt_Some).
        done.
    + by simplify_eq.
    + simplify_eq. destruct p; simpl; [|destruct (tStart s)|..]; done.
    + done.
    + done.
  - unfold camCapture_step, got_image in Hstep.
    repeat case_match; simplify_eq; try done;
      (eapply acq_ok_thread; [..|exact Hacq]; simpl;
       [ done
       | by rewrite ?acquiring_snoc
       | intros; try done; by eapply completed_before_insert ]).
  - unfold saveImage_step in Hstep.
    destruct (trials s !! j) as [t|] eqn:Hj; [|done].
    destruct (saveImage_trial t) as [t'|] eqn:Ht; [|done]. simplify_eq.
    apply saveImage_trial_capture_side in Ht as (_ & _ & Ho & _).
    eapply acq_ok_thread; [..|exact Hacq]; simpl; [done|done|].
    intros. by eapply completed_before_insert.
  - unfold interrupt_step in Hstep.
    destruct (main s); by simplify_eq.
  - by apply interrupt_in_put_step_eq in Hstep as (? & ? & ? & ? & _ & _ & ->).
Qed.

Lemma reachable_acq s : Reachable cfg s → acq_ok s.
Proof. apply reachable_induction; [done|apply step_acq]. Qed.

Lemma cleanup_snoc tr e :
  cleanup (tr ++ [e]) = cleanup tr ++ (if is_cleanup e then [e] else []).
Proof.
  unfold cleanup. rewrite filter_app. f_equal.
  unfold filter. simpl. by destruct (is_cleanup e).
Qed.

Lemma cleanup_display tr i : cleanup (tr ++ display_effects cfg i) = cleanup tr.
Proof.
  unfold cleanup, display_effects. rewrite !filter_app.
  destruct (S i mod WINDOW_UPDATE_EVERY =? 0),
           (S i =? FRAMES_TO_RECORD cfg); simpl;
    by rewrite ?app_nil_r.
Qed.

Lemma cleanup_ok_thread s s' :
  main s' = main s → cleanup (trace s') = cleanup (trace s) →
  cleanup_ok s → cleanup_ok s'.
Proof. unfold cleanup_ok. by intros -> ->. Qed.

Lemma step_cleanup e s s' :
  cleanup_ok s → step cfg e s = Some s' → cleanup_ok s'.
Proof.
  intros Hok Hstep.
  destruct e as [|j|j| |]; simpl in Hstep.
  - unfold main_step in Hstep. unfold cleanup_ok in Hok.
    destruct (main s) as [j|j p| |p| |e] eqn:Hmain.
    + destruct (j <? TRIALS_TO_RECORD cfg); simplify_eq;
        unfold cleanup_ok; simpl; [|done].
      rewrite cleanup_snoc. simpl. by rewrite app_nil_r.
    + destruct (trials s !! j) as [t|] eqn:Hj; [|done].
      destruct p; cbn [trial_step] in Hstep; repeat case_match; simplify_eq;
        unfold cleanup_ok;
        cbn [main trials trace set_main emit put_trial set_trials set_tEnd
             set_tStart];
        rewrite ?cleanup_snoc, ?cleanup_display; simpl;
        rewrite ?app_nil_r; done.
    + by simplify_eq.
    + simplify_eq. destruct p; simpl; [|destruct (tStart s)|..];
        unfold cleanup_ok; simpl; try done.
      * rewrite cleanup_snoc. simpl. by rewrite app_nil_r.
      * rewrite cleanup_snoc. simpl. by rewrite app_nil_r.
      * rewrite cleanup_snoc, Hok. done.
      * rewrite cleanup_snoc, Hok. done.
      * change (trace s ++ [E_ReleaseInstance; E_Print "Done!"])
          with (trace s ++ [E_ReleaseInstance] ++ [E_Print "Done!"]).
        rewrite app_assoc, !cleanup_snoc, Hok. done.
    + done.
    + done.
  - unfold camCapture_step, got_image in Hstep.
    repeat case_match; simplify_eq; try done;
      (eapply cleanup_ok_thread; [..|exact Hok]; simpl; [done|]);
      rewrite ?cleanup_snoc; simpl; rewrite ?app_nil_r; done.
  - unfold saveImage_step in Hstep.
    repeat case_match; simplify_eq.
    by eapply cleanup_ok_thread; [..|exact Hok].
  - unfold interrupt_step in Hstep. unfold cleanup_ok in Hok.
    destruct (main s) as [| | |p| |] eqn:Hmain; simplify_eq;
      unfold cleanup_ok; simpl; rewrite ?Hok; try done.
    + by exists [E_WindowDestroy; E_DeInit].
    + destruct p; rewrite Hok; try (by exists [E_WindowDestroy; E_DeInit]).
      * by exists [E_DeInit].
      * by exists [].
  - apply interrupt_in_put_step_eq in Hstep
      as (j & i & img & t & Hmain & Hj & ->).
    unfold cleanup_ok in *. rewrite Hmain in Hok. simpl. by rewrite Hok.
Qed.

Lemma reachable_cleanup s : Reachable cfg s → cleanup_ok s.
Proof.
  apply reachable_induction; [done|]. intros e s0 s' _. apply step_cleanup.
Qed.

End Acquisition.

(** ** A timeout that comes before line 209 *)

Section Race.
Variable cfg : Config.

Ltac race_step H1 H2 :=
  erewrite exec_step_eq;
  [| cbv -[Nat.ltb Nat.modulo str display_effects String.append
           app movieName1 FRAMES_TO_RECORD TRIALS_TO_RECORD CAM_TIMEOUT];
     rewrite ?H1, ?H2; cbn [app]; reflexivity ].

Lemma reset_loses_timeout fs ses img rest :
  0 < TRIALS_TO_RECORD cfg → 1 < FRAMES_TO_RECORD cfg →
  ∃ s t,
    exec cfg reset_after_timeout (init_state fs ses (Trigger img :: Quiet :: rest))
    = Some s
    ∧ trials s = [t] ∧ polling 0 1 s
    ∧ cam1Thread t = C_Done ∧ retrieved t = [img]
    ∧ writer1 t = [writeFrame img] ∧ outcome t = None.
Proof.
  intros Htr Hfr.
  assert ((0 <? FRAMES_TO_RECORD cfg) = true) as H0 by (apply Nat.ltb_lt; lia).
  apply Nat.ltb_lt in Htr, Hfr.
  unfold reset_after_timeout, capture_one, relay_one, save_one, init_state.
  cbn [app].
  do 4 race_step Htr Htr. do 3 race_step Htr Htr. race_step Htr Htr.
  do 7 race_step H0 Hfr. do 3 race_step H0 Hfr. do 2 race_step Hfr Hfr.
  eexists _, _. split; [reflexivity|]. cbn.
  split; [reflexivity|]. split.
  - split; cbn; [by right|done|by eexists|by repeat constructor].
  - done.
Qed.

End Race.

(** ** The properties *)

(** X1.  Lines 196-200: in every reachable state the files opened for
    writing so far are, in order, the names of line 198 for the trial
    indices 0, 1, 2, ...; no name is opened twice in a session, at most
    [TRIALS_TO_RECORD] files are opened, and trial [j] writes to the
    name built from [j]. *)
Theorem trial_files_are_distinct cfg s :
  Reachable cfg s →
  opened (trace s) = movieName1 (session s) <$> seq 0 (length (trials s))
  ∧ NoDup (opened (trace s))
  ∧ length (trials s) ≤ TRIALS_TO_RECORD cfg
  ∧ ∀ j t, trials s !! j = Some t → t_name t = movieName1 (session s) j.
Proof.
  intros [Hn Ht Ho]%reachable_names. split; [done|]. split; [|done].
  rewrite Ho. apply NoDup_fmap_2; [apply movieName1_inj | apply NoDup_seq].
Qed.

(** X1 after a first trial that timed out and the set-up of a second. *)
Lemma trial_files_are_distinct_witness :
  ∃ s0 s,
    boot lab_fs morning "m1" [Trigger (frame 0); Quiet] = Running s0
    ∧ exec source_config (orderly_timeout ++ start_trial) s0 = Some s
    ∧ opened (trace s) = ["m1_2020_01_01_bottom_0.mp4"%string;
                          "m1_2020_01_01_bottom_1.mp4"%string]
    ∧ opened (trace s) = movieName1 (session s) <$> seq 0 (length (trials s))
    ∧ NoDup (opened (trace s))
    ∧ length (trials s) ≤ TRIALS_TO_RECORD source_config
    ∧ ∀ j t, trials s !! j = Some t → t_name t = movieName1 (session s) j.
Proof.
  assert (∃ s0 s,
    boot lab_fs morning "m1" [Trigger (frame 0); Quiet] = Running s0
    ∧ exec source_config (orderly_timeout ++ start_trial) s0 = Some s
    ∧ opened (trace s) = ["m1_2020_01_01_bottom_0.mp4"%string;
                          "m1_2020_01_01_bottom_1.mp4"%string])
    as (s0 & s & Hb & He & Ho).
  { eexists _, _.
    split; [vm_compute; reflexivity|]. split; vm_compute; reflexivity. }
  exists s0, s. split; [exact Hb|]. split; [exact He|]. split; [exact Ho|].
  apply (trial_files_are_distinct source_config s).
  by eapply reachable_intro.
Defined.

Open Scope string_scope.



(** X3.  Lines 67-81, for a mouse ID that is a plain name.  Whenever
    the folder set-up succeeds, the session folder is
    [SAVE_FOLDER_ROOT/mouse/date], it is a directory and the working
    directory, the mouse folder is a directory, and the save root was a
    directory before the script started: the script never makes it.
    Every path that was there is still there, and the only entries
    made, at most two, are the mouse folder and the dated folder. *)
Theorem successful_setup_makes_only_its_folders fs now mouse fs' ses :
  plain_name mouse = true →
  setup_folders fs now mouse = (fs', Ok ses) →
  saveFolder ses = session_folder now mouse
  ∧ cwd fs' = session_folder now mouse
  ∧ stat fs' (session_folder now mouse) = Found Directory
  ∧ stat fs' (SAVE_FOLDER_ROOT +:+ "/" +:+ mouse) = Found Directory
  ∧ stat fs SAVE_FOLDER_ROOT = Found Directory
  ∧ (∀ q k, stat fs q = Found k → stat fs' q = Found k)
  ∧ name_max fs' = name_max fs
  ∧ ∃ added,
      entries fs' = (added ++ entries fs)%list
      ∧ (length added ≤ 2)%nat
      ∧ Forall (λ d, d = (components (SAVE_FOLDER_ROOT +:+ "/" +:+ mouse),
                          Directory)
                     ∨ d = (components (session_folder now mouse), Directory))
               added.
Proof.
  intros (Hsep & Hne)%plain_name_no_sep.
  unfold setup_folders. fold (session_folder now mouse).
  set (p0 := SAVE_FOLDER_ROOT +:+ "/" +:+ mouse).
  set (p1 := session_folder now mouse).
  assert (components p0 = (root_path ++ [mouse])%list) as Hc0.
  { unfold p0. by rewrite components_mouse_folder, components_plain. }
  assert (components p1 = (components p0 ++ [strftime_Ymd now])%list) as Hc1
    by apply components_session_folder.
  destruct (ensure_dir fs p0) as [fs1|e0] eqn:He0; [|by intros [= <-]].
  destruct (ensure_dir fs1 p1) as [fs2|e1] eqn:He1; [|by intros [= <-]].
  destruct (os_chdir fs2 p1) as [fs3|e2] eqn:Hcd; [|by intros [= <-]].
  intros [= <- <-]. simpl.
  apply os_chdir_ok in Hcd as [Hst ->]. simpl.
  apply ensure_dir_ok in He0 as (Hcwd1 & Hext1 & Hcase0).
  apply ensure_dir_ok in He1 as (Hcwd2 & Hext2 & Hcase1).
  split; [done|]. split; [done|]. rewrite !stat_cwd.
  split; [done|].
  assert (walk fs2 [] (components p0) = Found Directory) as Hw0.
  { rewrite stat_walk, Hc1 in Hst by done.
    by eapply walk_found_below in Hst. }
  split; [by rewrite stat_walk|].
  split.
  { rewrite stat_walk by done.
    destruct Hcase0 as [[_ Hex]|(_ & _ & _ & Hpar & _)]; [|by eapply Hpar].
    apply exists_found in Hex as [k Hk].
    rewrite stat_walk, Hc0 in Hk by done.
    by eapply walk_found_below in Hk. }
  split.
  { intros q k Hq. rewrite stat_cwd.
    eapply stat_extends; [|done]. by eapply extends_trans. }
  split; [destruct Hext1, Hext2; congruence|].
  destruct Hcase0 as [[-> _]|(-> & _)], Hcase1 as [[-> _]|(-> & _)]; simpl.
  - exists []. split; [done|]. split; [simpl; lia|done].
  - exists [(components p1, Directory)]. split; [done|]. split; [simpl; lia|].
    constructor; [by right|constructor].
  - exists [(components p0, Directory)]. split; [done|]. split; [simpl; lia|].
    constructor; [by left|constructor].
  - exists [(components p1, Directory); (components p0, Directory)].
    split; [done|]. split; [simpl; lia|].
    constructor; [by right|]. constructor; [by left|constructor].
Qed.

(** X3 on the laboratory disk. *)
Lemma successful_setup_makes_only_its_folders_witness :
  plain_name "m1" = true
  ∧ ∃ disk' ses,
      setup_folders lab_fs morning "m1" = (disk', Ok ses)
      ∧ length (entries disk') = 5
      ∧ saveFolder ses = session_folder morning "m1"
      ∧ cwd disk' = session_folder morning "m1"
      ∧ stat disk' (session_folder morning "m1") = Found Directory
      ∧ stat disk' (SAVE_FOLDER_ROOT +:+ "/" +:+ "m1") = Found Directory
      ∧ stat lab_fs SAVE_FOLDER_ROOT = Found Directory
      ∧ (∀ q k, stat lab_fs q = Found k → stat disk' q = Found k)
      ∧ name_max disk' = name_max lab_fs
      ∧ ∃ added,
          entries disk' = (added ++ entries lab_fs)%list
          ∧ (length added ≤ 2)%nat
          ∧ Forall (λ d, d = (components (SAVE_FOLDER_ROOT +:+ "/" +:+ "m1"),
                              Directory)
                         ∨ d = (components (session_folder morning "m1"),
                                Directory))
                   added.
Proof.
  assert (plain_name "m1" = true) as Hm by reflexivity.
  assert (∃ disk' ses, setup_folders lab_fs morning "m1" = (disk', Ok ses)
                       ∧ length (entries disk') = 5)
    as (disk' & ses & H & Hl).
  { eexists _, _. split; vm_compute; reflexivity. }
  split; [exact Hm|]. exists disk', ses. split; [exact H|]. split; [exact Hl|].
  exact (successful_setup_makes_only_its_folders lab_fs morning "m1" disk' ses
           Hm H).
Defined.

(** X4.  Lines 67-81 and 198.  A second start for the same mouse on
    the same day, on the file system the first one left, fails nowhere
    and makes no directory: the file system is left exactly as it was,
    the session works in the same folder and builds the same file
    names, whatever the time of day. *)
Theorem second_setup_same_day_changes_nothing fs now now' mouse fs' ses :
  setup_folders fs now mouse = (fs', Ok ses) →
  strftime_Ymd now' = strftime_Ymd now →
  ∃ ses', setup_folders fs' now' mouse = (fs', Ok ses')
          ∧ saveFolder ses' = saveFolder ses
          ∧ ∀ j, movieName1 ses' j = movieName1 ses j.
Proof.
  unfold setup_folders. intros H Hday. rewrite Hday.
  fold (session_folder now mouse) in *.
  set (p0 := SAVE_FOLDER_ROOT +:+ "/" +:+ mouse) in *.
  set (p1 := session_folder now mouse) in *.
  assert (components p1 = (components p0 ++ [strftime_Ymd now])%list) as Hc1
    by apply components_session_folder.
  destruct (ensure_dir fs p0) as [fs1|] eqn:He0; [|by simplify_eq].
  destruct (ensure_dir fs1 p1) as [fs2|] eqn:He1; [|by simplify_eq].
  destruct (os_chdir fs2 p1) as [fs3|] eqn:Hcd; [|by simplify_eq].
  apply os_chdir_ok in Hcd as [Hst ->]. simplify_eq.
  set (fsx := {| entries := entries fs2; cwd := p1; name_max := name_max fs2 |}).
  assert (stat fsx p1 = Found Directory) as Hst1
    by (unfold fsx; by rewrite stat_cwd).
  assert (stat fsx p0 = Found Directory) as Hst0.
  { unfold fsx. rewrite stat_cwd. rewrite stat_walk, Hc1 in Hst by done.
    rewrite stat_walk by done. by eapply walk_found_below in Hst. }
  unfold ensure_dir, os_path_exists, os_chdir.
  rewrite Hst0. cbv beta iota. rewrite Hst1. cbv beta iota. rewrite Hst1.
  eexists. split; [reflexivity|]. done.
Qed.

(** X4 for a session at 09:30:59 and one at 10:00:00. *)
Lemma second_setup_same_day_changes_nothing_witness :
  ∃ disk' ses,
    setup_folders lab_fs morning "m1" = (disk', Ok ses)
    ∧ strftime_Ymd same_day_later = strftime_Ymd morning
    ∧ ∃ ses', setup_folders disk' same_day_later "m1" = (disk', Ok ses')
              ∧ saveFolder ses' = saveFolder ses
              ∧ ∀ j, movieName1 ses' j = movieName1 ses j.
Proof.
  assert (∃ disk' ses, setup_folders lab_fs morning "m1" = (disk', Ok ses))
    as (disk' & ses & H).
  { eexists _, _. vm_compute. reflexivity. }
  assert (strftime_Ymd same_day_later = strftime_Ymd morning) as Hd
    by (vm_compute; reflexivity).
  exists disk', ses. split; [exact H|]. split; [exact Hd|].
  exact (second_setup_same_day_changes_nothing lab_fs morning same_day_later "m1" disk' ses H Hd).
Defined.

Close Scope string_scope.

(** X5.  The two globals the main thread reads.  [tEnd] is bound, to 0
    or 1, whenever line 215 or line 218 reads it.  The main thread dies
    of an exception in two ways only: the [NameError] on [tStart] at
    line 254, which happens only when no frame was ever taken from a
    capture queue in the whole session (so nothing was written), and a
    Ctrl-C that arrives after the [try] statement.  It reaches the last
    line only if [tStart] was bound. *)
Theorem main_thread_dies_only_after_try cfg s :
  Reachable cfg s →
  (∀ j i, main s = M_InTrial j (P_Sleep i) ∨ main s = M_InTrial j (P_IfEnd i) →
          tEnd s = Some 0 ∨ tEnd s = Some 1)
  ∧ (∀ e, main s = M_Crashed e →
          (e = NameError ∧ tStart s = false
           ∧ ∀ j t, trials s !! j = Some t → relayed t = [] ∧ written t = [])
          ∨ e = KeyboardInterrupt)
  ∧ (main s = M_Exited → tStart s = true).
Proof.
  intros Hs. pose proof (reachable_inv _ _ Hs) as [_ Htr].
  apply reachable_ctl in Hs as [He Hm Hts].
  unfold main_ctl in Hm. split; [|split].
  - intros j i [Hp|Hp]; rewrite Hp in Hm;
      destruct He as [He|He]; intuition congruence.
  - intros e Hp. rewrite Hp in Hm.
    destruct Hm as [[-> Hf]|Hk]; [left|by right].
    split; [done|]. split; [done|]. intros j t Hj.
    pose proof (Forall_lookup_1 _ _ _ _ (Hts Hf) Hj) as Hrel.
    simpl in Hrel. split; [done|].
    destruct (Htr j t Hj) as [_ Hw _ _ _ _ _ _ _ _ _].
    rewrite Hrel in Hw. symmetry in Hw. by apply app_eq_nil in Hw as [? _].
  - intros Hp. by rewrite Hp in Hm.
Qed.

(** X5 on Ctrl-C before the first trigger. *)
Lemma main_thread_dies_only_after_try_witness :
  ∃ s0 s,
    boot lab_fs morning "m1" [] = Running s0
    ∧ exec source_config ctrl_c_while_waiting s0 = Some s
    ∧ main s = M_Crashed NameError
    ∧ (∀ j i,
         main s = M_InTrial j (P_Sleep i) ∨ main s = M_InTrial j (P_IfEnd i) →
         tEnd s = Some 0 ∨ tEnd s = Some 1)
    ∧ (∀ e, main s = M_Crashed e →
            (e = NameError ∧ tStart s = false
             ∧ ∀ j t, trials s !! j = Some t → relayed t = [] ∧ written t = [])
            ∨ e = KeyboardInterrupt)
    ∧ (main s = M_Exited → tStart s = true).
Proof.
  assert (∃ s0 s,
    boot lab_fs morning "m1" [] = Running s0
    ∧ exec source_config ctrl_c_while_waiting s0 = Some s
    ∧ main s = M_Crashed NameError) as (s0 & s & Hb & He & Hm).
  { eexists _, _.
    split; [vm_compute; reflexivity|]. split; vm_compute; reflexivity. }
  exists s0, s. split; [exact Hb|]. split; [exact He|]. split; [exact Hm|].
  apply (main_thread_dies_only_after_try source_config s).
  by eapply reachable_intro.
Defined.

(** X6.  [cam1Queue.get()] at line 228 never blocks: whenever the main
    thread is about to call it, the queue of the trial holds a frame,
    and the call takes the oldest one. *)
Theorem queue_get_never_blocks cfg s j i :
  Reachable cfg s → main s = M_InTrial j (P_Get i) →
  ∃ t img q s',
    trials s !! j = Some t ∧ cam1Queue t = img :: q
    ∧ step cfg Main s = Some s'
    ∧ main s' = M_InTrial j (P_Put i img)
    ∧ (∃ t', trials s' !! j = Some t' ∧ cam1Queue t' = q).
Proof.
  intros Hs Hp. apply reachable_ctl in Hs as [_ Hm _].
  unfold main_ctl in Hm. rewrite Hp in Hm.
  destruct Hm as (_ & (t & Hj & Hq) & _).
  destruct (cam1Queue t) as [|img q] eqn:Hqueue; [done|].
  exists t, img, q. eexists. split; [done|]. split; [done|].
  simpl. unfold main_step. rewrite Hp, Hj. simpl. rewrite Hqueue.
  split; [reflexivity|]. split; [done|].
  eexists. split; [by eapply lookup_put_trial|done].
Qed.

(** X6 with one frame queued. *)
Lemma queue_get_never_blocks_witness :
  ∃ s0 s,
    boot lab_fs morning "m1" (triggers 1) = Running s0
    ∧ exec source_config
        (start_trial ++ capture_one 0 ++ [Main; Main; Main; Main]) s0
      = Some s
    ∧ main s = M_InTrial 0 (P_Get 0)
    ∧ ∃ t img q s',
        trials s !! 0 = Some t ∧ cam1Queue t = img :: q
        ∧ step source_config Main s = Some s'
        ∧ main s' = M_InTrial 0 (P_Put 0 img)
        ∧ (∃ t', trials s' !! 0 = Some t' ∧ cam1Queue t' = q).
Proof.
  assert (∃ s0 s,
    boot lab_fs morning "m1" (triggers 1) = Running s0
    ∧ exec source_config
        (start_trial ++ capture_one 0 ++ [Main; Main; Main; Main]) s0
      = Some s
    ∧ main s = M_InTrial 0 (P_Get 0)) as (s0 & s & Hb & He & Hm).
  { eexists _, _.
    split; [vm_compute; reflexivity|]. split; vm_compute; reflexivity. }
  exists s0, s. split; [exact Hb|]. split; [exact He|]. split; [exact Hm|].
  apply (queue_get_never_blocks source_config s 0 0);
    [by eapply reachable_intro | exact Hm].
Defined.

(** X7.  [writer1.close()] is reached through the [tEnd] branch of
    lines 218-222 and nowhere else: in every reachable state the writer
    of a trial has been closed exactly if the trial was ended by that
    branch.  The file of a trial that ran to [FRAMES_TO_RECORD], or that
    was cut short by Ctrl-C, is never closed. *)
Theorem writer_closed_exactly_on_timeout cfg s j t :
  Reachable cfg s → trials s !! j = Some t →
  (close ∈ writer1 t ↔ outcome t = Some TimedOut)
  ∧ (outcome t ≠ Some TimedOut → writer1 t = writeFrame <$> written t).
Proof.
  intros Hs%reachable_inv Hj. destruct Hs as [_ Ht]. specialize (Ht j t Hj).
  destruct Ht as [_ _ _ _ _ _ _ _ Ho _ _]. unfold outcome_inv in Ho.
  destruct (outcome t) as [[]|].
  - destruct Ho as (Hw & _). split; [|done]. split; [|done].
    rewrite Hw. intros Hc. by apply written_only_no_close in Hc.
  - destruct Ho as (Hw & _). split; [|done]. split; [done|].
    intros _. rewrite Hw, elem_of_app, list_elem_of_singleton. by right.
  - split; [|done]. split; [|done].
    rewrite Ho. intros Hc. by apply written_only_no_close in Hc.
Qed.

(** X7 on a full trial of two frames: both are written, the trial is
    left as completed, and its writer is still open. *)
Lemma writer_closed_exactly_on_timeout_witness :
  ∃ s0 s t,
    boot lab_fs morning "m1" (triggers 2) = Running s0
    ∧ exec small_config
        (start_trial ++ frame_round 0 ++ frame_round 0 ++ [Main]) s0
      = Some s
    ∧ trials s !! 0 = Some t
    ∧ outcome t = Some Completed
    ∧ (close ∈ writer1 t ↔ outcome t = Some TimedOut)
    ∧ (outcome t ≠ Some TimedOut → writer1 t = writeFrame <$> written t).
Proof.
  assert (∃ s0 s t,
    boot lab_fs morning "m1" (triggers 2) = Running s0
    ∧ exec small_config
        (start_trial ++ frame_round 0 ++ frame_round 0 ++ [Main]) s0
      = Some s
    ∧ trials s !! 0 = Some t
    ∧ outcome t = Some Completed) as (s0 & s & t & Hb & He & Hj & Ho).
  { eexists _, _, _.
    split; [vm_compute; reflexivity|]. split; [vm_compute; reflexivity|].
    split; vm_compute; reflexivity. }
  exists s0, s, t.
  split; [exact Hb|]. split; [exact He|]. split; [exact Hj|].
  split; [exact Ho|].
  apply (writer_closed_exactly_on_timeout small_config s 0 t);
    [by eapply reachable_intro | exact Hj].
Defined.

(** X8.  [queue.Queue] accounting between [put] (line 231) and
    [saveImage] (lines 137-144).  As long as no Ctrl-C has cut the trial
    short (the main thread is still in the trial, or has ended it
    itself), the count of unfinished tasks is the number of queued
    frames plus the one the save thread is working on, [task_done()]
    does not raise and the save thread is alive.  In every trial the
    count is at most one short.  The save thread never leaves its loop
    by [break]; when it dies, it dies of the [ValueError] of
    [task_done()], in a trial that Ctrl-C has cut short, and only after
    it has written every frame that was put on its queue. *)
Theorem task_done_raises_only_after_interrupted_put cfg s j t :
  Reachable cfg s → trials s !! j = Some t →
  save1Thread t ≠ S_Stopped
  ∧ unfinished_tasks t
    ≤ length (imageWriteQueue1 t) + save_busy (save1Thread t)
  ∧ length (imageWriteQueue1 t) + save_busy (save1Thread t)
    ≤ S (unfinished_tasks t)
  ∧ (intact (view (main s) j) t →
     (∀ e, save1Thread t ≠ S_Crashed e)
     ∧ unfinished_tasks t
       = length (imageWriteQueue1 t) + save_busy (save1Thread t)
     ∧ (save1Thread t = S_TaskDone →
        saveImage_trial t
        = Some (set_save1Thread S_Get
                  (set_unfinished_tasks (pred (unfinished_tasks t)) t))))
  ∧ (∀ e, save1Thread t = S_Crashed e →
          e = ValueError ∧ view (main s) j = None ∧ outcome t = None
          ∧ imageWriteQueue1 t = [] ∧ written t = relayed t).
Proof.
  intros Hs%reachable_inv Hj. destruct Hs as [_ Ht]. specialize (Ht j t Hj).
  destruct Ht as [_ Hw Hu _ _ _ _ _ _ Hsp _]. unfold save_pc_inv in Hsp.
  split; [intros Hst; by rewrite Hst in Hsp|].
  split; [destruct (save1Thread t); simpl in *; try lia;
          destruct Hsp as (_ & _ & -> & ->); simpl; lia|].
  split; [destruct (save1Thread t); simpl in *; try lia;
          destruct Hsp as (_ & _ & -> & ->); simpl; lia|].
  split.
  - intros Hin. specialize (Hu Hin). split; [|split; [done|]].
    + intros e He. rewrite He in Hsp. by destruct Hsp as (_ & ? & _).
    + intros Hd. unfold saveImage_trial. rewrite Hd in Hu |- *. simpl in Hu.
      destruct (unfinished_tasks t); [lia|done].
  - intros e He. rewrite He in Hsp, Hw.
    destruct Hsp as (-> & Hcut & Hnil & _). split; [done|].
    unfold intact in Hcut.
    split; [|split; [|split; [done|]]].
    + destruct (view (main s) j) eqn:Hv; [|done]. destruct Hcut. left.
      by eexists.
    + destruct (outcome t) eqn:Ho; [|done]. destruct Hcut. by right.
    + unfold pending in Hw. rewrite Hnil in Hw. simpl in Hw.
      by rewrite app_nil_r in Hw.
Qed.

(** X8 when Ctrl-C lands inside [put] while the save thread is writing
    the frame before: the save thread writes both frames and then dies
    in [task_done()]. *)
Lemma task_done_raises_only_after_interrupted_put_witness :
  ∃ s0 s t,
    boot lab_fs morning "m1" (triggers 2) = Running s0
    ∧ exec source_config ctrl_c_inside_put s0 = Some s
    ∧ trials s !! 0 = Some t
    ∧ save1Thread t = S_Crashed ValueError
    ∧ writer1 t = [writeFrame (frame 0); writeFrame (frame 1)]
    ∧ main s = M_Except
    ∧ save1Thread t ≠ S_Stopped
    ∧ unfinished_tasks t
      ≤ length (imageWriteQueue1 t) + save_busy (save1Thread t)
    ∧ length (imageWriteQueue1 t) + save_busy (save1Thread t)
      ≤ S (unfinished_tasks t)
    ∧ (intact (view (main s) 0) t →
       (∀ e, save1Thread t ≠ S_Crashed e)
       ∧ unfinished_tasks t
         = length (imageWriteQueue1 t) + save_busy (save1Thread t)
       ∧ (save1Thread t = S_TaskDone →
          saveImage_trial t
          = Some (set_save1Thread S_Get
                    (set_unfinished_tasks (pred (unfinished_tasks t)) t))))
    ∧ (∀ e, save1Thread t = S_Crashed e →
            e = ValueError ∧ view (main s) 0 = None ∧ outcome t = None
            ∧ imageWriteQueue1 t = [] ∧ written t = relayed t).
Proof.
  assert (∃ s0 s t,
    boot lab_fs morning "m1" (triggers 2) = Running s0
    ∧ exec source_config ctrl_c_inside_put s0 = Some s
    ∧ trials s !! 0 = Some t
    ∧ save1Thread t = S_Crashed ValueError
    ∧ writer1 t = [writeFrame (frame 0); writeFrame (frame 1)]
    ∧ main s = M_Except) as (s0 & s & t & Hb & He & Hj & Hd & Hw & Hm).
  { eexists _, _, _.
    split; [vm_compute; reflexivity|]. split; [vm_compute; reflexivity|].
    split; [vm_compute; reflexivity|]. split; [vm_compute; reflexivity|].
    split; vm_compute; reflexivity. }
  exists s0, s, t.
  split; [exact Hb|]. split; [exact He|]. split; [exact Hj|].
  split; [exact Hd|]. split; [exact Hw|]. split; [exact Hm|].
  apply (task_done_raises_only_after_interrupted_put source_config s 0 t);
    [by eapply reachable_intro | exact Hj].
Defined.

(** X9.  What a trigger timeout costs (lines 213-222).  In a trial ended
    by the [tEnd] branch, the frames written are exactly the frames the
    main thread had relayed, fewer than [FRAMES_TO_RECORD]; the frames
    retrieved from the camera are these followed by the frames still in
    [cam1Queue] and the one the capture thread may hold.  So the frames
    that never reach the file are exactly those left on the capture
    side, and none is lost when that side is empty. *)
Theorem timeout_loses_exactly_the_queued_frames cfg s j t :
  Reachable cfg s → trials s !! j = Some t → outcome t = Some TimedOut →
  written t = relayed t
  ∧ retrieved t = written t ++ cam1Queue t ++ cap_held (cam1Thread t)
  ∧ length (written t) < FRAMES_TO_RECORD cfg
  ∧ (cam1Queue t = [] → cap_held (cam1Thread t) = [] →
     written t = retrieved t).
Proof.
  intros Hs Hj Ho.
  destruct (reachable_closed cfg s j t Hs Hj) as [_ Hlt Hc _].
  apply reachable_inv in Hs as [_ Ht]. specialize (Ht j t Hj).
  destruct Ht as [_ _ _ _ _ _ _ _ Hout _ _]. unfold outcome_inv in Hout.
  rewrite Ho in Hout. destruct Hout as (Hw & _).
  assert (written t = relayed t) as Hwr.
  { unfold written. rewrite Hw, omap_app, written_of_frames. simpl.
    by rewrite app_nil_r. }
  rewrite Hwr. split; [done|]. split; [apply Hc; congruence|].
  split; [by apply Hlt|]. intros Hq Hh.
  rewrite Hc, Hq, Hh by congruence. by rewrite !app_nil_r.
Qed.

(** X9 when the main thread runs late: one frame retrieved, none
    written, the frame still queued. *)
Lemma timeout_loses_exactly_the_queued_frames_witness :
  ∃ s0 s t,
    boot lab_fs morning "m1" [Trigger (frame 0); Quiet] = Running s0
    ∧ exec source_config late_controller s0 = Some s
    ∧ trials s !! 0 = Some t
    ∧ outcome t = Some TimedOut
    ∧ cam1Queue t = [frame 0]
    ∧ written t = relayed t
    ∧ retrieved t = written t ++ cam1Queue t ++ cap_held (cam1Thread t)
    ∧ length (written t) < FRAMES_TO_RECORD source_config
    ∧ (cam1Queue t = [] → cap_held (cam1Thread t) = [] →
       written t = retrieved t).
Proof.
  assert (∃ s0 s t,
    boot lab_fs morning "m1" [Trigger (frame 0); Quiet] = Running s0
    ∧ exec source_config late_controller s0 = Some s
    ∧ trials s !! 0 = Some t
    ∧ outcome t = Some TimedOut
    ∧ cam1Queue t = [frame 0]) as (s0 & s & t & Hb & He & Hj & Ho & Hq).
  { eexists _, _, _.
    split; [vm_compute; reflexivity|]. split; [vm_compute; reflexivity|].
    split; [vm_compute; reflexivity|]. split; vm_compute; reflexivity. }
  exists s0, s, t.
  split; [exact Hb|]. split; [exact He|]. split; [exact Hj|].
  split; [exact Ho|]. split; [exact Hq|].
  apply (timeout_loses_exactly_the_queued_frames source_config s 0 t);
    [by eapply reachable_intro | exact Hj | exact Ho].
Defined.

(** X10.  The intended use (header comment of the script, lines
    196-222).  The trigger source sends fewer triggers than
    [FRAMES_TO_RECORD], at least one, and then pauses for longer than
    [CAM_TIMEOUT]; every thread keeps up.  Then the first trial ends on
    the [tEnd] branch with every frame retrieved, written in the order
    of capture, and the writer closed after the last one; nothing is
    left in a queue and the main thread is at the head of the next
    trial. *)
Theorem orderly_trial_writes_every_frame cfg disk now mouse imgs rest s0 :
  boot disk now mouse ((Trigger <$> imgs) ++ Quiet :: rest) = Running s0 →
  0 < TRIALS_TO_RECORD cfg →
  0 < length imgs < FRAMES_TO_RECORD cfg →
  ∃ s t,
    exec cfg (orderly_trial (length imgs)) s0 = Some s
    ∧ trials s = [t] ∧ main s = M_ForJ 1 ∧ device s = rest
    ∧ outcome t = Some TimedOut
    ∧ writer1 t = (writeFrame <$> imgs) ++ [close]
    ∧ retrieved t = imgs
    ∧ cam1Queue t = [] ∧ cam1Thread t = C_Done.
Proof.
  intros Hboot Htr Hlen. unfold boot in Hboot.
  destruct (setup_folders disk now mouse) as [fs' [ses|e]]; simplify_eq.
  destruct (start_kept_up cfg fs' ses ((Trigger <$> imgs) ++ Quiet :: rest) Htr)
    as (s1 & He1 & Hs1).
  destruct (rounds_kept_up cfg imgs [] _ s1 Hs1) as (s2 & He2 & Hs2);
    [simpl; lia|]. simpl in Hs2.
  destruct (timeout_kept_up cfg imgs rest s2 Hs2 Hlen) as (s3 & t & He3 & H).
  exists s3, t. split; [|exact H].
  unfold orderly_trial. by rewrite exec_app, He1, exec_app, He2.
Qed.

(** X10 with three frames and the constants of the script. *)
Lemma orderly_trial_writes_every_frame_witness :
  ∃ s0 s t,
    boot lab_fs morning "m1"
      ((Trigger <$> [frame 0; frame 1; frame 2]) ++ [Quiet]) = Running s0
    ∧ exec source_config (orderly_trial 3) s0 = Some s
    ∧ trials s = [t] ∧ main s = M_ForJ 1 ∧ device s = []
    ∧ outcome t = Some TimedOut
    ∧ writer1 t = (writeFrame <$> [frame 0; frame 1; frame 2]) ++ [close]
    ∧ retrieved t = [frame 0; frame 1; frame 2]
    ∧ cam1Queue t = [] ∧ cam1Thread t = C_Done.
Proof.
  assert (∃ s0,
    boot lab_fs morning "m1"
      ((Trigger <$> [frame 0; frame 1; frame 2]) ++ [Quiet]) = Running s0)
    as (s0 & Hb).
  { eexists. vm_compute. reflexivity. }
  destruct (orderly_trial_writes_every_frame source_config lab_fs morning
              "m1" [frame 0; frame 1; frame 2] [] s0 Hb)
    as (s & t & H).
  { apply Nat.ltb_lt. vm_compute. reflexivity. }
  { split; apply Nat.ltb_lt; vm_compute; reflexivity. }
  exists s0, s, t. split; [exact Hb|exact H].
Defined.

(** X11.  A capture thread outlives its trial (lines 146-162 have no
    exit at the target count) and goes on sharing the camera and the
    global [tEnd] with the next trial.  The trigger source sends exactly
    [FRAMES_TO_RECORD] triggers and pauses; every thread keeps up.  The
    first trial completes with all frames written.  When the capture
    thread of that trial then times out, after line 209 of the second
    trial, the main thread takes its [tEnd = 1] for the second trial's:
    the second trial is closed before its own capture thread has made a
    single retrieval, its file holding no frame. *)
Theorem stale_capture_thread_ends_next_trial cfg disk now mouse imgs rest s0 :
  boot disk now mouse ((Trigger <$> imgs) ++ Quiet :: rest) = Running s0 →
  length imgs = FRAMES_TO_RECORD cfg → 0 < FRAMES_TO_RECORD cfg →
  1 < TRIALS_TO_RECORD cfg →
  ∃ s t0 t1,
    exec cfg (full_trial_then_quiet (FRAMES_TO_RECORD cfg)) s0 = Some s
    ∧ trials s = [t0; t1] ∧ main s = M_ForJ 2 ∧ device s = rest
    ∧ outcome t0 = Some Completed
    ∧ writer1 t0 = writeFrame <$> imgs
    ∧ retrieved t0 = imgs
    ∧ cam1Thread t0 = C_Done
    ∧ outcome t1 = Some TimedOut
    ∧ calls t1 = [] ∧ writer1 t1 = [close] ∧ cam1Thread t1 = C_Loop 0.
Proof.
  intros Hboot Hlen Hpos Htr. unfold boot in Hboot.
  destruct (setup_folders disk now mouse) as [fs' [ses|e]]; simplify_eq.
  destruct (start_kept_up cfg fs' ses ((Trigger <$> imgs) ++ Quiet :: rest))
    as (s1 & He1 & Hs1); [lia|].
  destruct (rounds_kept_up cfg imgs [] _ s1 Hs1) as (s2 & He2 & Hs2);
    [simpl; lia|]. simpl in Hs2.
  destruct (stale_kept_up cfg imgs rest s2 Hs2 Hlen Hpos Htr)
    as (s3 & t0 & t1 & He3 & H).
  exists s3, t0, t1. split; [|exact H].
  unfold full_trial_then_quiet.
  by rewrite <- Hlen, exec_app, He1, exec_app, He2.
Qed.

(** X11 with two frames per trial. *)
Lemma stale_capture_thread_ends_next_trial_witness :
  ∃ s0 s t0 t1,
    boot lab_fs morning "m1" ((Trigger <$> [frame 0; frame 1]) ++ [Quiet])
    = Running s0
    ∧ exec small_config (full_trial_then_quiet 2) s0 = Some s
    ∧ trials s = [t0; t1] ∧ main s = M_ForJ 2 ∧ device s = []
    ∧ outcome t0 = Some Completed
    ∧ writer1 t0 = writeFrame <$> [frame 0; frame 1]
    ∧ retrieved t0 = [frame 0; frame 1]
    ∧ cam1Thread t0 = C_Done
    ∧ outcome t1 = Some TimedOut
    ∧ calls t1 = [] ∧ writer1 t1 = [close] ∧ cam1Thread t1 = C_Loop 0.
Proof.
  assert (∃ s0,
    boot lab_fs morning "m1" ((Trigger <$> [frame 0; frame 1]) ++ [Quiet])
    = Running s0) as (s0 & Hb).
  { eexists. vm_compute. reflexivity. }
  destruct (stale_capture_thread_ends_next_trial small_config lab_fs morning
              "m1" [frame 0; frame 1] [] s0 Hb)
    as (s & t0 & t1 & H); [reflexivity|simpl; lia|simpl; lia|].
  exists s0, s, t0, t1. split; [exact Hb|exact H].
Defined.

(** X12.  The polling loop of lines 213-216 has two exits: a frame in
    [cam1Queue], or [tEnd == 1].  Both can only come from a capture
    thread.  When no capture thread is left (each has ended or died),
    the queue is empty and [tEnd] is 0, the main thread stays in the
    loop for ever: whatever the schedule, short of Ctrl-C, it is still
    polling the same frame of the same trial, and has called or printed
    nothing more. *)
Theorem main_polls_forever_without_capture_thread cfg j i evs s s' :
  polling j i s → CtrlC ∉ evs → exec cfg evs s = Some s' →
  polling j i s' ∧ trace s' = trace s ∧ device s' = device s.
Proof.
  revert s. induction evs as [|e evs IH]; intros s Hp Hno Hexec;
    simpl in Hexec.
  - by simplify_eq.
  - apply not_elem_of_cons in Hno as [Hne Hno].
    destruct (step cfg e s) as [s1|] eqn:Hstep; [|done].
    destruct (step_polling cfg j i e s s1 Hp) as (Hp1 & Ht1 & Hd1); [done..|].
    destruct (IH s1 Hp1 Hno Hexec) as (Hp' & Ht' & Hd').
    split; [done|]. split; congruence.
Qed.

(** X12 after the first retrieval of the first trial has failed. *)
Lemma main_polls_forever_without_capture_thread_witness :
  ∃ s0 s s',
    boot lab_fs morning "m1" [Fault; Trigger (frame 0)] = Running s0
    ∧ exec source_config first_retrieval_fails s0 = Some s
    ∧ exec source_config [Main; Main; Main; Main; Main] s = Some s'
    ∧ polling 0 0 s
    ∧ polling 0 0 s' ∧ trace s' = trace s ∧ device s' = device s.
Proof.
  assert (∃ s0 s s',
    boot lab_fs morning "m1" [Fault; Trigger (frame 0)] = Running s0
    ∧ exec source_config first_retrieval_fails s0 = Some s
    ∧ exec source_config [Main; Main; Main; Main; Main] s = Some s'
    ∧ polling 0 0 s) as (s0 & s & s' & Hb & He & He' & Hp).
  { eexists _, _, _.
    split; [vm_compute; reflexivity|]. split; [vm_compute; reflexivity|].
    split; [vm_compute; reflexivity|].
    split.
    - left. reflexivity.
    - reflexivity.
    - eexists. split; reflexivity.
    - repeat constructor. }
  exists s0, s, s'.
  split; [exact Hb|]. split; [exact He|]. split; [exact He'|].
  split; [exact Hp|].
  apply (main_polls_forever_without_capture_thread source_config 0 0
           [Main; Main; Main; Main; Main] s s'); [exact Hp| |exact He'].
  repeat (apply not_elem_of_cons; split; [discriminate|]).
  apply not_elem_of_nil.
Defined.

(** X13.  Lines 233-240: the window is refreshed only at frame counts
    that are positive multiples of 20 and no larger than
    [FRAMES_TO_RECORD]. *)
Theorem window_updated_only_every_20th_frame cfg s n :
  Reachable cfg s → E_WindowUpdate n ∈ trace s →
  0 < n ≤ FRAMES_TO_RECORD cfg ∧ n mod 20 = 0.
Proof.
  intros Hs Hn.
  assert (Forall (shown_ok cfg) (trace s)) as Hall.
  { clear Hn. revert s Hs. apply reachable_induction; [|apply step_shown].
    intros fs ses dev. by repeat constructor. }
  rewrite Forall_forall in Hall. exact (Hall _ Hn).
Qed.

(** X13 after twenty frames of the first trial. *)
Lemma window_updated_only_every_20th_frame_witness :
  ∃ s0 s,
    boot lab_fs morning "m1" (triggers 20) = Running s0
    ∧ exec source_config (start_trial ++ mjoin (replicate 20 (frame_round 0))) s0
      = Some s
    ∧ E_WindowUpdate 20 ∈ trace s
    ∧ 0 < 20 ≤ FRAMES_TO_RECORD source_config ∧ 20 mod 20 = 0.
Proof.
  assert (∃ s0 s,
    boot lab_fs morning "m1" (triggers 20) = Running s0
    ∧ exec source_config (start_trial ++ mjoin (replicate 20 (frame_round 0))) s0
      = Some s
    ∧ last (trace s) = Some (E_WindowUpdate 20)) as (s0 & s & Hb & He & Hl).
  { eexists _, _.
    split; [vm_compute; reflexivity|]. split; vm_compute; reflexivity. }
  assert (E_WindowUpdate 20 ∈ trace s) as Hin.
  { rewrite last_lookup in Hl. by eapply list_elem_of_lookup_2. }
  exists s0, s. split; [exact Hb|]. split; [exact He|]. split; [exact Hin|].
  apply (window_updated_only_every_20th_frame source_config s 20);
    [by eapply reachable_intro | exact Hin].
Defined.

(** X14.  How a capture thread ends (lines 146-162).  It dies of an
    exception only at its first retrieval, the call of line 150 that no
    [try] protects; the trial then never gets a frame.  Otherwise it
    ends through the handler of lines 154-158, at a bounded retrieval
    and after at least one frame; every call before the one that
    raised had delivered a frame. *)
Theorem capture_thread_end_states cfg s j t :
  Reachable cfg s → trials s !! j = Some t →
  (∀ e, cam1Thread t = C_Crashed e →
        calls t = [failed_call cfg 0 e]
        ∧ retrieved t = [] ∧ written t = [])
  ∧ (cam1Thread t = C_Done →
     ∃ cs e, calls t = cs ++ [failed_call cfg (length cs) e]
             ∧ 0 < length cs ∧ length (retrieved t) = length cs
             ∧ c_policy (failed_call cfg (length cs) e)
               = Bounded (CAM_TIMEOUT cfg)).
Proof.
  intros Hs Hj.
  destruct (reachable_closed cfg s j t Hs Hj) as [_ _ _ Hend].
  apply reachable_inv in Hs as [_ Ht]. specialize (Ht j t Hj).
  destruct Ht as [_ Hw _ (lost & Hc & _) _ _ _ _ _ _ _].
  unfold cap_end_ok in Hend. split.
  - intros e He. rewrite He in Hend. split; [done|].
    assert (retrieved t = []) as Hr.
    { unfold retrieved, captured. by rewrite Hend. }
    split; [done|]. rewrite Hr in Hc. symmetry in Hc.
    apply app_eq_nil in Hc as [Hrel _]. rewrite Hrel in Hw.
    symmetry in Hw. by apply app_eq_nil in Hw as [? _].
  - intros Hd. rewrite Hd in Hend. destruct Hend as (cs & e & Hcs & Hne & Hl).
    exists cs, e. split; [done|].
    assert (0 < length cs) as Hpos by (destruct cs; [done|simpl; lia]).
    split; [done|]. split.
    + unfold retrieved, captured. rewrite Hcs, omap_app, length_fmap.
      simpl. rewrite app_nil_r. done.
    + simpl. unfold policy_at. destruct (length cs); [lia|done].
Qed.

(** X14 on a capture thread that timed out after one frame. *)
Lemma capture_thread_end_states_witness :
  ∃ s0 s t,
    boot lab_fs morning "m1" [Trigger (frame 0); Quiet] = Running s0
    ∧ exec source_config late_controller s0 = Some s
    ∧ trials s !! 0 = Some t
    ∧ cam1Thread t = C_Done
    ∧ (∀ e, cam1Thread t = C_Crashed e →
            calls t = [failed_call source_config 0 e]
            ∧ retrieved t = [] ∧ written t = [])
    ∧ (cam1Thread t = C_Done →
       ∃ cs e, calls t = cs ++ [failed_call source_config (length cs) e]
               ∧ 0 < length cs ∧ length (retrieved t) = length cs
               ∧ c_policy (failed_call source_config (length cs) e)
                 = Bounded (CAM_TIMEOUT source_config)).
Proof.
  assert (∃ s0 s t,
    boot lab_fs morning "m1" [Trigger (frame 0); Quiet] = Running s0
    ∧ exec source_config late_controller s0 = Some s
    ∧ trials s !! 0 = Some t
    ∧ cam1Thread t = C_Done) as (s0 & s & t & Hb & He & Hj & Hd).
  { eexists _, _, _.
    split; [vm_compute; reflexivity|]. split; [vm_compute; reflexivity|].
    split; vm_compute; reflexivity. }
  exists s0, s, t.
  split; [exact Hb|]. split; [exact He|]. split; [exact Hj|].
  split; [exact Hd|].
  apply (capture_thread_end_states source_config s 0 t);
    [by eapply reachable_intro | exact Hj].
Defined.

(** X15.  No file gets more than [FRAMES_TO_RECORD] frames (the bound
    of [for i], line 211): at every moment, for every trial, the frames
    written are among the first [FRAMES_TO_RECORD] frames retrieved,
    however many the camera delivers. *)
Theorem file_never_exceeds_target cfg s j t :
  Reachable cfg s → trials s !! j = Some t →
  length (written t) ≤ FRAMES_TO_RECORD cfg
  ∧ written t `prefix_of` take (FRAMES_TO_RECORD cfg) (retrieved t).
Proof.
  intros Hs Hj.
  destruct (reachable_closed cfg s j t Hs Hj) as [Hle _ _ _].
  apply reachable_inv in Hs as [_ Ht]. specialize (Ht j t Hj).
  destruct Ht as [_ Hw _ (lost & Hc & _) _ _ _ _ _ _ _].
  assert (length (written t) ≤ FRAMES_TO_RECORD cfg) as Hlen.
  { rewrite Hw, length_app in Hle. lia. }
  split; [done|].
  rewrite Hc, Hw, <- !app_assoc.
  rewrite take_app_ge by done. by eexists.
Qed.

(** X15 when the camera sends one trigger more than the target. *)
Lemma file_never_exceeds_target_witness :
  ∃ s0 s t,
    boot lab_fs morning "m1" (triggers 3) = Running s0
    ∧ exec small_config (full_trial_and_one_more 2) s0 = Some s
    ∧ trials s !! 0 = Some t
    ∧ length (retrieved t) = 3
    ∧ length (written t) ≤ FRAMES_TO_RECORD small_config
    ∧ written t `prefix_of` take (FRAMES_TO_RECORD small_config) (retrieved t).
Proof.
  assert (∃ s0 s t,
    boot lab_fs morning "m1" (triggers 3) = Running s0
    ∧ exec small_config (full_trial_and_one_more 2) s0 = Some s
    ∧ trials s !! 0 = Some t
    ∧ length (retrieved t) = 3) as (s0 & s & t & Hb & He & Hj & Hl).
  { eexists _, _, _.
    split; [vm_compute; reflexivity|]. split; [vm_compute; reflexivity|].
    split; vm_compute; reflexivity. }
  exists s0, s, t.
  split; [exact Hb|]. split; [exact He|]. split; [exact Hj|].
  split; [exact Hl|].
  apply (file_never_exceeds_target small_config s 0 t);
    [by eapply reachable_intro | exact Hj].
Defined.

(** X16.  [imageWriteQueue1.join()] (line 220) never deadlocks:
    whenever the main thread waits there, scheduling the save thread of
    the trial often enough lets the join return, and the main thread
    goes on to [writer1.close()] with no other call made in between. *)
Theorem join_always_returns cfg s j i :
  Reachable cfg s → main s = M_InTrial j (P_Join i) →
  ∃ n s', exec cfg (replicate n (Save j) ++ [Main]) s = Some s'
          ∧ main s' = M_InTrial j (P_Close i)
          ∧ trace s' = trace s.
Proof.
  intros Hs Hm. pose proof (reachable_inv _ _ Hs) as [Hlen Htr].
  rewrite Hm in Hlen. simpl in Hlen.
  destruct (lookup_lt_is_Some_2 (trials s) j) as [t Hj]; [lia|].
  specialize (Htr j t Hj). rewrite Hm, view_same in Htr.
  assert (save1Thread t ≠ S_NotStarted) as Hns.
  { destruct Htr as [_ _ _ _ _ _ _ (_ & Hp & _) _ _ _].
    intros Hn. by specialize (Hp Hn). }
  destruct (save_drain_idle cfg _ t Htr (intact_view _ _) Hns)
    as (n & t' & Hrun & Hnil & Hget & _).
  pose proof (exec_save_run cfg n j s t t' Hj Hrun) as Hexec.
  pose proof (reachable_exec cfg _ _ _ Hs Hexec) as Hs'.
  apply reachable_inv in Hs' as [_ Htr'].
  specialize (Htr' j t' (lookup_put_trial j t t' s Hj)).
  change (main (put_trial j t' s)) with (main s) in Htr'.
  rewrite Hm, view_same in Htr'.
  destruct Htr' as [_ _ Hu _ _ _ _ _ _ _ _].
  specialize (Hu (intact_view _ _)).
  rewrite Hnil, Hget in Hu. simpl in Hu.
  exists n. eexists. rewrite exec_app, Hexec. simpl.
  unfold main_step. simpl. rewrite Hm.
  rewrite list_lookup_insert_eq by (by eapply lookup_lt_Some).
  simpl. rewrite Hu. done.
Qed.

(** X16 when the main thread reaches the join with a frame still on
    the write queue. *)
Lemma join_always_returns_witness :
  ∃ s0 s,
    boot lab_fs morning "m1" [Trigger (frame 0); Quiet] = Running s0
    ∧ exec source_config
        (start_trial ++ capture_one 0 ++ relay_one ++ [Cam 0]
         ++ [Main; Main; Main; Main; Main]) s0
      = Some s
    ∧ main s = M_InTrial 0 (P_Join 1)
    ∧ (unfinished_tasks <$> trials s) = [1]
    ∧ ∃ n s', exec source_config (replicate n (Save 0) ++ [Main]) s = Some s'
              ∧ main s' = M_InTrial 0 (P_Close 1)
              ∧ trace s' = trace s.
Proof.
  assert (∃ s0 s,
    boot lab_fs morning "m1" [Trigger (frame 0); Quiet] = Running s0
    ∧ exec source_config
        (start_trial ++ capture_one 0 ++ relay_one ++ [Cam 0]
         ++ [Main; Main; Main; Main; Main]) s0
      = Some s
    ∧ main s = M_InTrial 0 (P_Join 1)
    ∧ (unfinished_tasks <$> trials s) = [1]) as (s0 & s & Hb & He & Hm & Hu).
  { eexists _, _.
    split; [vm_compute; reflexivity|]. split; [vm_compute; reflexivity|].
    split; vm_compute; reflexivity. }
  exists s0, s.
  split; [exact Hb|]. split; [exact He|]. split; [exact Hm|].
  split; [exact Hu|].
  apply (join_always_returns source_config s 0 1);
    [by eapply reachable_intro | exact Hm].
Defined.

(** X17.  Lines 255-264: the window and the camera are given back in
    one order only ([window.destroy()], [cam1.DeInit()],
    [system.ReleaseInstance()]), each at most once; the camera system
    is released exactly in the runs that reach the last line of the
    script; and when line 254 raises its [NameError] none of the three
    calls has been or will be made. *)
Theorem camera_released_only_at_normal_exit cfg s :
  Reachable cfg s →
  cleanup (trace s) `prefix_of` [E_WindowDestroy; E_DeInit; E_ReleaseInstance]
  ∧ (E_ReleaseInstance ∈ trace s ↔ main s = M_Exited)
  ∧ (main s = M_Crashed NameError → cleanup (trace s) = []).
Proof.
  intros Hok%reachable_cleanup. unfold cleanup_ok in Hok.
  assert (E_ReleaseInstance ∈ trace s ↔ E_ReleaseInstance ∈ cleanup (trace s))
    as Hin.
  { unfold cleanup. rewrite list_elem_of_filter. simpl. tauto. }
  rewrite Hin.
  assert (∀ l : list Effect, l `prefix_of` [E_WindowDestroy; E_DeInit] →
            l `prefix_of` [E_WindowDestroy; E_DeInit; E_ReleaseInstance]
            ∧ E_ReleaseInstance ∉ l) as Hpre.
  { intros l [k Hk]. split.
    - exists (k ++ [E_ReleaseInstance]).
      rewrite app_assoc, <- Hk. done.
    - intros Hl. assert (E_ReleaseInstance ∈ [E_WindowDestroy; E_DeInit]) as H.
      { rewrite Hk. apply elem_of_app. by left. }
      rewrite !elem_of_cons in H. rewrite elem_of_nil in H.
      by destruct H as [H|[H|H]]. }
  assert (([] : list Effect) `prefix_of` [E_WindowDestroy; E_DeInit]) as Hnil
    by (by eexists).
  destruct (main s) as [j|j p| |p| |e].
  1-3: rewrite Hok; destruct (Hpre _ Hnil) as [? ?]; split; [done|];
       split; [|done]; split; [by intros ?%elem_of_nil|done].
  - destruct p; rewrite Hok.
    1-3: destruct (Hpre _ Hnil) as [? ?]; split; [done|];
         split; [|done]; split; [by intros ?%elem_of_nil|done].
    + destruct (Hpre [E_WindowDestroy]) as [? ?]; [by exists [E_DeInit]|].
      split; [done|]. split; [|done]. split; [done|done].
    + destruct (Hpre [E_WindowDestroy; E_DeInit]) as [? ?]; [by exists []|].
      split; [done|]. split; [|done]. split; [done|done].
  - rewrite Hok. split; [by exists []|]. split; [|done].
    split; [done|]. intros _. rewrite !elem_of_cons. auto.
  - destruct e; try rewrite Hok;
      try (destruct (Hpre _ Hok) as [? ?]; split; [done|];
           split; [|done]; split; [done|done]).
    destruct (Hpre _ Hnil) as [? ?]. split; [done|].
    split; [|done]. split; [by intros ?%elem_of_nil|done].
Qed.

(** X17 on a run that ends normally after Ctrl-C. *)
Lemma camera_released_only_at_normal_exit_witness :
  ∃ s0 s,
    boot lab_fs morning "m1" (triggers 1) = Running s0
    ∧ exec source_config ctrl_c_after_first_frame s0 = Some s
    ∧ main s = M_Exited
    ∧ cleanup (trace s) = [E_WindowDestroy; E_DeInit; E_ReleaseInstance]
    ∧ cleanup (trace s)
      `prefix_of` [E_WindowDestroy; E_DeInit; E_ReleaseInstance]
    ∧ (E_ReleaseInstance ∈ trace s ↔ main s = M_Exited)
    ∧ (main s = M_Crashed NameError → cleanup (trace s) = []).
Proof.
  assert (∃ s0 s,
    boot lab_fs morning "m1" (triggers 1) = Running s0
    ∧ exec source_config ctrl_c_after_first_frame s0 = Some s
    ∧ main s = M_Exited
    ∧ cleanup (trace s) = [E_WindowDestroy; E_DeInit; E_ReleaseInstance])
    as (s0 & s & Hb & He & Hm & Hc).
  { eexists _, _.
    split; [vm_compute; reflexivity|]. split; [vm_compute; reflexivity|].
    split; vm_compute; reflexivity. }
  exists s0, s. split; [exact Hb|]. split; [exact He|]. split; [exact Hm|].
  split; [exact Hc|].
  apply (camera_released_only_at_normal_exit source_config s).
  by eapply reachable_intro.
Defined.

(** X18.  Lines 207 and 219: [cam1.EndAcquisition()] is called on the
    [tEnd] branch only, so a trial that runs to [FRAMES_TO_RECORD]
    leaves the camera acquiring.  Whenever the main thread is about to
    call [cam1.BeginAcquisition()], the camera is already acquiring
    exactly if there is a previous trial and it ran to the target
    count. *)
Theorem acquisition_left_on_by_completed_trial cfg s j :
  Reachable cfg s → main s = M_InTrial j P_BeginAcq →
  acquiring (trace s) = true
  ↔ ∃ j' t, j = S j' ∧ trials s !! j' = Some t
            ∧ outcome t = Some Completed.
Proof.
  intros Hacq%reachable_acq Hm. unfold acq_ok in Hacq.
  rewrite Hm in Hacq. rewrite Hacq. unfold completed_before.
  destruct j as [|j']; [split; [done|by intros (? & ? & ? & _)]|].
  destruct (trials s !! j') as [t|] eqn:Hj.
  - destruct (outcome t) as [[]|] eqn:Ho; split; try done.
    + intros _. by exists j', t.
    + intros (? & ? & ? & ? & ?). simplify_eq.
    + intros (? & ? & ? & ? & ?). simplify_eq.
  - split; [done|]. intros (? & ? & ? & ? & ?). simplify_eq.
Qed.

(** X18 at the start of the second trial, after a first trial of two
    frames that ran to the target. *)
Lemma acquisition_left_on_by_completed_trial_witness :
  ∃ s0 s,
    boot lab_fs morning "m1" (triggers 2) = Running s0
    ∧ exec small_config
        (start_trial ++ frame_round 0 ++ frame_round 0 ++ [Main; Main; Main])
        s0
      = Some s
    ∧ main s = M_InTrial 1 P_BeginAcq
    ∧ acquiring (trace s) = true
    ∧ (acquiring (trace s) = true
       ↔ ∃ j' t, 1 = S j' ∧ trials s !! j' = Some t
                 ∧ outcome t = Some Completed).
Proof.
  assert (∃ s0 s,
    boot lab_fs morning "m1" (triggers 2) = Running s0
    ∧ exec small_config
        (start_trial ++ frame_round 0 ++ frame_round 0 ++ [Main; Main; Main])
        s0
      = Some s
    ∧ main s = M_InTrial 1 P_BeginAcq
    ∧ acquiring (trace s) = true) as (s0 & s & Hb & He & Hm & Ha).
  { eexists _, _.
    split; [vm_compute; reflexivity|]. split; [vm_compute; reflexivity|].
    split; vm_compute; reflexivity. }
  exists s0, s. split; [exact Hb|]. split; [exact He|]. split; [exact Hm|].
  split; [exact Ha|].
  apply (acquisition_left_on_by_completed_trial small_config s 1);
    [by eapply reachable_intro | exact Hm].
Defined.

(** X19.  Line 208 starts the capture thread and line 209 resets
    [tEnd] afterwards.  When the thread retrieves a frame and times out
    before the main thread executes line 209, its [tEnd = 1] is
    overwritten: the frame is relayed and written, no capture thread is
    left, and the main thread polls for the second frame in a state it
    never leaves without Ctrl-C; the file is not closed. *)
Theorem timeout_before_reset_is_lost cfg disk now mouse img rest s0 :
  boot disk now mouse (Trigger img :: Quiet :: rest) = Running s0 →
  0 < TRIALS_TO_RECORD cfg → 1 < FRAMES_TO_RECORD cfg →
  ∃ s t,
    exec cfg reset_after_timeout s0 = Some s
    ∧ trials s = [t] ∧ polling 0 1 s
    ∧ cam1Thread t = C_Done ∧ retrieved t = [img]
    ∧ writer1 t = [writeFrame img] ∧ outcome t = None.
Proof.
  intros Hboot Htr Hfr. unfold boot in Hboot.
  destruct (setup_folders disk now mouse) as [fs' [ses|e]]; simplify_eq.
  by apply reset_loses_timeout.
Qed.

(** X19 with the constants of the script. *)
Lemma timeout_before_reset_is_lost_witness :
  ∃ s0 s t,
    boot lab_fs morning "m1" [Trigger (frame 0); Quiet] = Running s0
    ∧ exec source_config reset_after_timeout s0 = Some s
    ∧ trials s = [t] ∧ polling 0 1 s
    ∧ cam1Thread t = C_Done ∧ retrieved t = [frame 0]
    ∧ writer1 t = [writeFrame (frame 0)] ∧ outcome t = None.
Proof.
  assert (∃ s0,
    boot lab_fs morning "m1" [Trigger (frame 0); Quiet] = Running s0)
    as (s0 & Hb).
  { eexists. vm_compute. reflexivity. }
  destruct (timeout_before_reset_is_lost source_config lab_fs morning "m1"
              (frame 0) [] s0 Hb) as (s & t & H).
  { apply Nat.ltb_lt. vm_compute. reflexivity. }
  { apply Nat.ltb_lt. vm_compute. reflexivity. }
  exists s0, s, t. split; [exact Hb|exact H].
Defined.
